(** * BiDoc: the definition/reference resolution engine of bimark

    A shallow embedding of [src/bidoc.ts] (class [BiDoc]) and the proofs of
    the properties stated about it.

    JavaScript objects are shared and mutated in place: one [Definition]
    object is the value of several [name2def] keys and of one [id2def] key,
    and every reference pushes onto its [refs] array; one [Fragment] object
    sits in the fragment array of a document and in the descriptor of the
    marker found in it.  The embedding therefore keeps two object stores,
    one for definitions and one for fragments, and represents an object by
    its handle (its position in the store).  Reading a property through a
    handle that is not in the store is what JavaScript reports as a
    [TypeError] on [undefined].

    Numbers are modelled by [Z] (reference indices are small integers),
    strings by [string]. *)

From Stdlib Require Import ZArith Ascii String List.
From stdpp Require Import base option list gmap strings fin_maps pretty.

Local Open Scope Z_scope.

(** ** Strings *)

(** [s.slice(start, end)] of JavaScript, with its negative offsets. *)
Definition slice (start end_ : Z) (s : string) : string :=
  let len := Z.of_nat (String.length s) in
  let from := if start <? 0 then Z.max (len + start) 0 else Z.min start len in
  let to := if end_ <? 0 then Z.max (len + end_) 0 else Z.min end_ len in
  substring (Z.to_nat from) (Z.to_nat (to - from)) s.

(** [array.join(sep)] with the empty separator. *)
Definition join (l : list string) : string := String.concat EmptyString l.

(** ** Errors and results *)

Inductive exn :=
  | Error (message : string)
  | TypeError.

Inductive Result (A : Type) :=
  | Ok (a : A)
  | Err (e : exn).
Arguments Ok {A} a.
Arguments Err {A} e.

(** ** JavaScript [Map] with string keys

    [Map] iterates in insertion order and [set] on a present key keeps the
    position of the key, so a map that is iterated is an association list. *)
Module Map.
Section Ops.
Context {V : Type}.

Fixpoint get (k : string) (m : list (string * V)) : option V :=
  match m with
  | [] => None
  | (k', v) :: m' => if decide (k' = k) then Some v else get k m'
  end.

Definition has (k : string) (m : list (string * V)) : bool :=
  match get k m with Some _ => true | None => false end.

Fixpoint set (k : string) (v : V) (m : list (string * V)) : list (string * V) :=
  match m with
  | [] => [(k, v)]
  | (k', v') :: m' =>
      if decide (k' = k) then (k, v) :: m' else (k', v') :: set k v m'
  end.
End Ops.
End Map.

(** ** Data model

    [model.js] is not among the sources; the records below have the
    attributes the specification lists (section 3), which are the fields
    that [bidoc.ts] reads and writes. *)

(** Modelled from the spec: the [type] of a [Reference] in [model.js],
    one of explicit, escaped, implicit. *)
Inductive RefType := explicit | escaped | implicit.

Global Instance RefType_eq_dec : EqDecision RefType.
Proof. solve_decision. Defined.

(** Modelled from the spec: [Reference] of [model.js]; [r_def] and
    [r_fragment] are handles. *)
Record Reference := mkReference {
  r_def : nat;
  r_path : string;
  r_fragment : nat;
  r_type : RefType;
  r_index : Z;
  r_name : string;
}.

(** Modelled from the spec: [Definition] of [model.js]; [d_fragment] is a
    handle. *)
Record Defn := mkDefn {
  d_name : string;
  d_alias : list string;
  d_id : string;
  d_fragment : nat;
  d_refs : list Reference;
}.

Definition with_id (d : Defn) (i : string) : Defn :=
  {| d_name := d_name d; d_alias := d_alias d; d_id := i;
     d_fragment := d_fragment d; d_refs := d_refs d |}.

(** [d.refs.push(ref)] *)
Definition push_ref (ref : Reference) (d : Defn) : Defn :=
  {| d_name := d_name d; d_alias := d_alias d; d_id := d_id d;
     d_fragment := d_fragment d; d_refs := d_refs d ++ [ref] |}.

(** [refs.at(-1)?.index ?? -1] *)
Definition lastIndex (rs : list Reference) : Z :=
  match last rs with
  | Some r => r_index r
  | None => -1
  end.

(** Modelled from the spec: the descriptor of an explicit or escaped
    marker that [parser.js] returns, with the fields [bidoc.ts] reads:
    [{ def, fragment, type }]. *)
Record ParsedRef := mkParsedRef {
  pr_def : nat;
  pr_fragment : nat;
  pr_type : RefType;
}.

(** The argument of [getReverseRefs]: [{ id }] or [{ name }]. *)
Inductive Options :=
  | ById (id : string)
  | ByName (name : string).

Section BiDoc.

(** [Position] of [model.js] is opaque to the engine. *)
Context {Position : Type}.

(** Modelled from the spec: [Fragment] of [model.js]. *)
Record Fragment := mkFragment {
  content : string;
  skip : bool;
  position : Position;
}.

Definition with_content (f : Fragment) (s : string) : Fragment :=
  {| content := s; skip := skip f; position := position f |}.

(** The callbacks.  In JavaScript a callback receives a [Reference]
    object and reads the target through [ref.def]; here it receives the
    target definition as the store has it at the time of the call,
    together with the reference.  The callbacks of this section return;
    [Throwing], below, has the methods with callbacks that may throw. *)
Definition DefIdGenerator := string → string.
Definition RefIdGenerator := Defn → Reference → string.
Definition DefRenderer := Defn → string.
Definition RefRenderer := Defn → Reference → string.

(** The instance, with the objects reachable from it: [heap_defs] holds
    the [Definition] objects and [heap_frags] the [Fragment] objects. *)
Record BiDoc := mkBiDoc {
  name2def : list (string * nat);
  id2def : gmap string nat;
  defIdGenerator : DefIdGenerator;
  refIdGenerator : RefIdGenerator;
  heap_defs : list Defn;
  heap_frags : list Fragment;
}.

Definition set_name2def (f : list (string * nat) → list (string * nat))
    (doc : BiDoc) : BiDoc :=
  {| name2def := f (name2def doc); id2def := id2def doc;
     defIdGenerator := defIdGenerator doc;
     refIdGenerator := refIdGenerator doc;
     heap_defs := heap_defs doc; heap_frags := heap_frags doc |}.

Definition set_id2def (f : gmap string nat → gmap string nat)
    (doc : BiDoc) : BiDoc :=
  {| name2def := name2def doc; id2def := f (id2def doc);
     defIdGenerator := defIdGenerator doc;
     refIdGenerator := refIdGenerator doc;
     heap_defs := heap_defs doc; heap_frags := heap_frags doc |}.

Definition set_heap_defs (f : list Defn → list Defn) (doc : BiDoc) : BiDoc :=
  {| name2def := name2def doc; id2def := id2def doc;
     defIdGenerator := defIdGenerator doc;
     refIdGenerator := refIdGenerator doc;
     heap_defs := f (heap_defs doc); heap_frags := heap_frags doc |}.

Definition set_heap_frags (f : list Fragment → list Fragment)
    (doc : BiDoc) : BiDoc :=
  {| name2def := name2def doc; id2def := id2def doc;
     defIdGenerator := defIdGenerator doc;
     refIdGenerator := refIdGenerator doc;
     heap_defs := heap_defs doc; heap_frags := f (heap_frags doc) |}.

(** ** The monad of the methods: state and exceptions

    An exception leaves the state as the steps before it left it. *)
Definition M (A : Type) : Type := BiDoc → Result A * BiDoc.

Definition ret {A} (a : A) : M A := fun doc => (Ok a, doc).

Definition bind {A B} (m : M A) (k : A → M B) : M B :=
  fun doc =>
    match m doc with
    | (Ok a, doc') => k a doc'
    | (Err e, doc') => (Err e, doc')
    end.

Definition throw {A} (e : exn) : M A := fun doc => (Err e, doc).
Definition gets {A} (f : BiDoc → A) : M A := fun doc => (Ok (f doc), doc).
Definition modify (f : BiDoc → BiDoc) : M unit := fun doc => (Ok tt, f doc).

Notation "x <- m ;; k" := (bind m (fun x => k))
  (at level 100, m at next level, right associativity).
Notation "m ;; k" := (bind m (fun _ => k))
  (at level 100, right associativity).

Definition when (b : bool) (m : M unit) : M unit := if b then m else ret tt.

(** [array.forEach(f)] *)
Fixpoint forEach {A} (f : A → M unit) (l : list A) : M unit :=
  match l with
  | [] => ret tt
  | x :: l' => f x ;; forEach f l'
  end.

(** [array.map(f)] with a callback that may throw. *)
Fixpoint mapM {A B} (f : A → M B) (l : list A) : M (list B) :=
  match l with
  | [] => ret []
  | x :: l' => y <- f x ;; ys <- mapM f l' ;; ret (y :: ys)
  end.

(** Reading an object through its handle. *)
Definition deref_def (h : nat) : M Defn :=
  fun doc =>
    match heap_defs doc !! h with
    | Some d => (Ok d, doc)
    | None => (Err TypeError, doc)
    end.

Definition deref_frag (h : nat) : M Fragment :=
  fun doc =>
    match heap_frags doc !! h with
    | Some f => (Ok f, doc)
    | None => (Err TypeError, doc)
    end.

(** A new object gets the next handle. *)
Definition alloc_def (d : Defn) : M nat :=
  fun doc => (Ok (length (heap_defs doc)), set_heap_defs (fun hp => hp ++ [d]) doc).

Definition alloc_frag (f : Fragment) : M nat :=
  fun doc => (Ok (length (heap_frags doc)), set_heap_frags (fun hp => hp ++ [f]) doc).

(** [fragment.content = s] *)
Definition set_content (h : nat) (s : string) : M unit :=
  f <- deref_frag h ;;
  modify (set_heap_frags (fun hp => <[h := with_content f s]> hp)).

(** ** The parser ([parser.js]), a collaborator

    [parser.js] is not among the sources: the parser is a parameter.  It
    reads what it is handed, allocates the fragments it cuts and returns
    descriptors; its second result is the fragment store after the
    call. *)

(** Modelled from the spec: the result [{ defs, fragments }] of
    [parseDefinition] and [parseDefinitionFromFragments] in [parser.js]. *)
Record DefsResult := mkDefsResult {
  defs : list Defn;
  defs_fragments : list nat;
}.

(** Modelled from the spec: the result [{ refs, fragments }] of
    [parseExplicitOrEscapedReference] in [parser.js]. *)
Record RefsResult := mkRefsResult {
  refs : list ParsedRef;
  refs_fragments : list nat;
}.

(** Modelled from the spec: the result [{ refs, fragments }] of
    [parseImplicitReference] in [parser.js]; its [refs] are fragments. *)
Record ImplicitResult := mkImplicitResult {
  irefs : list nat;
  irefs_fragments : list nat;
}.

(** Modelled from the spec: the four entry points of [BiParser] in
    [parser.js] (section 6), with the arguments [bidoc.ts] passes. *)
Class BiParser := {
  parseDefinition :
    string → string → Position → list Fragment → DefsResult * list Fragment;
  parseDefinitionFromFragments :
    list nat → string → list Fragment → DefsResult * list Fragment;
  parseExplicitOrEscapedReference :
    list nat → string → list (string * nat) → gmap string nat →
    list Defn → list Fragment → RefsResult * list Fragment;
  parseImplicitReference :
    list nat → string → list Fragment → ImplicitResult * list Fragment;
}.

Context {parser : BiParser}.

(** [uslug] and [JSON.stringify] come from outside the repository. *)
Variable uslug : string → string.
Variable JSON_stringify : Options → string.

Definition call_parser {A} (p : list Fragment → A * list Fragment) : M A :=
  fun doc =>
    let '(res, frags) := p (heap_frags doc) in
    (Ok res, set_heap_frags (fun _ => frags) doc).

(** ** The constructor *)

Record ConstructorOptions := mkConstructorOptions {
  opt_refIdGenerator : option RefIdGenerator;
  opt_defIdGenerator : option DefIdGenerator;
}.

Definition default_defIdGenerator : DefIdGenerator := fun name => uslug name.

Definition default_refIdGenerator : RefIdGenerator :=
  fun d ref => d_id d +:+ "-ref-" +:+ pretty (r_index ref + 1).

Definition new_BiDoc (options : option ConstructorOptions) : BiDoc :=
  {| defIdGenerator :=
       default default_defIdGenerator (options ≫= opt_defIdGenerator);
     refIdGenerator :=
       default default_refIdGenerator (options ≫= opt_refIdGenerator);
     name2def := [];
     id2def := ∅;
     heap_defs := [];
     heap_frags := [] |}.

(** ** [collectDefinition] *)

Definition duplicate_name (name path : string) : exn :=
  Error ("Duplicate definition name: " +:+ name +:+ " in file " +:+ path).

Definition duplicate_id (id path : string) : exn :=
  Error ("Duplicate definition id: " +:+ id +:+ " in file " +:+ path).

(** [if (d.id.length == 0) d.id = this.defIdGenerator(d.name)] *)
Definition assign_id (gen : DefIdGenerator) (d : Defn) : Defn :=
  if (String.length (d_id d) =? 0)%nat then with_id d (gen (d_name d)) else d.

(** The body of [res.defs.forEach((d) => ...)]; its result is the handle
    under which the definition is registered. *)
Definition collectDefinition_each (path : string) (d0 : Defn) : M nat :=
  gen <- gets defIdGenerator ;;
  let d := assign_id gen d0 in
  n2d <- gets name2def ;;
  when (Map.has (d_name d) n2d) (throw (duplicate_name (d_name d) path)) ;;
  i2d <- gets id2def ;;
  when (bool_decide (is_Some (i2d !! d_id d))) (throw (duplicate_id (d_id d) path)) ;;
  forEach (fun a =>
    n2d <- gets name2def ;;
    when (Map.has a n2d) (throw (duplicate_name a path))) (d_alias d) ;;
  h <- alloc_def d ;;
  modify (set_name2def (Map.set (d_name d) h)) ;;
  modify (set_id2def (insert (d_id d) h)) ;;
  forEach (fun a => modify (set_name2def (Map.set a h))) (d_alias d) ;;
  ret h.

Definition collectDefinition (text path : string) (position : Position)
    : M (list nat * list nat) :=
  res <- call_parser (parseDefinition text path position) ;;
  hs <- mapM (collectDefinition_each path) (defs res) ;;
  ret (hs, defs_fragments res).

(** ** [renderDefinition] *)

(** The body of [res.defs.forEach((d) => ...)]: the definitions found in
    the fragments are objects of the parser, not those of the registry. *)
Definition renderDefinition_each (renderer : DefRenderer) (d0 : Defn) : M unit :=
  gen <- gets defIdGenerator ;;
  let d := assign_id gen d0 in
  set_content (d_fragment d) (renderer d).

Definition renderDefinition (path : string) (fragments : list nat)
    (renderer : DefRenderer) : M (list nat) :=
  res <- call_parser (parseDefinitionFromFragments fragments path) ;;
  forEach (renderDefinition_each renderer) (defs res) ;;
  ret (defs_fragments res).

(** ** [renderExplicitOrEscapedReference] *)

(** [this.id2def.get(key)!.name] *)
Definition id2def_name (key : string) : M string :=
  i2d <- gets id2def ;;
  match i2d !! key with
  | Some h => d <- deref_def h ;; ret (d_name d)
  | None => throw TypeError
  end.

(** [def.refs.push(ref)] on the object with handle [h]. *)
Definition push (h : nat) (ref : Reference) : M unit :=
  modify (set_heap_defs (alter (push_ref ref) h)).

(** The body of [res.refs.forEach((r) => ...)]. *)
Definition renderExplicitOrEscapedReference_each (path : string)
    (renderer : RefRenderer) (r : ParsedRef) : M unit :=
  d <- deref_def (pr_def r) ;;
  let index :=
    if decide (pr_type r = escaped)
    then lastIndex (d_refs d)
    else lastIndex (d_refs d) + 1 in
  f <- deref_frag (pr_fragment r) ;;
  name <- (if decide (pr_type r = escaped)
           then ret (slice 3 (-2) (content f))
           else id2def_name (slice 3 (-2) (content f))) ;;
  let ref :=
    {| r_def := pr_def r; r_path := path; r_fragment := pr_fragment r;
       r_type := pr_type r; r_index := index; r_name := name |} in
  push (pr_def r) ref ;;
  if decide (pr_type r = explicit)
  then target <- deref_def (pr_def r) ;;
       set_content (pr_fragment r) (renderer target ref)
  else set_content (pr_fragment r) (r_name ref).

Definition renderExplicitOrEscapedReference (path : string)
    (fragments : list nat) (renderer : RefRenderer) : M (list nat) :=
  n2d <- gets name2def ;;
  i2d <- gets id2def ;;
  hp <- gets heap_defs ;;
  res <- call_parser (parseExplicitOrEscapedReference fragments path n2d i2d hp) ;;
  forEach (renderExplicitOrEscapedReference_each path renderer) (refs res) ;;
  ret (refs_fragments res).

(** ** [renderImplicitReference] *)

(** The body of [res.refs.forEach((r) => ...)]; [r] is a fragment. *)
Definition renderImplicitReference_each (path : string) (def : nat)
    (renderer : RefRenderer) (r : nat) : M unit :=
  d <- deref_def def ;;
  f <- deref_frag r ;;
  let ref :=
    {| r_def := def; r_path := path; r_fragment := r; r_type := implicit;
       r_index := lastIndex (d_refs d) + 1; r_name := content f |} in
  push def ref ;;
  target <- deref_def def ;;
  set_content r (renderer target ref).

Definition renderImplicitReference (path : string) (fragments : list nat)
    (def : nat) (name : string) (renderer : RefRenderer) : M (list nat) :=
  res <- call_parser (parseImplicitReference fragments name) ;;
  forEach (renderImplicitReference_each path def renderer) (irefs res) ;;
  ret (irefs_fragments res).

(** ** [renderText] *)

(** [this.name2def.forEach((def, content) => { fragments = ... })]: the
    entries in insertion order, the local [fragments] threaded through. *)
Fixpoint renderImplicitReferences (path : string) (renderer : RefRenderer)
    (entries : list (string * nat)) (fragments : list nat) : M (list nat) :=
  match entries with
  | [] => ret fragments
  | (content, def) :: entries' =>
      fragments' <- renderImplicitReference path fragments def content renderer ;;
      renderImplicitReferences path renderer entries' fragments'
  end.

(** [fragments.map((f) => f.content)] *)
Definition contents (fragments : list nat) : M (list string) :=
  mapM (fun h => f <- deref_frag h ;; ret (content f)) fragments.

Definition renderText (path s : string) (position : Position)
    (defRenderer : DefRenderer) (refRenderer : RefRenderer) : M string :=
  f0 <- alloc_frag {| content := s; skip := false; position := position |} ;;
  fragments <- renderDefinition path [f0] defRenderer ;;
  fragments <- renderExplicitOrEscapedReference path fragments refRenderer ;;
  entries <- gets name2def ;;
  fragments <- renderImplicitReferences path refRenderer entries fragments ;;
  cs <- contents fragments ;;
  ret (join cs).

(** ** [getReverseRefs] *)

Definition lookup_options (options : Options) (doc : BiDoc) : option nat :=
  match options with
  | ById id => id2def doc !! id
  | ByName name => Map.get name (name2def doc)
  end.

Definition not_found (options : Options) : exn :=
  Error ("Definition not found: " +:+ JSON_stringify options).

(** [`${ref.path}#${this.refIdGenerator(ref)}`] *)
Definition reverseRef (ref : Reference) : M string :=
  gen <- gets refIdGenerator ;;
  target <- deref_def (r_def ref) ;;
  ret (r_path ref +:+ "#" +:+ gen target ref).

Definition getReverseRefs (options : Options) : M (list string) :=
  def <- gets (lookup_options options) ;;
  match def with
  | None => throw (not_found options)
  | Some h => d <- deref_def h ;; mapM reverseRef (d_refs d)
  end.

End BiDoc.

Arguments Fragment : clear implicits.
Arguments BiDoc : clear implicits.
Arguments M : clear implicits.
Arguments BiParser : clear implicits.

(** ** Callbacks that throw

    The generators and the renderers are caller code: a call returns a
    string or throws.  The methods above take callbacks that return.  The
    methods of this module take callbacks that may throw: an exception of
    a callback is the exception of the method, raised where the source
    calls the callback, so that what was written before the call stays
    written.  On callbacks that return the two versions agree
    ([returning_collectDefinition] and the like, below). *)
Module Throwing.
Section Callbacks.

Context {Position : Type} {parser : BiParser Position}.

Notation "x <- m ;; k" := (bind m (fun x => k))
  (at level 100, m at next level, right associativity).
Notation "m ;; k" := (bind m (fun _ => k))
  (at level 100, right associativity).

Definition DefIdGenerator := string → Result string.
Definition RefRenderer := Defn → Reference → Result string.

(** The call of a callback: its result, or its exception. *)
Definition call {A} (r : Result A) : M Position A := fun doc => (r, doc).

(** [if (d.id.length == 0) d.id = this.defIdGenerator(d.name)] *)
Definition assign_id (defIdGenerator : DefIdGenerator) (d : Defn)
    : M Position Defn :=
  if (String.length (d_id d) =? 0)%nat
  then id <- call (defIdGenerator (d_name d)) ;; ret (with_id d id)
  else ret d.

(** The body of [res.defs.forEach((d) => ...)] of [collectDefinition];
    [defIdGenerator] is the read-only field of the instance. *)
Definition collectDefinition_each (defIdGenerator : DefIdGenerator)
    (path : string) (d0 : Defn) : M Position nat :=
  d <- assign_id defIdGenerator d0 ;;
  n2d <- gets name2def ;;
  when (Map.has (d_name d) n2d) (throw (duplicate_name (d_name d) path)) ;;
  i2d <- gets id2def ;;
  when (bool_decide (is_Some (i2d !! d_id d))) (throw (duplicate_id (d_id d) path)) ;;
  forEach (fun a =>
    n2d <- gets name2def ;;
    when (Map.has a n2d) (throw (duplicate_name a path))) (d_alias d) ;;
  h <- alloc_def d ;;
  modify (set_name2def (Map.set (d_name d) h)) ;;
  modify (set_id2def (insert (d_id d) h)) ;;
  forEach (fun a => modify (set_name2def (Map.set a h))) (d_alias d) ;;
  ret h.

Definition collectDefinition (defIdGenerator : DefIdGenerator)
    (text path : string) (position : Position)
    : M Position (list nat * list nat) :=
  res <- call_parser (parseDefinition text path position) ;;
  hs <- mapM (collectDefinition_each defIdGenerator path) (defs res) ;;
  ret (hs, defs_fragments res).

(** The body of [res.refs.forEach((r) => ...)] of
    [renderExplicitOrEscapedReference]: [r.def.refs.push(ref)] comes
    before [renderer(ref)]. *)
Definition renderExplicitOrEscapedReference_each (path : string)
    (renderer : RefRenderer) (r : ParsedRef) : M Position unit :=
  d <- deref_def (pr_def r) ;;
  let index :=
    if decide (pr_type r = escaped)
    then lastIndex (d_refs d)
    else lastIndex (d_refs d) + 1 in
  f <- deref_frag (pr_fragment r) ;;
  name <- (if decide (pr_type r = escaped)
           then ret (slice 3 (-2) (content f))
           else id2def_name (slice 3 (-2) (content f))) ;;
  let ref :=
    {| r_def := pr_def r; r_path := path; r_fragment := pr_fragment r;
       r_type := pr_type r; r_index := index; r_name := name |} in
  push (pr_def r) ref ;;
  if decide (pr_type r = explicit)
  then target <- deref_def (pr_def r) ;;
       text <- call (renderer target ref) ;;
       set_content (pr_fragment r) text
  else set_content (pr_fragment r) (r_name ref).

Definition renderExplicitOrEscapedReference (path : string)
    (fragments : list nat) (renderer : RefRenderer) : M Position (list nat) :=
  n2d <- gets name2def ;;
  i2d <- gets id2def ;;
  hp <- gets heap_defs ;;
  res <- call_parser (parseExplicitOrEscapedReference fragments path n2d i2d hp) ;;
  forEach (renderExplicitOrEscapedReference_each path renderer) (refs res) ;;
  ret (refs_fragments res).

(** The body of [res.refs.forEach((r) => ...)] of
    [renderImplicitReference]: [def.refs.push(ref)] comes before
    [renderer(ref)]. *)
Definition renderImplicitReference_each (path : string) (def : nat)
    (renderer : RefRenderer) (r : nat) : M Position unit :=
  d <- deref_def def ;;
  f <- deref_frag r ;;
  let ref :=
    {| r_def := def; r_path := path; r_fragment := r; r_type := implicit;
       r_index := lastIndex (d_refs d) + 1; r_name := content f |} in
  push def ref ;;
  target <- deref_def def ;;
  text <- call (renderer target ref) ;;
  set_content r text.

Definition renderImplicitReference (path : string) (fragments : list nat)
    (def : nat) (name : string) (renderer : RefRenderer)
    : M Position (list nat) :=
  res <- call_parser (parseImplicitReference fragments name) ;;
  forEach (renderImplicitReference_each path def renderer) (irefs res) ;;
  ret (irefs_fragments res).

End Callbacks.
End Throwing.

(** ** A scripted parser and a small corpus

    The parser of the repository is a collaborator; to run the engine on
    concrete documents the parser below answers from tables.  A table
    entry is given the next free fragment handle and returns the fragments
    the parser allocates and the descriptors it returns. *)
Module Scripted.

Definition Position := nat.

Record Script := mkScript {
  s_definition : string → nat → list (Fragment Position) * DefsResult;
  s_fromFragments : list nat → nat → list (Fragment Position) * DefsResult;
  s_explicit : list nat → nat → list (Fragment Position) * RefsResult;
  s_implicit : list nat → string → nat → list (Fragment Position) * ImplicitResult;
}.

Definition run {A} (entry : nat → list (Fragment Position) * A)
    (frags : list (Fragment Position)) : A * list (Fragment Position) :=
  let '(new, res) := entry (length frags) in (res, frags ++ new).

Definition parser (s : Script) : BiParser Position :=
  {| parseDefinition text _ _ := run (s_definition s text);
     parseDefinitionFromFragments fragments _ := run (s_fromFragments s fragments);
     parseExplicitOrEscapedReference fragments _ _ _ _ := run (s_explicit s fragments);
     parseImplicitReference fragments name := run (s_implicit s fragments name) |}.

(** Lower-casing stands for the slug function. *)
Definition lower (c : ascii) : ascii :=
  let n := nat_of_ascii c in
  if ((65 <=? n) && (n <=? 90))%nat then ascii_of_nat (n + 32) else c.

Fixpoint uslug (s : string) : string :=
  match s with
  | EmptyString => EmptyString
  | String c s' => String (lower c) (uslug s')
  end.

Definition JSON_stringify (o : Options) : string :=
  match o with
  | ById id => "{id:" +:+ id +:+ "}"
  | ByName name => "{name:" +:+ name +:+ "}"
  end.

Definition frag (s : string) (skip : bool) : Fragment Position :=
  {| content := s; skip := skip; position := 0%nat |}.

Definition defn (name : string) (alias : list string) (id : string)
    (fragment : nat) : Defn :=
  {| d_name := name; d_alias := alias; d_id := id; d_fragment := fragment;
     d_refs := [] |}.

Definition no_defs (fragments : list nat) (n : nat)
    : list (Fragment Position) * DefsResult :=
  ([], {| defs := []; defs_fragments := fragments |}).

Definition no_refs (fragments : list nat) (n : nat)
    : list (Fragment Position) * RefsResult :=
  ([], {| refs := []; refs_fragments := fragments |}).

Definition no_irefs (fragments : list nat) (name : string) (n : nat)
    : list (Fragment Position) * ImplicitResult :=
  ([], {| irefs := []; irefs_fragments := fragments |}).

(** The corpus of one document, [doc1]:
    [[[Widget]] see [[#widget]] or Widget]. *)
Definition widget : Script :=
  {| s_definition text n :=
       ([frag "[[Widget]]" true],
        {| defs := [defn "Widget" [] EmptyString n]; defs_fragments := [n] |});
     s_fromFragments fragments n :=
       ([frag "[[Widget]]" true; frag " see [[#widget]] or Widget" false],
        {| defs := [defn "Widget" [] EmptyString n];
           defs_fragments := [n; S n] |});
     s_explicit fragments n :=
       ([frag " see " false; frag "[[#widget]]" true; frag " or Widget" false],
        {| refs := [{| pr_def := 0; pr_fragment := S n; pr_type := explicit |}];
           refs_fragments := take 1 fragments ++ [n; S n; S (S n)] |});
     s_implicit fragments name n :=
       ([frag " or " false; frag "Widget" true],
        {| irefs := [S n];
           irefs_fragments := take 3 fragments ++ [n; S n] |}) |}.

Definition defRenderer : DefRenderer :=
  fun d => "<def " +:+ d_id d +:+ ">".

Definition refRenderer : RefRenderer :=
  fun d ref => "<ref " +:+ d_id d +:+ " " +:+ pretty (r_index ref) +:+ ">".

(** The instance after the definitions of [doc1] are collected, and after
    [doc1] is rendered. *)
Definition collected1 : BiDoc Position :=
  (collectDefinition (parser := parser widget) "[[Widget]]" "doc1" 0%nat
     (new_BiDoc uslug None)).2.

Definition rendered1 : BiDoc Position :=
  (renderText (parser := parser widget) "doc1"
     "[[Widget]] see [[#widget]] or Widget" 0%nat defRenderer refRenderer
     collected1).2.

(** A definition whose alias repeats its name: [[[Gadget|Gadget]]]. *)
Definition selfalias : Script :=
  {| s_definition text n :=
       ([frag "[[Gadget|Gadget]]" true],
        {| defs := [defn "Gadget" ["Gadget"] EmptyString n]; defs_fragments := [n] |});
     s_fromFragments := no_defs;
     s_explicit := no_refs;
     s_implicit := no_irefs |}.

Definition selfaliased : BiDoc Position :=
  (collectDefinition (parser := parser selfalias) "[[Gadget|Gadget]]" "doc1"
     0%nat (new_BiDoc uslug None)).2.

(** A document with three markers to [Widget]: explicit, escaped,
    explicit. *)
Definition explicit1 : ParsedRef :=
  {| pr_def := 0; pr_fragment := 2; pr_type := explicit |}.
Definition escaped2 : ParsedRef :=
  {| pr_def := 0; pr_fragment := 3; pr_type := escaped |}.
Definition explicit3 : ParsedRef :=
  {| pr_def := 0; pr_fragment := 4; pr_type := explicit |}.

Definition markers : Script :=
  {| s_definition := s_definition widget;
     s_fromFragments := no_defs;
     s_explicit fragments n :=
       ([frag "[[#widget]]" true; frag "[[!Widget]]" true; frag "[[#widget]]" true],
        {| refs := [explicit1; escaped2; explicit3];
           refs_fragments := [n; S n; S (S n)] |});
     s_implicit := no_irefs |}.

(** The fragments of the three markers in the store. *)
Definition marked : BiDoc Position :=
  set_heap_frags (fun hp =>
    hp ++ [frag "[[#widget]][[!Widget]][[#widget]]" false;
           frag "[[#widget]]" true; frag "[[!Widget]]" true;
           frag "[[#widget]]" true]) collected1.

(** The store after the first marker is rendered. *)
Definition marked1 : BiDoc Position :=
  (renderExplicitOrEscapedReference_each "doc2" refRenderer explicit1 marked).2.

(** A marker to an id that nothing defines. *)
Definition dangling : Script :=
  {| s_definition := s_definition widget;
     s_fromFragments := no_defs;
     s_explicit fragments n :=
       ([frag "[[#gadget]]" true],
        {| refs := [{| pr_def := 0; pr_fragment := n; pr_type := explicit |}];
           refs_fragments := [n] |});
     s_implicit := no_irefs |}.

(** A document with two occurrences of [Widget]:
    [Widget and Widget]. *)
Definition twice : Script :=
  {| s_definition := s_definition widget;
     s_fromFragments := no_defs;
     s_explicit := no_refs;
     s_implicit fragments name n :=
       ([frag "Widget" true; frag " and " false; frag "Widget" true],
        {| irefs := [n; S (S n)];
           irefs_fragments := [n; S n; S (S n)] |}) |}.

Definition twiced : BiDoc Position :=
  (alloc_frag (frag "Widget and Widget" false) collected1).2.

(** The store before the document of the three markers is parsed. *)
Definition unmarked : BiDoc Position :=
  (alloc_frag (frag "[[#widget]][[!Widget]][[#widget]]" false) collected1).2.

Definition dangled : BiDoc Position :=
  (alloc_frag (frag "[[#gadget]]" false) collected1).2.

(** The store before [doc1] is rendered. *)
Definition opened : BiDoc Position :=
  (alloc_frag (frag "[[Widget]] see [[#widget]] or Widget" false) collected1).2.

(** A generator of ids that never returns the empty string, and the
    instance built with it after the definitions of [doc1] are
    collected. *)
Definition prefixed : DefIdGenerator := fun name => "def-" +:+ name.

Definition prefixing : option ConstructorOptions :=
  Some {| opt_refIdGenerator := None; opt_defIdGenerator := Some prefixed |}.

Definition collected_prefixed : BiDoc Position :=
  (collectDefinition (parser := parser widget) "[[Widget]]" "doc1" 0%nat
     (new_BiDoc uslug prefixing)).2.

(** A document that defines two concepts, the second with an alias:
    [[[Widget]] [[Gadget|Gizmo:g1]]]. *)
Definition pair : Script :=
  {| s_definition text n :=
       ([frag "[[Widget]]" true; frag " " false; frag "[[Gadget|Gizmo:g1]]" true],
        {| defs := [defn "Widget" [] EmptyString n;
                    defn "Gadget" ["Gizmo"] "g1" (S (S n))];
           defs_fragments := [n; S n; S (S n)] |});
     s_fromFragments := no_defs;
     s_explicit := no_refs;
     s_implicit := no_irefs |}.

(** Definitions that collide with [Widget] of [doc1]: one whose generated
    id is the id of [Widget], [[[WIDGET]]], and one whose alias is its
    name, [[[Gadget|Widget]]]. *)
Definition shout : Script :=
  {| s_definition text n :=
       ([frag "[[WIDGET]]" true],
        {| defs := [defn "WIDGET" [] EmptyString n]; defs_fragments := [n] |});
     s_fromFragments := no_defs;
     s_explicit := no_refs;
     s_implicit := no_irefs |}.

Definition nickname : Script :=
  {| s_definition text n :=
       ([frag "[[Gadget|Widget]]" true],
        {| defs := [defn "Gadget" ["Widget"] EmptyString n];
           defs_fragments := [n] |});
     s_fromFragments := no_defs;
     s_explicit := no_refs;
     s_implicit := no_irefs |}.

(** A corpus of two documents: [doc1] defines [Widget], any other text
    defines [Gadget] with the alias [Gizmo] and the id [g1]. *)
Definition corpus : Script :=
  {| s_definition text n :=
       if String.eqb text "[[Widget]]"
       then ([frag "[[Widget]]" true],
             {| defs := [defn "Widget" [] EmptyString n];
                defs_fragments := [n] |})
       else ([frag "[[Gadget|Gizmo:g1]]" true],
             {| defs := [defn "Gadget" ["Gizmo"] "g1" n];
                defs_fragments := [n] |});
     s_fromFragments := no_defs;
     s_explicit := no_refs;
     s_implicit := no_irefs |}.

(** The instance after the definitions of both documents are collected. *)
Definition collected2 : BiDoc Position :=
  (collectDefinition (parser := parser corpus) "[[Gadget|Gizmo:g1]]" "doc2"
     0%nat
     (collectDefinition (parser := parser corpus) "[[Widget]]" "doc1" 0%nat
        (new_BiDoc uslug None)).2).2.


(** Caller code that throws: a generator that refuses every name, one
    that returns the slug, and a renderer that renders the references of
    index 0 and refuses the others. *)
Definition refusing : Throwing.DefIdGenerator :=
  fun name => Err (Error ("no id for " +:+ name)).

Definition slugging : Throwing.DefIdGenerator := fun name => Ok (uslug name).

Definition once : Throwing.RefRenderer :=
  fun d ref =>
    if (r_index ref =? 0)%Z then Ok (refRenderer d ref)
    else Err (Error "rendered once").


End Scripted.


(** ** Predicates and specifications *)
Section Registry.

Context {Position : Type} {parser : BiParser Position}.

(** A definition (its id assigned) collides with the registry: its name,
    its id or one of its aliases is a key already. *)
Definition taken_alias (doc : BiDoc Position) (d : Defn) : option string :=
  find (fun a => Map.has a (name2def doc)) (d_alias d).

Definition collides (doc : BiDoc Position) (d : Defn) : bool :=
  Map.has (d_name d) (name2def doc)
  || bool_decide (is_Some (id2def doc !! d_id d))
  || bool_decide (is_Some (taken_alias doc d)).

(** The instance after [d] is registered under the next handle. *)
Definition register (d : Defn) (doc : BiDoc Position) : BiDoc Position :=
  let h := length (heap_defs doc) in
  {| name2def :=
       foldl (fun m a => Map.set a h m) (Map.set (d_name d) h (name2def doc))
         (d_alias d);
     id2def := <[d_id d := h]> (id2def doc);
     defIdGenerator := defIdGenerator doc;
     refIdGenerator := refIdGenerator doc;
     heap_defs := heap_defs doc ++ [d];
     heap_frags := heap_frags doc |}.

(** Every definition object is found under its name, its id and each of
    its aliases. *)
Definition registry_ok (doc : BiDoc Position) : Prop :=
  ∀ h d, heap_defs doc !! h = Some d →
    Map.get (d_name d) (name2def doc) = Some h
    ∧ id2def doc !! d_id d = Some h
    ∧ ∀ a, a ∈ d_alias d → Map.get a (name2def doc) = Some h.

(** What a definition is registered under. *)
Definition keys (d : Defn) : string * list string * string :=
  (d_name d, d_alias d, d_id d).

(** Two instances with the same registry: the same maps and generators
    and, handle by handle, definitions with the same name, aliases and
    id.  Rendering changes [refs] and fragments only. *)
Definition same_registry (doc doc' : BiDoc Position) : Prop :=
  name2def doc = name2def doc'
  ∧ id2def doc = id2def doc'
  ∧ defIdGenerator doc = defIdGenerator doc'
  ∧ refIdGenerator doc = refIdGenerator doc'
  ∧ keys <$> heap_defs doc = keys <$> heap_defs doc'.

(** A step that leaves the fragment with handle [h] as it is. *)
Definition same_fragment (h : nat) (doc doc' : BiDoc Position) : Prop :=
  heap_frags doc' !! h = heap_frags doc !! h.

(** A step that keeps the registry invariant. *)
Definition keeps_ok (doc doc' : BiDoc Position) : Prop :=
  registry_ok doc → registry_ok doc'.

(** The names of a definition: its primary name and its aliases. *)
Definition names (d : Defn) : list string := d_name d :: d_alias d.

Definition registered_names (doc : BiDoc Position) : list string :=
  flat_map names (heap_defs doc).

Definition registered_ids (doc : BiDoc Position) : list string :=
  d_id <$> heap_defs doc.

(** The instances a sequence of [collectDefinition] calls, none of which
    throws, leads to. *)
Inductive collected (uslug : string → string) : BiDoc Position → Prop :=
  | collected_new options : collected uslug (new_BiDoc uslug options)
  | collected_call doc text path position res doc' :
      collected uslug doc →
      collectDefinition text path position doc = (Ok res, doc') →
      collected uslug doc'.

(** The instances any sequence of calls leads to from the instance that
    the constructor builds from [options], a call that throws included:
    the instance is then what the call left. *)
Inductive reachable (uslug : string → string)
    (options : option ConstructorOptions) : BiDoc Position → Prop :=
  | reachable_new : reachable uslug options (new_BiDoc uslug options)
  | reachable_collectDefinition doc text path position :
      reachable uslug options doc →
      reachable uslug options (collectDefinition text path position doc).2
  | reachable_renderText doc path s position defRenderer refRenderer :
      reachable uslug options doc →
      reachable uslug options
        (renderText path s position defRenderer refRenderer doc).2.

(** Two instances with the same generators: the fields are read-only. *)
Definition same_generators (doc doc' : BiDoc Position) : Prop :=
  defIdGenerator doc = defIdGenerator doc'
  ∧ refIdGenerator doc = refIdGenerator doc'.

(** The reference that [renderExplicitOrEscapedReference] builds for the
    marker [r] when the target is [d] and the name resolves to [name]. *)
Definition marker_reference (path : string) (r : ParsedRef) (d : Defn)
    (name : string) : Reference :=
  {| r_def := pr_def r; r_path := path; r_fragment := pr_fragment r;
     r_type := pr_type r;
     r_index := if decide (pr_type r = escaped)
                then lastIndex (d_refs d) else lastIndex (d_refs d) + 1;
     r_name := name |}.

(** The name of the marker [r] whose fragment is [f]: the text between
    the delimiters for an escaped marker, else the name of the definition
    that text identifies. *)
Definition marker_name (doc : BiDoc Position) (r : ParsedRef)
    (f : Fragment Position) : option string :=
  if decide (pr_type r = escaped) then Some (slice 3 (-2) (content f))
  else h ← id2def doc !! slice 3 (-2) (content f);
       d ← heap_defs doc !! h;
       Some (d_name d).

(** The reference that [renderImplicitReference] builds for the fragment
    [r] with content [f]. *)
Definition implicit_reference (path : string) (def : nat) (r : nat)
    (d : Defn) (f : Fragment Position) : Reference :=
  {| r_def := def; r_path := path; r_fragment := r; r_type := implicit;
     r_index := lastIndex (d_refs d) + 1; r_name := content f |}.

(** The state after a reference is pushed and its fragment rewritten. *)
Definition recorded (h : nat) (ref : Reference) (fh : nat)
    (f : Fragment Position) (text : string) (doc : BiDoc Position)
    : BiDoc Position :=
  set_heap_frags (fun hp => <[fh := with_content f text]> hp)
    (set_heap_defs (alter (push_ref ref) h) doc).

(** [d] with the references [news] pushed, one after the other. *)
Definition add_refs (d : Defn) (news : list Reference) : Defn :=
  {| d_name := d_name d; d_alias := d_alias d; d_id := d_id d;
     d_fragment := d_fragment d; d_refs := d_refs d ++ news |}.

(** The index rule of explicit and escaped references: each of [news],
    recorded after [old] and after the ones before it, has the index of
    the last reference recorded before it, plus one unless it is
    escaped. *)
Definition index_rule (old news : list Reference) : Prop :=
  ∀ k ref, news !! k = Some ref →
    r_index ref
    = if decide (r_type ref = escaped)
      then lastIndex (old ++ take k news)
      else lastIndex (old ++ take k news) + 1.

(** A marker that can be processed: its target is in the store, its
    fragment is in the store and its name resolves. *)
Definition resolves (doc : BiDoc Position) (r : ParsedRef) : Prop :=
  is_Some (heap_defs doc !! pr_def r)
  ∧ ∃ f, heap_frags doc !! pr_fragment r = Some f
       ∧ is_Some (marker_name doc r f).

(** The markers of [rs] whose target is [h], in order. *)
Definition targeting (h : nat) (rs : list ParsedRef) : list ParsedRef :=
  filter (fun r => pr_def r = h) rs.

(** The document pipeline as the specification words it (4.5), to be
    compared with [renderText]: implicit rendering runs once per entry of
    the registry, in the order of the entries. *)
Inductive implicit_stage (path : string) (renderer : RefRenderer)
    : list (string * nat) → list nat → BiDoc Position →
      list nat → BiDoc Position → Prop :=
  | implicit_done fragments doc :
      implicit_stage path renderer [] fragments doc fragments doc
  | implicit_next name def entries fragments doc fragments1 doc1 fragments' doc' :
      renderImplicitReference path fragments def name renderer doc
      = (Ok fragments1, doc1) →
      implicit_stage path renderer entries fragments1 doc1 fragments' doc' →
      implicit_stage path renderer ((name, def) :: entries) fragments doc
        fragments' doc'.

(** The text of a fragment sequence: the contents, in order. *)
Definition contents_of (doc : BiDoc Position) (fragments : list nat)
    (cs : list string) : Prop :=
  Forall2 (fun h c => ∃ f, heap_frags doc !! h = Some f ∧ c = content f)
    fragments cs.

(** One initial fragment that is not skipped; definitions, then explicit
    and escaped references, then implicit references; the result is the
    concatenation of the contents of the final fragments. *)
Definition renderText_spec (path s : string) (position : Position)
    (defRenderer : DefRenderer) (refRenderer : RefRenderer)
    (doc : BiDoc Position) (out : string) (doc' : BiDoc Position) : Prop :=
  let f0 := length (heap_frags doc) in
  let initial := {| content := s; skip := false; position := position |} in
  let doc0 := set_heap_frags (fun hp => hp ++ [initial]) doc in
  ∃ fragments1 doc1 fragments2 doc2 fragments3 cs,
    renderDefinition path [f0] defRenderer doc0 = (Ok fragments1, doc1)
    ∧ renderExplicitOrEscapedReference path fragments1 refRenderer doc1
      = (Ok fragments2, doc2)
    ∧ implicit_stage path refRenderer (name2def doc) fragments2 doc2
        fragments3 doc'
    ∧ contents_of doc' fragments3 cs
    ∧ out = join cs.

End Registry.

(** ** Further predicates *)
Section Further.

Context {Position : Type} {parser : BiParser Position}.

(** A step that keeps the predicate [P]. *)
Definition keeps (P : BiDoc Position → Prop) (doc doc' : BiDoc Position) : Prop :=
  P doc → P doc'.

(** [doc'] extends the registry of [doc]: every key has the handle it had
    and every definition object is as it was, where it was. *)
Definition extends (doc doc' : BiDoc Position) : Prop :=
  (∀ k h, Map.get k (name2def doc) = Some h → Map.get k (name2def doc') = Some h)
  ∧ (∀ k h, id2def doc !! k = Some h → id2def doc' !! k = Some h)
  ∧ heap_defs doc `prefix_of` heap_defs doc'.

(** No definition of the list has the id, the name or an alias of an
    earlier one. *)
Fixpoint mutually_fresh (ds : list Defn) : Prop :=
  match ds with
  | [] => True
  | d :: ds' =>
      Forall (fun d' => d_id d' ≠ d_id d ∧ ∀ k, k ∈ names d' → k ∉ names d) ds'
      ∧ mutually_fresh ds'
  end.

(** The instance after the definitions of the list are registered, one
    after the other. *)
Fixpoint register_all (ds : list Defn) (doc : BiDoc Position) : BiDoc Position :=
  match ds with
  | [] => doc
  | d :: ds' => register_all ds' (register d doc)
  end.

(** The entries that registering the list adds to [name2def] when the
    first definition gets the handle [n]: for each definition its name,
    then its aliases. *)
Fixpoint entries_from (n : nat) (ds : list Defn) : list (string * nat) :=
  match ds with
  | [] => []
  | d :: ds' => ((fun k => (k, n)) <$> names d) ++ entries_from (S n) ds'
  end.

End Further.

(** ** Invariants of the instance *)
Section Invariants.

Context {Position : Type}.

(** Every key of the maps leads to a definition object that carries it. *)
Definition no_orphans (doc : BiDoc Position) : Prop :=
  (∀ k h, Map.get k (name2def doc) = Some h →
     ∃ d, heap_defs doc !! h = Some d ∧ k ∈ names d)
  ∧ (∀ k h, id2def doc !! k = Some h →
       ∃ d, heap_defs doc !! h = Some d ∧ k = d_id d).

(** No registered definition has the empty id. *)
Definition ids_assigned (doc : BiDoc Position) : Prop :=
  Forall (fun d => d_id d ≠ EmptyString) (heap_defs doc).

(** [doc'] has the definitions of [doc], each with its name, aliases and
    id, and with the references it had at the front of its references. *)
Definition grows (doc doc' : BiDoc Position) : Prop :=
  same_registry doc doc'
  ∧ ∀ h d, heap_defs doc !! h = Some d →
      ∃ d', heap_defs doc' !! h = Some d' ∧ d_refs d `prefix_of` d_refs d'.

(** The linking references of a list: those that are not escaped. *)
Definition linking (rs : list Reference) : list Reference :=
  filter (fun ref => r_type ref ≠ escaped) rs.

(** The index of every reference is the zero-based ordinal of the last
    linking reference up to and including it (-1 when there is none). *)
Definition ordinal (rs : list Reference) : Prop :=
  ∀ k ref, rs !! k = Some ref →
    r_index ref = Z.of_nat (length (linking (take (S k) rs))) - 1.

Definition ordinals (doc : BiDoc Position) : Prop :=
  Forall (fun d => ordinal (d_refs d)) (heap_defs doc).

(** Every reference is stored in the definition it points to. *)
Definition back_pointers (doc : BiDoc Position) : Prop :=
  ∀ h d ref, heap_defs doc !! h = Some d → ref ∈ d_refs d → r_def ref = h.

End Invariants.

(** * Properties *)

(** ** The [Map] operations *)
Module MapFacts.
Section Facts.
Context {V : Type}.
Implicit Types (m : list (string * V)) (k : string) (v : V).

Lemma get_set_eq k v m : Map.get k (Map.set k v m) = Some v.
Proof.
  induction m as [|[k' v'] m IH]; simpl.
  - rewrite decide_True; done.
  - destruct (decide (k' = k)) as [->|Hne]; simpl.
    + rewrite decide_True; done.
    + rewrite decide_False; done.
Qed.

Lemma get_set_ne k k' v m : k ≠ k' → Map.get k' (Map.set k v m) = Map.get k' m.
Proof.
  intros Hne. induction m as [|[k0 v0] m IH]; simpl.
  - rewrite decide_False; done.
  - destruct (decide (k0 = k)) as [->|Hne0]; simpl.
    + rewrite !decide_False; done.
    + destruct (decide (k0 = k')); done.
Qed.

Lemma get_set k k' v m :
  Map.get k' (Map.set k v m) = if decide (k = k') then Some v else Map.get k' m.
Proof.
  destruct (decide (k = k')) as [->|Hne];
    [apply get_set_eq | by apply get_set_ne].
Qed.

Lemma has_true k m : Map.has k m = true ↔ is_Some (Map.get k m).
Proof.
  unfold Map.has. destruct (Map.get k m); split; intros H.
  - by eexists.
  - done.
  - done.
  - by destruct H.
Qed.

Lemma has_false k m : Map.has k m = false ↔ Map.get k m = None.
Proof. unfold Map.has. destruct (Map.get k m); split; done. Qed.

(** A key that is not in the map goes to the end: insertion order. *)
Lemma set_fresh k v m : Map.get k m = None → Map.set k v m = m ++ [(k, v)].
Proof.
  induction m as [|[k' v'] m IH]; simpl; [done|].
  destruct (decide (k' = k)); [done|]. intros H. by rewrite IH.
Qed.

(** Setting a list of keys to one value, as [alias.forEach] does. *)
Lemma get_set_all (l : list string) k v m :
  Map.get k (foldl (fun m a => Map.set a v m) m l)
  = if decide (k ∈ l) then Some v else Map.get k m.
Proof.
  revert m. induction l as [|a l IH]; intros m.
  - destruct (decide (k ∈ [])) as [Hin|_]; [|done].
    by apply elem_of_nil in Hin.
  - change (foldl (fun m a => Map.set a v m) m (a :: l))
      with (foldl (fun m a => Map.set a v m) (Map.set a v m) l).
    rewrite IH, get_set.
    destruct (decide (k ∈ l)) as [Hin|Hnin];
      destruct (decide (k ∈ a :: l)) as [Hin'|Hnin']; try done.
    + destruct Hnin'. by right.
    + apply elem_of_cons in Hin' as [->|Hin']; [|done].
      by rewrite decide_True.
    + rewrite decide_False; [done|]. intros ->. destruct Hnin'. by left.
Qed.
End Facts.
End MapFacts.

Section Properties.

Context {Position : Type} {parser : BiParser Position}.
Variable uslug : string → string.
Variable JSON_stringify : Options → string.

Abbreviation BiDoc := (BiDoc Position).
Abbreviation M := (M Position).
Abbreviation Fragment := (Fragment Position).

Implicit Types (doc : BiDoc) (d : Defn) (ref : Reference) (h : nat).

(** ** The monad *)

Lemma bind_ok {A B} (m : M A) (k : A → M B) doc a doc' :
  m doc = (Ok a, doc') → bind m k doc = k a doc'.
Proof. unfold bind. by intros ->. Qed.

Lemma bind_err {A B} (m : M A) (k : A → M B) doc e doc' :
  m doc = (Err e, doc') → bind m k doc = (Err e, doc').
Proof. unfold bind. by intros ->. Qed.

Lemma bind_unfold {A B} (m : M A) (k : A → M B) doc :
  bind m k doc
  = match m doc with
    | (Ok a, doc') => k a doc'
    | (Err e, doc') => (Err e, doc')
    end.
Proof. done. Qed.

(** One step of a computation applied to a state. *)
Ltac msimpl :=
  cbv beta iota;
  cbn [gets modify ret throw when alloc_def alloc_frag call_parser].
Ltac mstep := rewrite bind_unfold; msimpl.

Lemma call_parser_eq {A} (p : list Fragment → A * list Fragment) doc :
  call_parser p doc
  = (Ok (p (heap_frags doc)).1,
     set_heap_frags (fun _ => (p (heap_frags doc)).2) doc).
Proof. unfold call_parser. by destruct (p (heap_frags doc)). Qed.

Lemma forEach_app {A} (f : A → M unit) l1 l2 doc :
  forEach f (l1 ++ l2) doc
  = match forEach f l1 doc with
    | (Ok _, doc') => forEach f l2 doc'
    | (Err e, doc') => (Err e, doc')
    end.
Proof.
  revert doc. induction l1 as [|x l1 IH]; intros doc; simpl; [done|].
  unfold bind. destruct (f x doc) as [[[]|e] doc1]; [apply IH | done].
Qed.

(** A relation between the state before and the state after that holds
    across every step of a computation holds across the computation,
    whether it returns or throws. *)
Section Lifts.
Context (R : BiDoc → BiDoc → Prop) `{!PreOrder R}.

Definition lifts {A} (m : M A) : Prop := ∀ doc, R doc (m doc).2.

Lemma lifts_ret {A} (a : A) : lifts (ret a).
Proof. intros doc. simpl. reflexivity. Qed.

Lemma lifts_throw {A} e : lifts (throw (A:=A) e).
Proof. intros doc. simpl. reflexivity. Qed.

Lemma lifts_gets {A} (f : BiDoc → A) : lifts (gets f).
Proof. intros doc. simpl. reflexivity. Qed.

Lemma lifts_bind {A B} (m : M A) (k : A → M B) :
  lifts m → (∀ a, lifts (k a)) → lifts (bind m k).
Proof.
  intros Hm Hk doc. unfold bind. specialize (Hm doc).
  destruct (m doc) as [[a|e] doc1]; simpl in *; [|done].
  etransitivity; [exact Hm | apply Hk].
Qed.

Lemma lifts_when b (m : M unit) : lifts m → lifts (when b m).
Proof. destruct b; [done | intros _; apply lifts_ret]. Qed.

Lemma lifts_forEach {A} (f : A → M unit) l :
  (∀ x, lifts (f x)) → lifts (forEach f l).
Proof.
  intros Hf. induction l as [|x l IH]; simpl; [apply lifts_ret|].
  apply lifts_bind; [apply Hf | by intros _].
Qed.

Lemma lifts_forEach_in {A} (f : A → M unit) l :
  (∀ x, x ∈ l → lifts (f x)) → lifts (forEach f l).
Proof.
  induction l as [|x l IH]; intros Hf; simpl; [apply lifts_ret|].
  apply lifts_bind; [apply Hf; by left | intros _].
  apply IH. intros y Hy. apply Hf. by right.
Qed.

Lemma lifts_mapM {A B} (f : A → M B) l :
  (∀ x, lifts (f x)) → lifts (mapM f l).
Proof.
  intros Hf. induction l as [|x l IH]; simpl; [apply lifts_ret|].
  apply lifts_bind; [apply Hf | intros y].
  apply lifts_bind; [apply IH | intros ys; apply lifts_ret].
Qed.

Lemma lifts_deref_def h : lifts (deref_def h).
Proof.
  intros doc. unfold deref_def.
  destruct (heap_defs doc !! h); simpl; reflexivity.
Qed.

Lemma lifts_deref_frag h : lifts (deref_frag h).
Proof.
  intros doc. unfold deref_frag.
  destruct (heap_frags doc !! h); simpl; reflexivity.
Qed.

Lemma lifts_modify f : (∀ doc, R doc (f doc)) → lifts (modify f).
Proof. intros Hf doc. apply Hf. Qed.
End Lifts.

(** ** [collectDefinition], one definition at a time *)

Lemma check_aliases path (l : list string) doc :
  forEach (fun a =>
    bind (gets name2def) (fun n2d =>
      when (Map.has a n2d) (throw (duplicate_name a path)))) l doc
  = match find (fun a => Map.has a (name2def doc)) l with
    | Some a => (Err (duplicate_name a path), doc)
    | None => (Ok tt, doc)
    end.
Proof.
  induction l as [|a l IH]; simpl; [done|].
  unfold bind at 1 2, gets, when. simpl.
  destruct (Map.has a (name2def doc)); simpl; [done | apply IH].
Qed.

Lemma set_aliases h (l : list string) doc :
  forEach (fun a => modify (set_name2def (Map.set a h))) l doc
  = (Ok tt, set_name2def (fun m => foldl (fun m a => Map.set a h m) m l) doc).
Proof.
  revert doc. induction l as [|a l IH]; intros doc; simpl.
  - by destruct doc.
  - unfold bind, modify. rewrite IH. by destruct doc.
Qed.

(** The callback of [collectDefinition] either throws, the instance
    untouched, or registers the definition. *)
Lemma collectDefinition_each_eq path d0 doc :
  collectDefinition_each path d0 doc
  = let d := assign_id (defIdGenerator doc) d0 in
    if Map.has (d_name d) (name2def doc)
    then (Err (duplicate_name (d_name d) path), doc)
    else if bool_decide (is_Some (id2def doc !! d_id d))
    then (Err (duplicate_id (d_id d) path), doc)
    else match taken_alias doc d with
         | Some a => (Err (duplicate_name a path), doc)
         | None => (Ok (length (heap_defs doc)), register d doc)
         end.
Proof.
  unfold collectDefinition_each, taken_alias.
  mstep. set (d := assign_id (defIdGenerator doc) d0). cbv zeta.
  mstep. mstep.
  destruct (Map.has (d_name d) (name2def doc)); msimpl; [done|].
  mstep. mstep.
  destruct (bool_decide (is_Some (id2def doc !! d_id d))); msimpl; [done|].
  mstep. rewrite check_aliases.
  destruct (find _ (d_alias d)); [done|].
  do 4 mstep. rewrite set_aliases. unfold register.
  by destruct doc.
Qed.

Lemma mapM_app {A B} (f : A → M B) l1 l2 doc :
  mapM f (l1 ++ l2) doc
  = match mapM f l1 doc with
    | (Ok ys, doc1) =>
        match mapM f l2 doc1 with
        | (Ok zs, doc2) => (Ok (ys ++ zs), doc2)
        | (Err e, doc2) => (Err e, doc2)
        end
    | (Err e, doc1) => (Err e, doc1)
    end.
Proof.
  revert doc. induction l1 as [|x l1 IH]; intros doc; cbn [mapM app].
  - unfold ret. by destruct (mapM f l2 doc) as [[zs|e] doc2].
  - rewrite !bind_unfold.
    destruct (f x doc) as [[y|e] doc1]; cbv beta iota; [|done].
    rewrite !bind_unfold, IH.
    destruct (mapM f l1 doc1) as [[ys|e] doc2]; msimpl; [|done].
    by destruct (mapM f l2 doc2) as [[zs|e] doc3].
Qed.

Lemma find_is_Some {A} (p : A → bool) (l : list A) :
  is_Some (find p l) ↔ ∃ x, x ∈ l ∧ p x = true.
Proof.
  split.
  - intros [x Hx]. apply find_some in Hx as [Hin Hp].
    exists x. split; [by apply list_elem_of_In | done].
  - intros (x & Hin & Hp). destruct (find p l) eqn:Hf; [by eexists|].
    apply list_elem_of_In in Hin.
    pose proof (find_none p l Hf x Hin) as Hn. congruence.
Qed.

(** The error of a collision: the name first, then the id, then the first
    alias that is taken. *)
Lemma collides_true doc d :
  collides doc d = true ↔
    Map.has (d_name d) (name2def doc) = true
    ∨ is_Some (id2def doc !! d_id d)
    ∨ ∃ a, a ∈ d_alias d ∧ Map.has a (name2def doc) = true.
Proof.
  unfold collides, taken_alias.
  rewrite !orb_true_iff, !bool_decide_eq_true, find_is_Some. tauto.
Qed.

Lemma collides_false doc d :
  collides doc d = false ↔
    Map.has (d_name d) (name2def doc) = false
    ∧ id2def doc !! d_id d = None
    ∧ taken_alias doc d = None.
Proof.
  unfold collides.
  rewrite !orb_false_iff, !bool_decide_eq_false, <-!eq_None_not_Some. tauto.
Qed.

(** Registration keeps every key. *)
Lemma register_has d doc k :
  Map.has k (name2def doc) = true → Map.has k (name2def (register d doc)) = true.
Proof.
  rewrite !MapFacts.has_true. unfold register. simpl.
  rewrite MapFacts.get_set_all, MapFacts.get_set. intros Hk.
  destruct (decide (k ∈ d_alias d)); [by eexists|].
  destruct (decide (d_name d = k)); [by eexists | done].
Qed.

Lemma register_id d doc k :
  is_Some (id2def doc !! k) → is_Some (id2def (register d doc) !! k).
Proof.
  unfold register. simpl. intros Hk. rewrite lookup_insert.
  destruct (decide (d_id d = k)); [by eexists | done].
Qed.

Lemma register_collides d1 doc d :
  collides doc d = true → collides (register d1 doc) d = true.
Proof.
  rewrite !collides_true. intros [Hn|[Hi|(a & Hin & Ha)]].
  - left. by apply register_has.
  - right; left. by apply register_id.
  - right; right. exists a. split; [done | by apply register_has].
Qed.

Lemma collectDefinition_eq text path position doc :
  collectDefinition text path position doc
  = let pr := parseDefinition text path position (heap_frags doc) in
    let doc0 := set_heap_frags (fun _ => pr.2) doc in
    match mapM (collectDefinition_each path) (defs pr.1) doc0 with
    | (Ok hs, doc1) => (Ok (hs, defs_fragments pr.1), doc1)
    | (Err e, doc1) => (Err e, doc1)
    end.
Proof.
  unfold collectDefinition. mstep. unfold call_parser.
  destruct (parseDefinition text path position (heap_frags doc)) as [res frags].
  msimpl. mstep. simpl.
  by destruct (mapM _ _ _) as [[hs|e] doc1].
Qed.

Lemma collect_collision path d0 doc :
  let d := assign_id (defIdGenerator doc) d0 in
  collides doc d = true →
  ∃ key,
    (key ∈ names d
     ∧ collectDefinition_each path d0 doc = (Err (duplicate_name key path), doc))
    ∨ (key = d_id d
       ∧ collectDefinition_each path d0 doc = (Err (duplicate_id key path), doc)).
Proof.
  rewrite collectDefinition_each_eq. cbv zeta.
  set (d := assign_id (defIdGenerator doc) d0). intros Hc.
  destruct (Map.has (d_name d) (name2def doc)) eqn:Hn.
  { exists (d_name d). left. split; [by left | done]. }
  destruct (bool_decide (is_Some (id2def doc !! d_id d))) eqn:Hi.
  { exists (d_id d). by right. }
  destruct (taken_alias doc d) as [a|] eqn:Ha.
  { exists a. left. split; [|done]. unfold taken_alias in Ha.
    apply find_some in Ha as [Hin _]. right. by apply list_elem_of_In. }
  exfalso. unfold collides in Hc. rewrite Hn, Hi, Ha in Hc. done.
Qed.

Lemma collect_fresh path d0 doc :
  collides doc (assign_id (defIdGenerator doc) d0) = false →
  collectDefinition_each path d0 doc
  = (Ok (length (heap_defs doc)),
     register (assign_id (defIdGenerator doc) d0) doc).
Proof.
  rewrite collectDefinition_each_eq. cbv zeta.
  intros (Hn & Hi & Ha)%collides_false. rewrite Hn, Ha.
  rewrite bool_decide_eq_false_2; [done|]. rewrite Hi. by intros [? ?].
Qed.

(** A call throws a duplicate error as soon as one of the parsed
    definitions collides with the registry; the error carries a name, an
    alias or the id of one of the parsed definitions. *)
Lemma mapM_collect_throws path (l : list Defn) doc d0 :
  d0 ∈ l →
  collides doc (assign_id (defIdGenerator doc) d0) = true →
  ∃ d1 key doc',
    d1 ∈ l
    ∧ ((key ∈ names (assign_id (defIdGenerator doc) d1)
        ∧ mapM (collectDefinition_each path) l doc
          = (Err (duplicate_name key path), doc'))
       ∨ (key = d_id (assign_id (defIdGenerator doc) d1)
          ∧ mapM (collectDefinition_each path) l doc
            = (Err (duplicate_id key path), doc'))).
Proof.
  revert doc. induction l as [|x l IH]; intros doc Hin Hc.
  - by apply elem_of_nil in Hin.
  - cbn [mapM]. rewrite bind_unfold.
    destruct (collides doc (assign_id (defIdGenerator doc) x)) eqn:Hx.
    + destruct (collect_collision path x doc Hx) as [key [[Hk ->] | [Hk ->]]];
        exists x, key, doc; (split; [by left|]); [left | right]; done.
    + rewrite (collect_fresh path x doc Hx). cbv beta iota.
      apply elem_of_cons in Hin as [-> | Hin]; [congruence|].
      set (doc1 := register _ doc).
      destruct (IH doc1 Hin) as (d1 & key & doc' & Hd1 & Hr).
      { by apply register_collides. }
      rewrite bind_unfold. exists d1, key, doc'. split; [by right|].
      destruct Hr as [[Hk ->] | [Hk ->]]; [left | right]; done.
Qed.

(** [assign_id], field by field. *)
Lemma assign_id_eq gen d :
  assign_id gen d
  = {| d_name := d_name d; d_alias := d_alias d;
       d_id := if decide (d_id d = EmptyString) then gen (d_name d) else d_id d;
       d_fragment := d_fragment d; d_refs := d_refs d |}.
Proof.
  unfold assign_id, with_id.
  destruct d as [n a [|c i] f r]; cbn [d_id String.length Nat.eqb];
    by case_decide.
Qed.

Lemma register_lookups d doc :
  let h := length (heap_defs doc) in
  heap_defs (register d doc) !! h = Some d
  ∧ Map.get (d_name d) (name2def (register d doc)) = Some h
  ∧ id2def (register d doc) !! d_id d = Some h
  ∧ ∀ a, a ∈ d_alias d → Map.get a (name2def (register d doc)) = Some h.
Proof.
  unfold register. simpl. repeat split.
  - by rewrite lookup_app_r, Nat.sub_diag.
  - rewrite MapFacts.get_set_all, MapFacts.get_set_eq. by case_decide.
  - apply lookup_insert_eq.
  - intros a Ha. rewrite MapFacts.get_set_all. by rewrite decide_True.
Qed.

(** C2: [collectDefinition] throws a duplicate error whenever one of the
    parsed definitions has its name among the keys of [name2def], its
    assigned id (its own id, or [defIdGenerator] of its name when its own
    is empty) among the keys of [id2def] or one of its aliases among the
    keys of [name2def]; the message of the error spells the offending
    name or id and the path, and the instance is left as the definitions
    before left it.  A definition that is reached and does not collide is
    registered under its name, its id and every alias. *)
Theorem collectDefinition_duplicates text path position doc :
  let pr := parseDefinition text path position (heap_frags doc) in
  let doc0 := set_heap_frags (fun _ => pr.2) doc in
  let assigned (gen : DefIdGenerator) (d0 : Defn) : Defn :=
    {| d_name := d_name d0; d_alias := d_alias d0;
       d_id := if decide (d_id d0 = EmptyString)
               then gen (d_name d0) else d_id d0;
       d_fragment := d_fragment d0; d_refs := d_refs d0 |} in
  (∀ d0, d0 ∈ defs pr.1 →
     collides doc (assigned (defIdGenerator doc) d0) = true →
     ∃ d1 key,
       d1 ∈ defs pr.1
       ∧ ((key ∈ names (assigned (defIdGenerator doc) d1)
           ∧ (collectDefinition text path position doc).1
             = Err (Error ("Duplicate definition name: " +:+ key
                           +:+ " in file " +:+ path)))
          ∨ (key = d_id (assigned (defIdGenerator doc) d1)
             ∧ (collectDefinition text path position doc).1
               = Err (Error ("Duplicate definition id: " +:+ key
                             +:+ " in file " +:+ path)))))
  ∧ (∀ pre d0 post hs doc1,
       defs pr.1 = pre ++ d0 :: post →
       mapM (collectDefinition_each path) pre doc0 = (Ok hs, doc1) →
       let d := assigned (defIdGenerator doc1) d0 in
       let h := length (heap_defs doc1) in
       (Map.has (d_name d) (name2def doc1) = true →
          collectDefinition text path position doc
          = (Err (Error ("Duplicate definition name: " +:+ d_name d
                         +:+ " in file " +:+ path)), doc1))
       ∧ (Map.has (d_name d) (name2def doc1) = false →
          is_Some (id2def doc1 !! d_id d) →
          collectDefinition text path position doc
          = (Err (Error ("Duplicate definition id: " +:+ d_id d
                         +:+ " in file " +:+ path)), doc1))
       ∧ (∀ a, Map.has (d_name d) (name2def doc1) = false →
          id2def doc1 !! d_id d = None →
          taken_alias doc1 d = Some a →
          a ∈ d_alias d ∧ Map.has a (name2def doc1) = true
          ∧ collectDefinition text path position doc
            = (Err (Error ("Duplicate definition name: " +:+ a
                           +:+ " in file " +:+ path)), doc1))
       ∧ (collides doc1 d = false →
          collectDefinition_each path d0 doc1 = (Ok h, register d doc1)
          ∧ heap_defs (register d doc1) !! h = Some d
          ∧ Map.get (d_name d) (name2def (register d doc1)) = Some h
          ∧ id2def (register d doc1) !! d_id d = Some h
          ∧ ∀ a, a ∈ d_alias d →
              Map.get a (name2def (register d doc1)) = Some h)).
Proof.
  intros pr doc0 assigned.
  assert (Has : ∀ gen d0, assigned gen d0 = assign_id gen d0).
  { intros gen d0. by rewrite assign_id_eq. }
  split.
  - intros d0 Hin Hc. rewrite Has in Hc.
    rewrite collectDefinition_eq. cbv zeta. fold pr doc0.
    destruct (mapM_collect_throws path (defs pr.1) doc0 d0 Hin)
      as (d1 & key & doc' & Hd1 & Hr); [done|].
    exists d1, key. split; [done|]. rewrite Has.
    destruct Hr as [[Hk ->] | [Hk ->]]; [left | right]; done.
  - intros pre d0 post hs doc1 Hl Hpre d h.
    assert (Hcall : ∀ e,
      collectDefinition_each path d0 doc1 = (Err e, doc1) →
      collectDefinition text path position doc = (Err e, doc1)).
    { intros e He. rewrite collectDefinition_eq. cbv zeta. fold pr doc0.
      rewrite Hl, mapM_app, Hpre. cbn [mapM]. rewrite bind_unfold, He. done. }
    pose proof (collectDefinition_each_eq path d0 doc1) as Heq.
    cbv zeta in Heq. rewrite <-Has in Heq. fold d in Heq.
    split; [|split; [|split]].
    + intros Hn. apply Hcall. by rewrite Heq, Hn.
    + intros Hn Hi. apply Hcall. rewrite Heq, Hn.
      by rewrite bool_decide_eq_true_2.
    + intros a Hn Hi Ha. unfold taken_alias in Ha.
      pose proof (find_some _ _ Ha) as [Hin Hhas].
      split; [by apply list_elem_of_In|]. split; [done|].
      apply Hcall. rewrite Heq, Hn. unfold taken_alias. rewrite Ha.
      rewrite bool_decide_eq_false_2; [done|]. rewrite Hi. by intros [? ?].
    + intros Hc. split; [|apply register_lookups].
      unfold d. rewrite Has. apply collect_fresh. by rewrite <-Has.
Qed.

(** ** The registry invariant *)

Lemma register_get_old d doc k :
  collides doc d = false →
  is_Some (Map.get k (name2def doc)) →
  Map.get k (name2def (register d doc)) = Map.get k (name2def doc).
Proof.
  intros (Hn & _ & Ha)%collides_false Hk. unfold register. simpl.
  rewrite MapFacts.get_set_all, MapFacts.get_set.
  apply MapFacts.has_true in Hk.
  destruct (decide (k ∈ d_alias d)) as [Hin|_].
  - unfold taken_alias in Ha. apply list_elem_of_In in Hin.
    pose proof (find_none _ _ Ha k Hin) as Hk'. simpl in Hk'. congruence.
  - destruct (decide (d_name d = k)) as [<-|_]; [congruence | done].
Qed.

Lemma register_id_old d doc k :
  collides doc d = false →
  is_Some (id2def doc !! k) →
  id2def (register d doc) !! k = id2def doc !! k.
Proof.
  intros (_ & Hi & _)%collides_false Hk. unfold register. simpl.
  rewrite lookup_insert. destruct (decide (d_id d = k)) as [<-|_]; [|done].
  rewrite Hi in Hk. by destruct Hk.
Qed.

Lemma register_ok d doc :
  registry_ok doc → collides doc d = false → registry_ok (register d doc).
Proof.
  intros Hok Hc h d' Hlk.
  destruct (decide (h < length (heap_defs doc))%nat) as [Hlt|Hge].
  - assert (Hold : heap_defs doc !! h = Some d').
    { unfold register in Hlk. simpl in Hlk. by rewrite lookup_app_l in Hlk. }
    destruct (Hok h d' Hold) as (Hn & Hi & Ha). repeat split.
    + rewrite register_get_old; [done.. | by rewrite Hn].
    + rewrite register_id_old; [done.. | by rewrite Hi].
    + intros a Hin. rewrite register_get_old; [by apply Ha | done |].
      by rewrite (Ha a Hin).
  - assert (h = length (heap_defs doc) ∧ d' = d) as [-> ->].
    { unfold register in Hlk. simpl in Hlk.
      apply lookup_app_Some in Hlk as [Hl | [Hlen Hl]].
      - apply lookup_lt_Some in Hl. lia.
      - apply list_lookup_singleton_Some in Hl as [Hz ->]. split; [lia | done]. }
    apply register_lookups.
Qed.

Lemma same_registry_ok doc doc' :
  same_registry doc doc' → registry_ok doc → registry_ok doc'.
Proof.
  intros (Hn & Hi & _ & _ & Hk) Hok h d' Hlk.
  assert (∃ d, heap_defs doc !! h = Some d ∧ keys d = keys d') as (d & Hd & Hkd).
  { assert ((keys <$> heap_defs doc) !! h = Some (keys d')) as Hl.
    { rewrite Hk, list_lookup_fmap, Hlk. done. }
    rewrite list_lookup_fmap in Hl.
    destruct (heap_defs doc !! h) as [d|]; [|done].
    exists d. split; [done|]. simpl in Hl. congruence. }
  unfold keys in Hkd. injection Hkd as Hkn Hka Hki.
  rewrite <-Hn, <-Hi, <-Hkn, <-Hka, <-Hki. by apply Hok.
Qed.

Global Instance same_registry_preorder : PreOrder (@same_registry Position).
Proof.
  split.
  - by intros doc.
  - intros doc1 doc2 doc3 (?&?&?&?&?) (?&?&?&?&?).
    repeat split; congruence.
Qed.

Global Instance keeps_ok_preorder : PreOrder (@keeps_ok Position).
Proof.
  split; [intros doc H; exact H | intros doc1 doc2 doc3 H12 H23 H1].
  by apply H23, H12.
Qed.

Lemma lifts_weaken (R R' : BiDoc → BiDoc → Prop) {A} (m : M A) :
  (∀ doc doc', R doc doc' → R' doc doc') → lifts R m → lifts R' m.
Proof. intros HR Hm doc. apply HR, Hm. Qed.

(** Rendering keeps the registry. *)
Lemma push_same h ref : lifts same_registry (push h ref).
Proof.
  apply lifts_modify. intros doc. repeat split. simpl.
  rewrite (list_fmap_alter keys (push_ref ref) id).
  - by rewrite list_alter_id.
  - apply Forall_forall. by intros d _.
Qed.

Lemma set_content_same h text : lifts same_registry (set_content h text).
Proof.
  apply lifts_bind; [tc_solve | apply lifts_deref_frag; tc_solve |].
  intros f. apply lifts_modify. by intros doc.
Qed.

Lemma call_parser_same {A} (p : list Fragment → A * list Fragment) :
  lifts same_registry (call_parser p).
Proof.
  intros doc. unfold call_parser. by destruct (p (heap_frags doc)).
Qed.

Lemma alloc_frag_same f : lifts same_registry (alloc_frag f).
Proof. by intros doc. Qed.

Lemma id2def_name_same key : lifts same_registry (id2def_name key).
Proof.
  apply lifts_bind; [tc_solve | apply lifts_gets; tc_solve |].
  intros i2d. destruct (i2d !! key).
  - apply lifts_bind; [tc_solve | apply lifts_deref_def; tc_solve |].
    intros d. apply lifts_ret; tc_solve.
  - apply lifts_throw; tc_solve.
Qed.

(** Building blocks of the computations that keep the registry. *)
Ltac same_registry :=
  repeat first
    [ apply push_same | apply set_content_same | apply call_parser_same
    | apply alloc_frag_same | apply id2def_name_same
    | apply lifts_ret; tc_solve | apply lifts_throw; tc_solve
    | apply lifts_gets; tc_solve | apply lifts_deref_def; tc_solve
    | apply lifts_deref_frag; tc_solve
    | apply lifts_forEach; [tc_solve | intros ?]
    | apply lifts_mapM; [tc_solve | intros ?]
    | apply lifts_bind; [tc_solve | | intros ?]
    | case_decide ].

Lemma renderDefinition_same path fragments renderer :
  lifts same_registry (renderDefinition path fragments renderer).
Proof. unfold renderDefinition, renderDefinition_each. same_registry. Qed.

Lemma renderExplicitOrEscapedReference_each_same path renderer r :
  lifts same_registry (renderExplicitOrEscapedReference_each path renderer r).
Proof. unfold renderExplicitOrEscapedReference_each. same_registry. Qed.

Lemma renderExplicitOrEscapedReference_same path fragments renderer :
  lifts same_registry (renderExplicitOrEscapedReference path fragments renderer).
Proof.
  unfold renderExplicitOrEscapedReference. same_registry.
Qed.

Lemma renderImplicitReference_same path fragments def name renderer :
  lifts same_registry (renderImplicitReference path fragments def name renderer).
Proof.
  unfold renderImplicitReference, renderImplicitReference_each. same_registry.
Qed.

Lemma renderImplicitReferences_same path renderer entries fragments :
  lifts same_registry (renderImplicitReferences path renderer entries fragments).
Proof.
  revert fragments. induction entries as [|[content def] entries IH];
    intros fragments; cbn [renderImplicitReferences].
  - same_registry.
  - apply lifts_bind; [tc_solve | apply renderImplicitReference_same | done].
Qed.

Lemma renderText_same path s position defRenderer refRenderer :
  lifts same_registry (renderText path s position defRenderer refRenderer).
Proof.
  unfold renderText, contents.
  apply lifts_bind; [tc_solve | apply alloc_frag_same | intros f0].
  apply lifts_bind; [tc_solve | apply renderDefinition_same | intros fr1].
  apply lifts_bind;
    [tc_solve | apply renderExplicitOrEscapedReference_same | intros fr2].
  apply lifts_bind; [tc_solve | apply lifts_gets; tc_solve | intros entries].
  apply lifts_bind;
    [tc_solve | apply renderImplicitReferences_same | intros fr3].
  same_registry.
Qed.

(** Collecting keeps the invariant, whether the call returns or throws. *)
Lemma collectDefinition_each_keeps_ok path d0 :
  lifts keeps_ok (collectDefinition_each path d0).
Proof.
  intros doc Hok. rewrite collectDefinition_each_eq. cbv zeta.
  set (d := assign_id (defIdGenerator doc) d0).
  destruct (Map.has (d_name d) (name2def doc)) eqn:Hn; [done|].
  destruct (bool_decide (is_Some (id2def doc !! d_id d))) eqn:Hi; [done|].
  destruct (taken_alias doc d) eqn:Ha; [done|]. simpl.
  apply register_ok; [done|]. unfold collides. by rewrite Hn, Hi, Ha.
Qed.

Lemma collectDefinition_keeps_ok text path position :
  lifts keeps_ok (collectDefinition text path position).
Proof.
  unfold collectDefinition.
  apply lifts_bind; [tc_solve | | intros res].
  - apply (lifts_weaken same_registry);
      [intros d1 d2 Hs Hok; exact (same_registry_ok d1 d2 Hs Hok)
      | apply call_parser_same].
  - apply lifts_bind; [tc_solve | | intros hs; apply lifts_ret; tc_solve].
    apply lifts_mapM; [tc_solve|]. apply collectDefinition_each_keeps_ok.
Qed.

Lemma new_BiDoc_ok options : registry_ok (new_BiDoc (Position:=Position) uslug options).
Proof. intros h d Hlk. simpl in Hlk. by rewrite lookup_nil in Hlk. Qed.

Lemma collected_ok doc : collected uslug doc → registry_ok doc.
Proof.
  induction 1 as [options | doc text path position res doc' _ IH Hcall].
  - apply new_BiDoc_ok.
  - pose proof (collectDefinition_keeps_ok text path position doc IH) as Hk.
    by rewrite Hcall in Hk.
Qed.

Lemma reachable_ok options doc : reachable uslug options doc → registry_ok doc.
Proof.
  induction 1 as [ | doc text path position _ IH
                 | doc path s position defRenderer refRenderer _ IH].
  - apply new_BiDoc_ok.
  - by apply collectDefinition_keeps_ok.
  - eapply same_registry_ok; [apply renderText_same | done].
Qed.

Lemma registry_ok_names doc h d k :
  registry_ok doc → heap_defs doc !! h = Some d → k ∈ names d →
  Map.get k (name2def doc) = Some h.
Proof.
  intros Hok Hd Hk. destruct (Hok h d Hd) as (Hn & _ & Ha).
  unfold names in Hk. apply elem_of_cons in Hk as [-> | Hk]; [done | by apply Ha].
Qed.

(** C3, as the code has it: after any sequence of [collectDefinition]
    calls that all return, the ids of the registered definitions are
    pairwise distinct, and no name or alias of a registered definition is
    a name or alias of another registered definition.  (Within one
    definition an alias may repeat the name or another alias.) *)
Theorem collected_distinct doc :
  collected uslug doc →
  NoDup (registered_ids doc)
  ∧ ∀ h1 h2 d1 d2 k,
      heap_defs doc !! h1 = Some d1 → heap_defs doc !! h2 = Some d2 →
      h1 ≠ h2 → k ∈ names d1 → k ∉ names d2.
Proof.
  intros Hok%collected_ok. split.
  - apply NoDup_alt. intros i j x Hi Hj. unfold registered_ids in *.
    apply list_lookup_fmap_Some in Hi as (di & -> & Hi).
    apply list_lookup_fmap_Some in Hj as (dj & Heq & Hj).
    destruct (Hok i di Hi) as (_ & Hidi & _).
    destruct (Hok j dj Hj) as (_ & Hidj & _).
    rewrite Heq in Hidi. congruence.
  - intros h1 h2 d1 d2 k H1 H2 Hne Hk1 Hk2.
    pose proof (registry_ok_names doc h1 d1 k Hok H1 Hk1).
    pose proof (registry_ok_names doc h2 d2 k Hok H2 Hk2).
    congruence.
Qed.

(** ** [getReverseRefs] *)

Lemma getReverseRefs_found options doc h d :
  lookup_options options doc = Some h → heap_defs doc !! h = Some d →
  getReverseRefs JSON_stringify options doc = mapM reverseRef (d_refs d) doc.
Proof.
  intros Hl Hd. unfold getReverseRefs. mstep. rewrite Hl.
  mstep. unfold deref_def. by rewrite Hd.
Qed.

Lemma reverseRef_eq ref doc :
  reverseRef ref doc
  = match heap_defs doc !! r_def ref with
    | Some target =>
        (Ok (r_path ref +:+ "#" +:+ refIdGenerator doc target ref), doc)
    | None => (Err TypeError, doc)
    end.
Proof.
  unfold reverseRef. mstep. mstep. unfold deref_def.
  by destruct (heap_defs doc !! r_def ref).
Qed.



(** C7: for every registered definition, [getReverseRefs] by its id and
    [getReverseRefs] by its name, or by any of its aliases, give the same
    result: the anchors of the references of that definition. *)
Theorem getReverseRefs_id_name options doc h d :
  reachable uslug options doc →
  heap_defs doc !! h = Some d →
  getReverseRefs JSON_stringify (ById (d_id d)) doc
  = getReverseRefs JSON_stringify (ByName (d_name d)) doc
  ∧ (∀ a, a ∈ d_alias d →
       getReverseRefs JSON_stringify (ByName a) doc
       = getReverseRefs JSON_stringify (ById (d_id d)) doc)
  ∧ getReverseRefs JSON_stringify (ById (d_id d)) doc
    = mapM reverseRef (d_refs d) doc.
Proof.
  intros Hok%reachable_ok Hd. destruct (Hok h d Hd) as (Hn & Hi & Ha).
  assert (Hid : getReverseRefs JSON_stringify (ById (d_id d)) doc
                = mapM reverseRef (d_refs d) doc).
  { by apply (getReverseRefs_found _ doc h d). }
  split; [|split; [|done]].
  - rewrite Hid. symmetry. by apply (getReverseRefs_found _ doc h d).
  - intros a Hin. rewrite Hid. apply (getReverseRefs_found _ doc h d); [|done].
    simpl. by apply Ha.
Qed.

(** ** One reference at a time *)

Lemma id2def_name_eq key doc :
  id2def_name key doc
  = match id2def doc !! key ≫= (fun h => heap_defs doc !! h) with
    | Some d => (Ok (d_name d), doc)
    | None => (Err TypeError, doc)
    end.
Proof.
  unfold id2def_name. mstep. destruct (id2def doc !! key) as [h|]; [|done].
  simpl. mstep. unfold deref_def. by destruct (heap_defs doc !! h).
Qed.

Lemma recorded_defs h ref fh f text doc :
  heap_defs (recorded h ref fh f text doc) = alter (push_ref ref) h (heap_defs doc).
Proof. done. Qed.

Lemma recorded_frags h ref fh f text doc :
  heap_frags (recorded h ref fh f text doc)
  = <[fh := with_content f text]> (heap_frags doc).
Proof. done. Qed.

Lemma recorded_target h ref fh f text doc d :
  heap_defs doc !! h = Some d →
  heap_defs (recorded h ref fh f text doc) !! h = Some (push_ref ref d).
Proof.
  intros Hd. rewrite recorded_defs, list_lookup_alter_eq. by rewrite Hd.
Qed.

Lemma set_content_eq h text doc f :
  heap_frags doc !! h = Some f →
  set_content h text doc
  = (Ok tt, set_heap_frags (fun hp => <[h := with_content f text]> hp) doc).
Proof.
  intros Hf. unfold set_content. mstep. unfold deref_frag. by rewrite Hf.
Qed.

(** The callback of [renderExplicitOrEscapedReference] on a marker whose
    target, fragment and name resolve. *)
Lemma marker_step path renderer r doc d f name :
  heap_defs doc !! pr_def r = Some d →
  heap_frags doc !! pr_fragment r = Some f →
  marker_name doc r f = Some name →
  let ref := marker_reference path r d name in
  renderExplicitOrEscapedReference_each path renderer r doc
  = (Ok tt,
     recorded (pr_def r) ref (pr_fragment r) f
       (if decide (pr_type r = explicit)
        then renderer (push_ref ref d) ref else name) doc).
Proof.
  intros Hd Hf Hname ref. unfold renderExplicitOrEscapedReference_each.
  mstep. unfold deref_def at 1. rewrite Hd. msimpl.
  mstep. unfold deref_frag at 1. rewrite Hf. msimpl.
  assert (Hn : (if decide (pr_type r = escaped)
                then ret (slice 3 (-2) (content f))
                else id2def_name (slice 3 (-2) (content f))) doc
               = (Ok name, doc)).
  { unfold marker_name in Hname. destruct (decide (pr_type r = escaped)).
    - by injection Hname as ->.
    - rewrite id2def_name_eq.
      destruct (id2def doc !! slice 3 (-2) (content f)) as [h|]; [|done].
      simpl in *. destruct (heap_defs doc !! h) as [d'|]; [|done].
      simpl in *. by injection Hname as ->. }
  mstep. rewrite Hn. msimpl. mstep. unfold push. msimpl.
  fold (marker_reference path r d name). fold ref.
  destruct (decide (pr_type r = explicit)).
  - mstep. unfold deref_def. simpl. rewrite list_lookup_alter_eq, Hd. simpl.
    by rewrite (set_content_eq _ _ _ f).
  - by rewrite (set_content_eq _ _ _ f).
Qed.

(** The callback of [renderImplicitReference] on a fragment. *)
Lemma implicit_step path def renderer r doc d f :
  heap_defs doc !! def = Some d →
  heap_frags doc !! r = Some f →
  let ref := implicit_reference path def r d f in
  renderImplicitReference_each path def renderer r doc
  = (Ok tt, recorded def ref r f (renderer (push_ref ref d) ref) doc).
Proof.
  intros Hd Hf ref. unfold renderImplicitReference_each.
  mstep. unfold deref_def at 1. rewrite Hd. msimpl.
  mstep. unfold deref_frag at 1. rewrite Hf. msimpl.
  fold (implicit_reference path def r d f). fold ref.
  mstep. unfold push. msimpl.
  mstep. unfold deref_def. simpl. rewrite list_lookup_alter_eq, Hd. simpl.
  by rewrite (set_content_eq _ _ _ f).
Qed.

Lemma lastIndex_push ref d : lastIndex (d_refs (push_ref ref d)) = r_index ref.
Proof. unfold lastIndex, push_ref. simpl. by rewrite last_snoc. Qed.

(** One marker: an explicit reference gets the index of the last
    reference recorded in the target plus one, an escaped reference gets
    the index of the last recorded reference; both are appended to the
    references of the target, so that an explicit reference processed
    after an escaped one gets the index before the escaped one plus
    one. *)
Lemma explicit_escaped_step path renderer r doc d f name :
  heap_defs doc !! pr_def r = Some d →
  heap_frags doc !! pr_fragment r = Some f →
  marker_name doc r f = Some name →
  ∃ ref doc',
    renderExplicitOrEscapedReference_each path renderer r doc = (Ok tt, doc')
    ∧ heap_defs doc' = alter (push_ref ref) (pr_def r) (heap_defs doc)
    ∧ heap_defs doc' !! pr_def r = Some (push_ref ref d)
    ∧ d_refs (push_ref ref d) = d_refs d ++ [ref]
    ∧ r_type ref = pr_type r
    ∧ (pr_type r = explicit → r_index ref = lastIndex (d_refs d) + 1)
    ∧ (pr_type r = escaped → r_index ref = lastIndex (d_refs d))
    ∧ (pr_type r = escaped →
       ∀ path2 renderer2 r2 f2 name2,
         pr_def r2 = pr_def r → pr_type r2 = explicit →
         heap_frags doc' !! pr_fragment r2 = Some f2 →
         marker_name doc' r2 f2 = Some name2 →
         ∃ ref2 doc'',
           renderExplicitOrEscapedReference_each path2 renderer2 r2 doc'
           = (Ok tt, doc'')
           ∧ heap_defs doc'' !! pr_def r
             = Some (push_ref ref2 (push_ref ref d))
           ∧ r_index ref2 = lastIndex (d_refs d) + 1).
Proof.
  intros Hd Hf Hname.
  set (ref := marker_reference path r d name).
  eexists ref, _. split; [by apply marker_step|].
  split; [apply recorded_defs|]. split; [by apply recorded_target|].
  split; [done|]. split; [done|].
  split; [intros Ht; simpl; rewrite Ht; by rewrite decide_False|].
  split; [intros Ht; simpl; by rewrite decide_True|].
  intros Ht path2 renderer2 r2 f2 name2 Hsame Ht2 Hf2 Hname2.
  set (doc' := recorded _ _ _ _ _ doc) in *.
  assert (Hd' : heap_defs doc' !! pr_def r2 = Some (push_ref ref d)).
  { rewrite Hsame. by apply recorded_target. }
  eexists (marker_reference path2 r2 (push_ref ref d) name2), _.
  split; [by apply marker_step|].
  split; [rewrite <-Hsame; by apply recorded_target|].
  cbn [marker_reference r_index]. rewrite Ht2, decide_False by done.
  rewrite lastIndex_push. subst ref. cbn [marker_reference r_index].
  by rewrite decide_True.
Qed.

(** One occurrence: the fragment gets the index of the last reference
    recorded in the definition plus one and is appended to its
    references; with no reference recorded the first occurrence gets
    index 0 and a second occurrence index 1. *)
Lemma implicit_step_index path def renderer r doc d f :
  heap_defs doc !! def = Some d →
  heap_frags doc !! r = Some f →
  ∃ ref doc',
    renderImplicitReference_each path def renderer r doc = (Ok tt, doc')
    ∧ heap_defs doc' = alter (push_ref ref) def (heap_defs doc)
    ∧ heap_defs doc' !! def = Some (push_ref ref d)
    ∧ d_refs (push_ref ref d) = d_refs d ++ [ref]
    ∧ r_type ref = implicit
    ∧ r_index ref = lastIndex (d_refs d) + 1
    ∧ (d_refs d = [] →
       r_index ref = 0
       ∧ ∀ path2 renderer2 r2 f2,
           heap_frags doc' !! r2 = Some f2 →
           ∃ ref2 doc'',
             renderImplicitReference_each path2 def renderer2 r2 doc'
             = (Ok tt, doc'')
             ∧ heap_defs doc'' !! def = Some (push_ref ref2 (push_ref ref d))
             ∧ d_refs (push_ref ref2 (push_ref ref d)) = [ref; ref2]
             ∧ r_index ref2 = 1).
Proof.
  intros Hd Hf.
  set (ref := implicit_reference path def r d f).
  eexists ref, _. split; [by apply implicit_step|].
  split; [apply recorded_defs|]. split; [by apply recorded_target|].
  do 3 (split; [done|]).
  intros Hnil. split; [simpl; by rewrite Hnil|].
  intros path2 renderer2 r2 f2 Hf2.
  set (doc' := recorded _ _ _ _ _ doc) in *.
  assert (Hd' : heap_defs doc' !! def = Some (push_ref ref d)).
  { by apply recorded_target. }
  eexists (implicit_reference path2 def r2 (push_ref ref d) f2), _.
  split; [by apply implicit_step|].
  split; [by apply recorded_target|].
  split; [simpl; by rewrite Hnil|].
  cbn [implicit_reference r_index]. rewrite lastIndex_push. subst ref.
  cbn [implicit_reference r_index]. by rewrite Hnil.
Qed.

(** C10: an escaped reference to a definition with no reference
    recorded gets index -1, its anchor under the default generator is the
    id of the definition followed by [-ref-0], and the next implicit or
    explicit reference to the definition gets index 0. *)
Theorem escaped_first_index path renderer r doc d f :
  heap_defs doc !! pr_def r = Some d →
  d_refs d = [] →
  heap_frags doc !! pr_fragment r = Some f →
  pr_type r = escaped →
  ∃ ref doc',
    renderExplicitOrEscapedReference_each path renderer r doc = (Ok tt, doc')
    ∧ heap_defs doc' !! pr_def r = Some (push_ref ref d)
    ∧ d_refs (push_ref ref d) = [ref]
    ∧ r_type ref = escaped
    ∧ r_index ref = -1
    ∧ default_refIdGenerator (push_ref ref d) ref = d_id d +:+ "-ref-0"
    ∧ (∀ path2 renderer2 r2 f2,
         heap_frags doc' !! r2 = Some f2 →
         ∃ ref2 doc'',
           renderImplicitReference_each path2 (pr_def r) renderer2 r2 doc'
           = (Ok tt, doc'')
           ∧ heap_defs doc'' !! pr_def r = Some (push_ref ref2 (push_ref ref d))
           ∧ r_index ref2 = 0)
    ∧ (∀ path2 renderer2 r2 f2 name2,
         pr_def r2 = pr_def r → pr_type r2 = explicit →
         heap_frags doc' !! pr_fragment r2 = Some f2 →
         marker_name doc' r2 f2 = Some name2 →
         ∃ ref2 doc'',
           renderExplicitOrEscapedReference_each path2 renderer2 r2 doc'
           = (Ok tt, doc'')
           ∧ heap_defs doc'' !! pr_def r = Some (push_ref ref2 (push_ref ref d))
           ∧ r_index ref2 = 0).
Proof.
  intros Hd Hnil Hf Ht.
  assert (Hname : marker_name doc r f = Some (slice 3 (-2) (content f))).
  { unfold marker_name. by rewrite decide_True. }
  set (ref := marker_reference path r d (slice 3 (-2) (content f))).
  assert (Hidx : r_index ref = -1).
  { subst ref. cbn [marker_reference r_index].
    rewrite decide_True by done. by rewrite Hnil. }
  eexists ref, _. split; [by apply marker_step|].
  set (doc' := recorded _ _ _ _ _ doc).
  assert (Hd' : heap_defs doc' !! pr_def r = Some (push_ref ref d)).
  { by apply recorded_target. }
  split; [done|]. split; [simpl; by rewrite Hnil|].
  split; [done|]. split; [done|].
  split; [unfold default_refIdGenerator; by rewrite Hidx|].
  split.
  - intros path2 renderer2 r2 f2 Hf2.
    eexists (implicit_reference path2 (pr_def r) r2 (push_ref ref d) f2), _.
    split; [by apply implicit_step|]. split; [by apply recorded_target|].
    cbn [implicit_reference r_index]. rewrite lastIndex_push, Hidx. done.
  - intros path2 renderer2 r2 f2 name2 Hsame Ht2 Hf2 Hname2.
    rewrite <-Hsame in Hd'.
    eexists (marker_reference path2 r2 (push_ref ref d) name2), _.
    split; [by apply marker_step|].
    split; [rewrite <-Hsame; by apply recorded_target|].
    cbn [marker_reference r_index]. rewrite Ht2, decide_False by done.
    rewrite lastIndex_push, Hidx. done.
Qed.

(** ** A dangling explicit marker *)

Global Instance same_fragment_preorder h : PreOrder (@same_fragment Position h).
Proof.
  split; [by intros doc | intros doc1 doc2 doc3 H12 H23].
  unfold same_fragment in *. congruence.
Qed.

Lemma set_content_frame h h' text :
  h' ≠ h → lifts (same_fragment h) (set_content h' text).
Proof.
  intros Hne. apply lifts_bind; [tc_solve | apply lifts_deref_frag; tc_solve|].
  intros f. apply lifts_modify. intros doc. unfold same_fragment. simpl.
  by apply list_lookup_insert_ne.
Qed.

Lemma each_frame path renderer r h :
  pr_fragment r ≠ h →
  lifts (same_fragment h) (renderExplicitOrEscapedReference_each path renderer r).
Proof.
  intros Hne. unfold renderExplicitOrEscapedReference_each, id2def_name, push.
  repeat first
    [ apply set_content_frame; done
    | apply lifts_modify; by intros ?
    | apply lifts_ret; tc_solve | apply lifts_throw; tc_solve
    | apply lifts_gets; tc_solve | apply lifts_deref_def; tc_solve
    | apply lifts_deref_frag; tc_solve
    | apply lifts_bind; [tc_solve | | intros ?]
    | case_decide | case_match ].
Qed.

Lemma explicit_dangling path renderer r doc :
  pr_type r = explicit →
  (∀ f, heap_frags doc !! pr_fragment r = Some f →
        id2def doc !! slice 3 (-2) (content f) = None) →
  renderExplicitOrEscapedReference_each path renderer r doc = (Err TypeError, doc).
Proof.
  intros Ht Hid. unfold renderExplicitOrEscapedReference_each.
  mstep. unfold deref_def at 1.
  destruct (heap_defs doc !! pr_def r) as [d|]; [|done]. msimpl.
  mstep. unfold deref_frag at 1.
  destruct (heap_frags doc !! pr_fragment r) as [f|] eqn:Hf; [|done]. msimpl.
  mstep. rewrite Ht, decide_False by done.
  rewrite id2def_name_eq, (Hid f) by done. done.
Qed.

(** C8: when the parser returns an explicit marker whose identifier, the
    content of its fragment without the first three and the last two
    characters, is not a key of [id2def], the rendering of explicit and
    escaped references throws, and the fragment of the marker is not
    rewritten. *)
Theorem dangling_explicit_throws path fragments renderer doc :
  let pr := parseExplicitOrEscapedReference fragments path (name2def doc)
              (id2def doc) (heap_defs doc) (heap_frags doc) in
  ∀ pre r post f,
    refs pr.1 = pre ++ r :: post →
    pr_type r = explicit →
    pr_fragment r ∉ pr_fragment <$> pre →
    pr.2 !! pr_fragment r = Some f →
    id2def doc !! slice 3 (-2) (content f) = None →
    ∃ e doc',
      renderExplicitOrEscapedReference path fragments renderer doc = (Err e, doc')
      ∧ heap_frags doc' !! pr_fragment r = Some f.
Proof.
  intros pr pre r post f Hrefs Ht Hfresh Hf Hid.
  unfold renderExplicitOrEscapedReference. do 4 mstep. unfold call_parser.
  fold pr. destruct pr as [res frags] eqn:Hpr. simpl in Hrefs, Hf. msimpl.
  set (doc0 := set_heap_frags (fun _ => frags) doc).
  mstep. rewrite Hrefs, forEach_app.
  pose proof (lifts_forEach_in (same_fragment (pr_fragment r))
    (renderExplicitOrEscapedReference_each path renderer) pre) as Hframe.
  pose proof (lifts_forEach same_registry
    (renderExplicitOrEscapedReference_each path renderer) pre
    (renderExplicitOrEscapedReference_each_same path renderer) doc0) as Hsame.
  specialize (Hframe (fun x Hx => each_frame path renderer x (pr_fragment r)
    (fun Heq => Hfresh (proj2 (list_elem_of_fmap _ _ _) (ex_intro _ x (conj (eq_sym Heq) Hx))))) doc0).
  destruct (forEach _ pre doc0) as [[[]|e] doc1]; simpl in Hframe, Hsame.
  - cbn [forEach]. rewrite bind_unfold.
    rewrite explicit_dangling; [| done |].
    + msimpl. exists TypeError, doc1. split; [done|].
      unfold same_fragment in Hframe. by rewrite Hframe.
    + intros f' Hf'. unfold same_fragment in Hframe. rewrite Hframe in Hf'.
      simpl in Hf'. rewrite Hf in Hf'. injection Hf' as <-.
      destruct Hsame as (_ & <- & _). done.
  - msimpl. exists e, doc1. split; [done|].
    unfold same_fragment in Hframe. by rewrite Hframe.
Qed.

(** ** All the markers of a document *)

Lemma recorded_lookup h ref fh f text doc h' :
  heap_defs (recorded h ref fh f text doc) !! h'
  = (if decide (h = h') then push_ref ref else id) <$> heap_defs doc !! h'.
Proof.
  rewrite recorded_defs, list_lookup_alter.
  destruct (decide (h = h')) as [->|_]; [done|].
  by destruct (heap_defs doc !! h').
Qed.

Lemma recorded_marker_name h ref fh f text doc r' f' :
  marker_name (recorded h ref fh f text doc) r' f' = marker_name doc r' f'.
Proof.
  unfold marker_name. destruct (decide (pr_type r' = escaped)); [done|].
  change (id2def (recorded h ref fh f text doc)) with (id2def doc).
  destruct (id2def doc !! slice 3 (-2) (content f')) as [h'|]; [|done].
  simpl. rewrite list_lookup_alter.
  destruct (decide (h = h')) as [->|_]; [|done].
  by destruct (heap_defs doc !! h') as [d'|].
Qed.

Lemma recorded_resolves h ref fh f text doc r' :
  pr_fragment r' ≠ fh → resolves doc r' → resolves (recorded h ref fh f text doc) r'.
Proof.
  intros Hne (Hd & f' & Hf' & Hn). split.
  - rewrite recorded_lookup. by apply fmap_is_Some.
  - exists f'. split.
    + rewrite recorded_frags. by rewrite list_lookup_insert_ne.
    + by rewrite recorded_marker_name.
Qed.

Lemma add_refs_nil d : add_refs d [] = d.
Proof. destruct d. unfold add_refs. simpl. by rewrite app_nil_r. Qed.

Lemma add_refs_push d ref news :
  add_refs (push_ref ref d) news = add_refs d (ref :: news).
Proof. unfold add_refs, push_ref. simpl. by rewrite <-app_assoc. Qed.

Lemma index_rule_cons old ref news :
  r_index ref = (if decide (r_type ref = escaped)
                 then lastIndex old else lastIndex old + 1) →
  index_rule (old ++ [ref]) news → index_rule old (ref :: news).
Proof.
  intros Hr Hnews [|k] ref' Hk; simpl in Hk.
  - injection Hk as <-. by rewrite take_0, app_nil_r.
  - rewrite (Hnews k ref' Hk). simpl. by rewrite <-app_assoc.
Qed.

(** The loop of [renderExplicitOrEscapedReference] over markers that
    resolve and sit in different fragments: it returns, and every
    definition gets the references of its own markers, in order, indexed
    by the rule. *)
Lemma markers_loop path renderer (rs : list ParsedRef) doc :
  NoDup (pr_fragment <$> rs) →
  Forall (resolves doc) rs →
  ∃ doc',
    forEach (renderExplicitOrEscapedReference_each path renderer) rs doc
    = (Ok tt, doc')
    ∧ ∀ h d, heap_defs doc !! h = Some d →
        ∃ news,
          heap_defs doc' !! h = Some (add_refs d news)
          ∧ r_type <$> news = pr_type <$> targeting h rs
          ∧ index_rule (d_refs d) news.
Proof.
  revert doc. induction rs as [|r rs IH]; intros doc Hnd Hall.
  - exists doc. split; [done|]. intros h d Hd. exists [].
    rewrite add_refs_nil. repeat split; [done|]. by intros k ref Hk.
  - apply NoDup_cons in Hnd as [Hfresh Hnd].
    apply Forall_cons in Hall as [([dr Hdr] & f & Hf & [name Hname]) Hall].
    cbn [forEach]. rewrite bind_unfold.
    rewrite (marker_step path renderer r doc dr f name Hdr Hf Hname).
    cbv zeta beta iota.
    set (ref := marker_reference path r dr name).
    set (doc1 := recorded _ _ _ _ _ doc).
    destruct (IH doc1 Hnd) as (doc' & Hrun & Hnews).
    { apply Forall_forall. intros r' Hin.
      apply recorded_resolves; [|by apply (proj1 (Forall_forall _ _) Hall)].
      intros Heq. apply Hfresh. rewrite <-Heq.
      apply list_elem_of_fmap. by exists r'. }
    exists doc'. split; [done|]. intros h d Hd.
    unfold targeting. destruct (decide (pr_def r = h)) as [Heq|Hne].
    + rewrite filter_cons_True by done.
      assert (d = dr) as -> by congruence.
      destruct (Hnews h (push_ref ref dr)) as (news & Hh & Hty & Hidx).
      { subst doc1. rewrite <-Heq. by apply recorded_target. }
      exists (ref :: news). rewrite <-add_refs_push. split; [done|].
      split; [simpl; by f_equal|]. apply index_rule_cons; [done|].
      exact Hidx.
    + rewrite filter_cons_False by done.
      destruct (Hnews h d) as (news & Hh & Hty & Hidx).
      { subst doc1. rewrite recorded_lookup, decide_False by done.
        by rewrite Hd. }
      by exists news.
Qed.


(** ** All the occurrences of a name in a document *)

Lemma implicit_loop path def renderer (rs : list nat) doc d :
  heap_defs doc !! def = Some d →
  Forall (fun r => is_Some (heap_frags doc !! r)) rs →
  ∃ doc' news,
    forEach (renderImplicitReference_each path def renderer) rs doc = (Ok tt, doc')
    ∧ heap_defs doc' !! def = Some (add_refs d news)
    ∧ r_fragment <$> news = rs
    ∧ ∀ k ref, news !! k = Some ref →
        r_type ref = implicit
        ∧ r_index ref = lastIndex (d_refs d ++ take k news) + 1
        ∧ r_index ref = lastIndex (d_refs d) + 1 + Z.of_nat k.
Proof.
  revert doc d. induction rs as [|r rs IH]; intros doc d Hd Hall.
  - exists doc, []. rewrite add_refs_nil. by repeat split.
  - apply Forall_cons in Hall as [[f Hf] Hall].
    cbn [forEach]. rewrite bind_unfold.
    rewrite (implicit_step path def renderer r doc d f Hd Hf).
    cbv zeta beta iota.
    set (ref := implicit_reference path def r d f).
    set (doc1 := recorded _ _ _ _ _ doc).
    destruct (IH doc1 (push_ref ref d)) as (doc' & news & Hrun & Hh & Hfr & Hidx).
    { by apply recorded_target. }
    { eapply Forall_impl; [exact Hall|]. intros r' Hr'. subst doc1.
      rewrite recorded_frags. by apply list_lookup_insert_is_Some. }
    exists doc', (ref :: news). split; [done|].
    rewrite <-add_refs_push. split; [done|]. split; [simpl; by f_equal|].
    intros [|k] ref' Hk; simpl in Hk.
    + injection Hk as <-. rewrite take_0, app_nil_r. simpl. repeat split. lia.
    + destruct (Hidx k ref' Hk) as (Hty & Hi1 & Hi2). split; [done|]. split.
      * rewrite Hi1. change (take (S k) (ref :: news)) with (ref :: take k news).
        change (d_refs (push_ref ref d)) with (d_refs d ++ [ref]).
        by rewrite <-app_assoc.
      * rewrite Hi2, lastIndex_push. simpl. lia.
Qed.


(** ** The constructor *)

Global Instance same_generators_preorder : PreOrder (@same_generators Position).
Proof.
  split; [by intros doc | intros doc1 doc2 doc3 [? ?] [? ?]].
  split; congruence.
Qed.

Lemma collectDefinition_same_generators text path position :
  lifts same_generators (collectDefinition text path position).
Proof.
  unfold collectDefinition.
  apply lifts_bind; [tc_solve | | intros res].
  - intros doc. rewrite call_parser_eq. by split.
  - apply lifts_bind; [tc_solve | | intros hs; apply lifts_ret; tc_solve].
    apply lifts_mapM; [tc_solve|]. intros d0 doc.
    rewrite collectDefinition_each_eq. cbv zeta.
    repeat case_match; by split.
Qed.

(** The generators are those the constructor chose. *)
Lemma reachable_generators options doc :
  reachable uslug options doc →
  same_generators (new_BiDoc uslug options) doc.
Proof.
  induction 1 as [ | doc text path position _ IH
                 | doc path s position defRenderer refRenderer _ IH].
  - reflexivity.
  - etransitivity; [exact IH | apply collectDefinition_same_generators].
  - etransitivity; [exact IH|].
    destruct (renderText_same path s position defRenderer refRenderer doc)
      as (_ & _ & ? & ? & _).
    by split.
Qed.

(** C9: when the constructor is given no overrides, the [refIdGenerator]
    of the instance maps a reference with index [i] to a definition with
    id [D] to [D-ref-(i+1)], so index 0 gives [D-ref-1] and index 1 gives
    [D-ref-2], and its [defIdGenerator] is the slug of the name. *)
Theorem default_generators options doc (d : Defn) (ref : Reference) (name : string) :
  reachable uslug options doc →
  options ≫= opt_refIdGenerator = None →
  options ≫= opt_defIdGenerator = None →
  refIdGenerator doc d ref = d_id d +:+ "-ref-" +:+ pretty (r_index ref + 1)
  ∧ (r_index ref = 0 → refIdGenerator doc d ref = d_id d +:+ "-ref-1")
  ∧ (r_index ref = 1 → refIdGenerator doc d ref = d_id d +:+ "-ref-2")
  ∧ defIdGenerator doc name = uslug name.
Proof.
  intros [Hdef Href]%reachable_generators Hr Hd.
  rewrite <-Hdef, <-Href. simpl. rewrite Hr, Hd. simpl.
  unfold default_refIdGenerator, default_defIdGenerator.
  split; [done|]. split; [by intros ->|]. split; [by intros ->|]. done.
Qed.

(** ** [renderText] *)

Lemma renderImplicitReferences_stage path renderer entries fragments doc fragments' doc' :
  renderImplicitReferences path renderer entries fragments doc = (Ok fragments', doc')
  ↔ implicit_stage path renderer entries fragments doc fragments' doc'.
Proof.
  split.
  - revert fragments doc.
    induction entries as [|[name def] entries IH]; intros fragments doc;
      cbn [renderImplicitReferences].
    + intros [= <- <-]. constructor.
    + rewrite bind_unfold.
      destruct (renderImplicitReference _ _ _ _ _ _) as [[fr1|e] doc1] eqn:H1;
        [|done].
      intros H2. econstructor; [exact H1 | by apply IH].
  - induction 1 as [|name def entries fragments doc fr1 doc1 fr' doc' H1 _ IH];
      cbn [renderImplicitReferences]; [done|].
    by rewrite bind_unfold, H1.
Qed.

Lemma contents_sound fragments doc cs doc' :
  contents fragments doc = (Ok cs, doc') → doc' = doc ∧ contents_of doc fragments cs.
Proof.
  unfold contents, contents_of. revert cs doc'.
  induction fragments as [|h fragments IH]; intros cs doc'; cbn [mapM].
  - intros [= <- <-]. split; [done | constructor].
  - rewrite !bind_unfold. unfold deref_frag at 1. cbv beta.
    destruct (heap_frags doc !! h) as [f|] eqn:Hf; msimpl; [|done].
    rewrite bind_unfold.
    destruct (mapM _ fragments doc) as [[cs'|e] doc1] eqn:Hm; msimpl; [|done].
    intros [= <- <-].
    destruct (IH cs' doc1) as [-> HF]; [first [exact Hm | reflexivity]|].
    split; [done|]. constructor; [by exists f | done].
Qed.

Lemma contents_complete fragments doc cs :
  contents_of doc fragments cs → contents fragments doc = (Ok cs, doc).
Proof.
  unfold contents, contents_of.
  induction 1 as [|h c fragments cs (f & Hf & ->) _ IH]; cbn [mapM]; [done|].
  rewrite !bind_unfold. unfold deref_frag at 1. rewrite Hf. msimpl.
  by rewrite bind_unfold, IH.
Qed.

Lemma contents_eq fragments doc cs doc' :
  contents fragments doc = (Ok cs, doc')
  ↔ doc' = doc ∧ contents_of doc fragments cs.
Proof.
  split; [apply contents_sound|]. intros [-> H]. by apply contents_complete.
Qed.

(** C5: [renderText] returns a text exactly when the pipeline of the
    specification produces it: the input wrapped as one initial fragment
    that is not skipped, then definition rendering, then explicit and
    escaped reference rendering, then implicit reference rendering once
    per entry of [name2def] in insertion order, the result being the
    concatenation of the contents of the final fragments. *)
Theorem renderText_pipeline path s position defRenderer refRenderer doc out doc' :
  renderText path s position defRenderer refRenderer doc = (Ok out, doc')
  ↔ renderText_spec path s position defRenderer refRenderer doc out doc'.
Proof.
  unfold renderText, renderText_spec. cbv zeta. mstep.
  set (doc0 := set_heap_frags _ doc).
  assert (H0 : same_registry doc doc0) by done.
  rewrite bind_unfold.
  pose proof (renderDefinition_same path [length (heap_frags doc)]
                defRenderer doc0) as H1.
  destruct (renderDefinition _ _ _ doc0) as [[fr1|e] doc1] eqn:E1;
    simpl in H1; cbv beta iota.
  2: { split; [done|]. by intros (?&?&?&?&?&?& H &_). }
  rewrite bind_unfold.
  pose proof (renderExplicitOrEscapedReference_same path fr1 refRenderer doc1)
    as H2.
  destruct (renderExplicitOrEscapedReference _ _ _ doc1) as [[fr2|e] doc2]
    eqn:E2; simpl in H2; cbv beta iota.
  2: { split; [done|]. intros (?&?&?&?&?&?& [= <- <-] & H' & _).
       rewrite E2 in H'. done. }
  mstep.
  assert (Hentries : name2def doc2 = name2def doc).
  { destruct H0 as (-> & _), H1 as (-> & _), H2 as (-> & _). done. }
  rewrite Hentries, bind_unfold. split.
  - destruct (renderImplicitReferences _ _ _ _ doc2) as [[fr3|e] doc3] eqn:H3;
      [|done].
    apply renderImplicitReferences_stage in H3. rewrite bind_unfold.
    destruct (contents fr3 doc3) as [[cs|e] doc4] eqn:H4; [|done].
    apply contents_eq in H4 as [-> H4]. msimpl. intros [= <- <-].
    by exists fr1, doc1, fr2, doc2, fr3, cs.
  - intros (fr1' & doc1' & fr2' & doc2' & fr3 & cs & Hs1 & Hs2 & H3 & H4 & ->).
    injection Hs1 as <- <-. rewrite E2 in Hs2. injection Hs2 as <- <-.
    apply renderImplicitReferences_stage in H3. rewrite H3, bind_unfold.
    assert (contents fr3 doc' = (Ok cs, doc')) as -> by by apply contents_eq.
    done.
Qed.

(** A computation that returns, with the state it leaves. *)
Lemma run_ok {A} (m : M A) doc a : (m doc).1 = Ok a → m doc = (Ok a, (m doc).2).
Proof. destruct (m doc) as [r doc']. simpl. by intros ->. Qed.

(** * Further properties *)

(** ** [collectDefinition]: what it keeps, when it succeeds, in which order
    it registers *)

Global Instance keeps_preorder (P : BiDoc → Prop) : PreOrder (keeps P).
Proof.
  split; [intros doc H; exact H | intros doc1 doc2 doc3 H12 H23 H1].
  by apply H23, H12.
Qed.

Global Instance extends_preorder : PreOrder (@extends Position).
Proof.
  split.
  - intros doc. by repeat split.
  - intros doc1 doc2 doc3 (Hn12 & Hi12 & Hp12) (Hn23 & Hi23 & Hp23).
    repeat split; [naive_solver | naive_solver | by etransitivity].
Qed.

Lemma find_None {A} (p : A → bool) (l : list A) :
  find p l = None ↔ ∀ x, x ∈ l → p x = false.
Proof.
  split.
  - intros Hf x Hx. apply list_elem_of_In in Hx. by apply (find_none p l).
  - intros Hall. destruct (find p l) as [x|] eqn:Hf; [|done].
    apply find_some in Hf as [Hin Hp]. apply list_elem_of_In in Hin.
    rewrite (Hall x Hin) in Hp. done.
Qed.

Lemma register_get d doc k :
  Map.get k (name2def (register d doc))
  = if decide (k ∈ names d) then Some (length (heap_defs doc))
    else Map.get k (name2def doc).
Proof.
  unfold register, names. simpl.
  rewrite MapFacts.get_set_all, MapFacts.get_set.
  destruct (decide (k ∈ d_alias d)) as [Hin|Hnin].
  - rewrite decide_True; [done | by right].
  - destruct (decide (d_name d = k)) as [<-|Hne].
    + rewrite decide_True; [done | by left].
    + rewrite decide_False; [done|].
      intros [->|Hin]%elem_of_cons; done.
Qed.

Lemma register_extends d doc : collides doc d = false → extends doc (register d doc).
Proof.
  intros Hc. split; [|split].
  - intros k h Hk. rewrite register_get_old; [done.. | by rewrite Hk].
  - intros k h Hk. rewrite register_id_old; [done.. | by rewrite Hk].
  - by apply prefix_app_r.
Qed.

Lemma collectDefinition_each_extends path d0 :
  lifts extends (collectDefinition_each path d0).
Proof.
  intros doc. rewrite collectDefinition_each_eq. cbv zeta.
  set (d := assign_id (defIdGenerator doc) d0).
  destruct (Map.has (d_name d) (name2def doc)) eqn:Hn; [reflexivity|].
  destruct (bool_decide (is_Some (id2def doc !! d_id d))) eqn:Hi; [reflexivity|].
  destruct (taken_alias doc d) eqn:Ha; [reflexivity|]. simpl.
  apply register_extends. unfold collides. by rewrite Hn, Hi, Ha.
Qed.

(** X1: [collectDefinition] never takes a key from the definition that
    has it: whether the call returns or throws, every key of [name2def]
    and of [id2def] keeps its definition, and the definitions registered
    before are untouched (the first writer wins). *)
Theorem collectDefinition_first_wins text path position doc :
  extends doc (collectDefinition text path position doc).2.
Proof.
  revert doc. change (lifts extends (collectDefinition text path position)).
  unfold collectDefinition.
  apply lifts_bind; [tc_solve | | intros res].
  - intros doc. rewrite call_parser_eq. by repeat split.
  - apply lifts_bind; [tc_solve | | intros hs; apply lifts_ret; tc_solve].
    apply lifts_mapM; [tc_solve|]. apply collectDefinition_each_extends.
Qed.

Lemma register_fresh_stays d doc d' :
  collides doc d' = false →
  d_id d' ≠ d_id d →
  (∀ k, k ∈ names d' → k ∉ names d) →
  collides (register d doc) d' = false.
Proof.
  intros (Hn & Hi & Ha)%collides_false Hid Hnames.
  apply collides_false. split; [|split].
  - apply MapFacts.has_false. rewrite register_get, decide_False.
    + by apply MapFacts.has_false.
    + apply Hnames. by left.
  - unfold register. simpl. by rewrite lookup_insert_ne.
  - unfold taken_alias in *. apply find_None. intros a Hin.
    apply MapFacts.has_false. rewrite register_get, decide_False.
    + apply MapFacts.has_false. by apply (proj1 (find_None _ _) Ha).
    + apply Hnames. by right.
Qed.

Lemma register_all_defs (ds : list Defn) doc :
  heap_defs (register_all ds doc) = heap_defs doc ++ ds.
Proof.
  revert doc. induction ds as [|d ds IH]; intros doc; simpl.
  - by rewrite app_nil_r.
  - rewrite IH. unfold register. simpl. by rewrite <-app_assoc.
Qed.

Lemma mapM_collect_fresh path (l : list Defn) doc :
  let ds := assign_id (defIdGenerator doc) <$> l in
  Forall (fun d => collides doc d = false) ds →
  mutually_fresh ds →
  mapM (collectDefinition_each path) l doc
  = (Ok (seq (length (heap_defs doc)) (length l)), register_all ds doc).
Proof.
  revert doc. induction l as [|d0 l IH]; intros doc ds Hall Hfresh; [done|].
  subst ds. rewrite fmap_cons in Hall, Hfresh.
  apply Forall_cons in Hall as [Hd Hall]. destruct Hfresh as [Hhead Hfresh].
  cbn [mapM]. rewrite bind_unfold, (collect_fresh path d0 doc Hd).
  cbv beta iota. rewrite bind_unfold.
  set (d := assign_id (defIdGenerator doc) d0) in *.
  rewrite (IH (register d doc)).
  - assert (Hlen : length (heap_defs (register d doc))
                   = S (length (heap_defs doc))).
    { unfold register. simpl. rewrite length_app. simpl. lia. }
    rewrite Hlen. done.
  - apply Forall_forall. intros d' Hin.
    destruct (proj1 (Forall_forall _ _) Hhead d' Hin) as [Hid Hnames].
    apply register_fresh_stays; [|done..].
    by apply (proj1 (Forall_forall _ _) Hall).
  - done.
Qed.

Lemma collectDefinition_fresh_run text path position doc :
  let pr := parseDefinition text path position (heap_frags doc) in
  let ds := assign_id (defIdGenerator doc) <$> defs pr.1 in
  Forall (fun d => collides doc d = false) ds →
  mutually_fresh ds →
  collectDefinition text path position doc
  = (Ok (seq (length (heap_defs doc)) (length ds), defs_fragments pr.1),
     register_all ds (set_heap_frags (fun _ => pr.2) doc)).
Proof.
  intros pr ds Hall Hfresh.
  rewrite collectDefinition_eq. cbv zeta. fold pr.
  rewrite (mapM_collect_fresh path (defs pr.1)
             (set_heap_frags (fun _ => pr.2) doc)); [|done..].
  subst ds. by rewrite length_fmap.
Qed.

(** X2: [collectDefinition] returns when no parsed definition (its id
    assigned) has a name, an id or an alias that is a key of the registry
    or that an earlier definition of the same call has; it then registers
    all of them, in order, under consecutive handles. *)
Theorem collectDefinition_succeeds text path position doc :
  let pr := parseDefinition text path position (heap_frags doc) in
  let ds := assign_id (defIdGenerator doc) <$> defs pr.1 in
  let doc' := register_all ds (set_heap_frags (fun _ => pr.2) doc) in
  Forall (fun d => collides doc d = false) ds →
  mutually_fresh ds →
  collectDefinition text path position doc
  = (Ok (seq (length (heap_defs doc)) (length ds), defs_fragments pr.1), doc')
  ∧ heap_defs doc' = heap_defs doc ++ ds.
Proof.
  intros pr ds doc' Hall Hfresh. split.
  - by apply collectDefinition_fresh_run.
  - subst doc'. by rewrite register_all_defs.
Qed.

Lemma set_all_fresh (l : list string) h (m : list (string * nat)) :
  NoDup l →
  (∀ a, a ∈ l → Map.get a m = None) →
  foldl (fun m a => Map.set a h m) m l = m ++ ((fun k => (k, h)) <$> l).
Proof.
  revert m. induction l as [|a l IH]; intros m Hnd Hfresh; simpl.
  - by rewrite app_nil_r.
  - apply NoDup_cons in Hnd as [Hnin Hnd].
    rewrite IH; [|done|].
    + rewrite MapFacts.set_fresh by (apply Hfresh; by left).
      by rewrite <-app_assoc.
    + intros a' Hin. rewrite MapFacts.get_set_ne.
      * apply Hfresh. by right.
      * intros ->. done.
Qed.

Lemma register_entries d doc :
  collides doc d = false →
  NoDup (names d) →
  name2def (register d doc)
  = name2def doc ++ ((fun k => (k, length (heap_defs doc))) <$> names d).
Proof.
  intros (Hn & _ & Ha)%collides_false Hnd.
  change (name2def (register d doc))
    with (foldl (fun m a => Map.set a (length (heap_defs doc)) m)
            (name2def doc) (names d)).
  apply set_all_fresh; [done|].
  intros a [->|Hin]%elem_of_cons.
  - by apply MapFacts.has_false.
  - apply MapFacts.has_false. by apply (proj1 (find_None _ _) Ha).
Qed.

Lemma register_all_entries (ds : list Defn) doc :
  Forall (fun d => collides doc d = false) ds →
  mutually_fresh ds →
  Forall (fun d => NoDup (names d)) ds →
  name2def (register_all ds doc)
  = name2def doc ++ entries_from (length (heap_defs doc)) ds.
Proof.
  revert doc. induction ds as [|d ds IH]; intros doc Hall Hfresh Hnd; simpl.
  - by rewrite app_nil_r.
  - apply Forall_cons in Hall as [Hd Hall]. destruct Hfresh as [Hhead Hfresh].
    apply Forall_cons in Hnd as [Hndd Hnd].
    rewrite IH; [| |done..].
    + assert (Hlen : length (heap_defs (register d doc))
                     = S (length (heap_defs doc))).
      { unfold register. simpl. rewrite length_app. simpl. lia. }
      rewrite Hlen, register_entries by done. by rewrite <-app_assoc.
    + apply Forall_forall. intros d' Hin.
      destruct (proj1 (Forall_forall _ _) Hhead d' Hin) as [Hid Hnames].
      apply register_fresh_stays; [|done..].
      by apply (proj1 (Forall_forall _ _) Hall).
Qed.

(** X3: a call of [collectDefinition] that registers definitions whose
    names and aliases do not repeat appends to [name2def], after the
    entries it had and in their order, the name of each definition
    followed by its aliases: this is the order in which [renderText] looks
    for implicit references. *)
Theorem collectDefinition_order text path position doc :
  let pr := parseDefinition text path position (heap_frags doc) in
  let ds := assign_id (defIdGenerator doc) <$> defs pr.1 in
  Forall (fun d => collides doc d = false) ds →
  mutually_fresh ds →
  Forall (fun d => NoDup (names d)) ds →
  name2def (collectDefinition text path position doc).2
  = name2def doc ++ entries_from (length (heap_defs doc)) ds.
Proof.
  intros pr ds Hall Hfresh Hnd.
  rewrite (collectDefinition_fresh_run text path position doc Hall Hfresh).
  simpl. by rewrite register_all_entries.
Qed.


(** ** One marker, one occurrence: all or nothing *)

Lemma marker_cases path renderer r doc :
  renderExplicitOrEscapedReference_each path renderer r doc = (Err TypeError, doc)
  ∨ ∃ d f name,
      heap_defs doc !! pr_def r = Some d
      ∧ heap_frags doc !! pr_fragment r = Some f
      ∧ marker_name doc r f = Some name
      ∧ renderExplicitOrEscapedReference_each path renderer r doc
        = (Ok tt,
           recorded (pr_def r) (marker_reference path r d name) (pr_fragment r) f
             (if decide (pr_type r = explicit)
              then renderer (push_ref (marker_reference path r d name) d)
                     (marker_reference path r d name)
              else name) doc).
Proof.
  destruct (heap_defs doc !! pr_def r) as [d|] eqn:Hd.
  2: { left. unfold renderExplicitOrEscapedReference_each. mstep.
       unfold deref_def at 1. by rewrite Hd. }
  destruct (heap_frags doc !! pr_fragment r) as [f|] eqn:Hf.
  2: { left. unfold renderExplicitOrEscapedReference_each. mstep.
       unfold deref_def at 1. rewrite Hd. msimpl. mstep.
       unfold deref_frag at 1. by rewrite Hf. }
  destruct (marker_name doc r f) as [name|] eqn:Hname.
  - right. exists d, f, name. do 3 (split; [done|]). by apply marker_step.
  - left. unfold renderExplicitOrEscapedReference_each. mstep.
    unfold deref_def at 1. rewrite Hd. msimpl. mstep.
    unfold deref_frag at 1. rewrite Hf. msimpl. mstep.
    unfold marker_name in Hname.
    destruct (decide (pr_type r = escaped)); [done|].
    rewrite id2def_name_eq.
    destruct (id2def doc !! slice 3 (-2) (content f)) as [h|]; [|done].
    simpl in *. by destruct (heap_defs doc !! h).
Qed.

Lemma implicit_cases path def renderer r doc :
  renderImplicitReference_each path def renderer r doc = (Err TypeError, doc)
  ∨ ∃ d f,
      heap_defs doc !! def = Some d
      ∧ heap_frags doc !! r = Some f
      ∧ renderImplicitReference_each path def renderer r doc
        = (Ok tt,
           recorded def (implicit_reference path def r d f) r f
             (renderer (push_ref (implicit_reference path def r d f) d)
                (implicit_reference path def r d f)) doc).
Proof.
  destruct (heap_defs doc !! def) as [d|] eqn:Hd.
  2: { left. unfold renderImplicitReference_each. mstep.
       unfold deref_def at 1. by rewrite Hd. }
  destruct (heap_frags doc !! r) as [f|] eqn:Hf.
  2: { left. unfold renderImplicitReference_each. mstep.
       unfold deref_def at 1. rewrite Hd. msimpl. mstep.
       unfold deref_frag at 1. by rewrite Hf. }
  right. exists d, f. do 2 (split; [done|]). by apply implicit_step.
Qed.

Lemma lifts_mapM_in (R : BiDoc → BiDoc → Prop) `{!PreOrder R} {A B}
    (f : A → M B) l :
  (∀ x, x ∈ l → lifts R (f x)) → lifts R (mapM f l).
Proof.
  induction l as [|x l IH]; intros Hf; cbn [mapM]; [by apply lifts_ret|].
  apply lifts_bind; [done | apply Hf; by left | intros y].
  apply lifts_bind; [done | | intros ys; by apply lifts_ret].
  apply IH. intros z Hz. apply Hf. by right.
Qed.

(** ** What rendering keeps: a predicate that updates of the fragment
    store and the pushes of rendering keep holds after [renderText] *)
Section Rendering.

Context (P : BiDoc → Prop).
Hypothesis P_frags : ∀ f doc, P doc → P (set_heap_frags f doc).
Hypothesis P_marker : ∀ path r d name doc,
  heap_defs doc !! pr_def r = Some d → P doc →
  P (set_heap_defs (alter (push_ref (marker_reference path r d name)) (pr_def r)) doc).
Hypothesis P_implicit : ∀ path def r d (f : Fragment) doc,
  heap_defs doc !! def = Some d → P doc →
  P (set_heap_defs (alter (push_ref (implicit_reference path def r d f)) def) doc).

Lemma set_content_keeps h text : lifts (keeps P) (set_content h text).
Proof.
  intros doc HP. unfold set_content. rewrite bind_unfold.
  unfold deref_frag. destruct (heap_frags doc !! h); [|done].
  simpl. by apply P_frags.
Qed.

Lemma call_parser_keeps {A} (p : list Fragment → A * list Fragment) :
  lifts (keeps P) (call_parser p).
Proof. intros doc HP. rewrite call_parser_eq. simpl. by apply P_frags. Qed.

Lemma marker_keeps path renderer r :
  lifts (keeps P) (renderExplicitOrEscapedReference_each path renderer r).
Proof.
  intros doc HP.
  destruct (marker_cases path renderer r doc)
    as [-> | (d & f & name & Hd & _ & _ & ->)]; [done|].
  simpl. unfold recorded. by apply P_frags, P_marker.
Qed.

Lemma occurrence_keeps path def renderer r :
  lifts (keeps P) (renderImplicitReference_each path def renderer r).
Proof.
  intros doc HP.
  destruct (implicit_cases path def renderer r doc)
    as [-> | (d & f & Hd & _ & ->)]; [done|].
  simpl. unfold recorded. by apply P_frags, P_implicit.
Qed.

Lemma renderDefinition_keeps path fragments renderer :
  lifts (keeps P) (renderDefinition path fragments renderer).
Proof.
  unfold renderDefinition.
  apply lifts_bind; [tc_solve | apply call_parser_keeps | intros res].
  apply lifts_bind; [tc_solve | | intros _; apply lifts_ret; tc_solve].
  apply lifts_forEach; [tc_solve | intros d0].
  unfold renderDefinition_each.
  apply lifts_bind; [tc_solve | apply lifts_gets; tc_solve | intros gen].
  apply set_content_keeps.
Qed.

Lemma renderExplicitOrEscapedReference_keeps path fragments renderer :
  lifts (keeps P) (renderExplicitOrEscapedReference path fragments renderer).
Proof.
  unfold renderExplicitOrEscapedReference.
  do 3 (apply lifts_bind; [tc_solve | apply lifts_gets; tc_solve | intros ?]).
  apply lifts_bind; [tc_solve | apply call_parser_keeps | intros res].
  apply lifts_bind; [tc_solve | | intros _; apply lifts_ret; tc_solve].
  apply lifts_forEach; [tc_solve | apply marker_keeps].
Qed.

Lemma renderImplicitReference_keeps path fragments def name renderer :
  lifts (keeps P) (renderImplicitReference path fragments def name renderer).
Proof.
  unfold renderImplicitReference.
  apply lifts_bind; [tc_solve | apply call_parser_keeps | intros res].
  apply lifts_bind; [tc_solve | | intros _; apply lifts_ret; tc_solve].
  apply lifts_forEach; [tc_solve | apply occurrence_keeps].
Qed.

Lemma renderImplicitReferences_keeps path renderer entries fragments :
  lifts (keeps P) (renderImplicitReferences path renderer entries fragments).
Proof.
  revert fragments. induction entries as [|[content def] entries IH];
    intros fragments; cbn [renderImplicitReferences].
  - apply lifts_ret; tc_solve.
  - apply lifts_bind; [tc_solve | apply renderImplicitReference_keeps | done].
Qed.

Lemma renderText_keeps path s position defRenderer refRenderer :
  lifts (keeps P) (renderText path s position defRenderer refRenderer).
Proof.
  unfold renderText, contents.
  apply lifts_bind; [tc_solve | | intros f0].
  { intros doc HP. simpl. by apply P_frags. }
  apply lifts_bind; [tc_solve | apply renderDefinition_keeps | intros fr1].
  apply lifts_bind;
    [tc_solve | apply renderExplicitOrEscapedReference_keeps | intros fr2].
  apply lifts_bind; [tc_solve | apply lifts_gets; tc_solve | intros entries].
  apply lifts_bind;
    [tc_solve | apply renderImplicitReferences_keeps | intros fr3].
  apply lifts_bind; [tc_solve | | intros cs; apply lifts_ret; tc_solve].
  apply lifts_mapM; [tc_solve | intros h].
  apply lifts_bind; [tc_solve | apply lifts_deref_frag; tc_solve | intros f].
  apply lifts_ret; tc_solve.
Qed.

End Rendering.

(** ** What collecting keeps: a predicate that updates of the fragment
    store and the registration of a parsed definition keep holds after
    [collectDefinition] *)
Section Collecting.

Context (P : BiDoc → Prop) (Q : Defn → Prop).
Hypothesis P_frags : ∀ f doc, P doc → P (set_heap_frags f doc).
Hypothesis P_register : ∀ d0 doc,
  Q d0 → collides doc (assign_id (defIdGenerator doc) d0) = false →
  P doc → P (register (assign_id (defIdGenerator doc) d0) doc).
Hypothesis parser_Q : ∀ text path position frags,
  Forall Q (defs (parseDefinition text path position frags).1).

Lemma collectDefinition_each_keeps path d0 :
  Q d0 → lifts (keeps P) (collectDefinition_each path d0).
Proof.
  intros HQ doc HP. rewrite collectDefinition_each_eq. cbv zeta.
  set (d := assign_id (defIdGenerator doc) d0).
  destruct (Map.has (d_name d) (name2def doc)) eqn:Hn; [done|].
  destruct (bool_decide (is_Some (id2def doc !! d_id d))) eqn:Hi; [done|].
  destruct (taken_alias doc d) eqn:Ha; [done|]. simpl.
  apply P_register; [done | | done]. fold d. unfold collides.
  by rewrite Hn, Hi, Ha.
Qed.

Lemma collectDefinition_keeps text path position :
  lifts (keeps P) (collectDefinition text path position).
Proof.
  intros doc HP. rewrite collectDefinition_eq. cbv zeta.
  set (pr := parseDefinition text path position (heap_frags doc)).
  pose proof (lifts_mapM_in (keeps P) (collectDefinition_each path) (defs pr.1))
    as Hl.
  specialize (Hl (fun d0 Hin => collectDefinition_each_keeps path d0
    (proj1 (Forall_forall _ _) (parser_Q _ _ _ _) d0 Hin))
    (set_heap_frags (fun _ => pr.2) doc) (P_frags _ _ HP)).
  by destruct (mapM _ _ _) as [[hs|e] doc1].
Qed.

End Collecting.


(** ** Every instance the calls lead to *)

Lemma reachable_keeps (P : BiDoc → Prop) (Q : Defn → Prop) options doc :
  (∀ f doc, P doc → P (set_heap_frags f doc)) →
  (∀ path r d name doc,
     heap_defs doc !! pr_def r = Some d → P doc →
     P (set_heap_defs
          (alter (push_ref (marker_reference path r d name)) (pr_def r)) doc)) →
  (∀ path def r d (f : Fragment) doc,
     heap_defs doc !! def = Some d → P doc →
     P (set_heap_defs
          (alter (push_ref (implicit_reference path def r d f)) def) doc)) →
  (∀ d0 doc,
     Q d0 → collides doc (assign_id (defIdGenerator doc) d0) = false →
     P doc → P (register (assign_id (defIdGenerator doc) d0) doc)) →
  (∀ text path position frags,
     Forall Q (defs (parseDefinition text path position frags).1)) →
  P (new_BiDoc uslug options) →
  reachable uslug options doc → P doc.
Proof.
  intros Hfrags Hmarker Himplicit Hregister HQ Hnew.
  induction 1 as [ | doc text path position _ IH
                 | doc path s position defRenderer refRenderer _ IH].
  - done.
  - by apply (collectDefinition_keeps P Q).
  - by apply (renderText_keeps P).
Qed.

Lemma names_push ref d : names (push_ref ref d) = names d.
Proof. done. Qed.

Lemma no_orphans_push h ref doc :
  no_orphans doc → no_orphans (set_heap_defs (alter (push_ref ref) h) doc).
Proof.
  intros [Hn Hi]. split.
  - intros k h' Hk. destruct (Hn k h' Hk) as (d & Hd & Hin). simpl.
    rewrite list_lookup_alter. destruct (decide (h = h')) as [->|_].
    + rewrite Hd. by exists (push_ref ref d).
    + by exists d.
  - intros k h' Hk. destruct (Hi k h' Hk) as (d & Hd & ->). simpl.
    rewrite list_lookup_alter. destruct (decide (h = h')) as [->|_].
    + rewrite Hd. by exists (push_ref ref d).
    + by exists d.
Qed.

Lemma no_orphans_register d doc : no_orphans doc → no_orphans (register d doc).
Proof.
  intros [Hn Hi]. split.
  - intros k h Hk. rewrite register_get in Hk.
    destruct (decide (k ∈ names d)) as [Hin|_].
    + injection Hk as <-. exists d. split; [|done].
      unfold register. simpl. by rewrite lookup_app_r, Nat.sub_diag.
    + destruct (Hn k h Hk) as (d' & Hd' & Hin). exists d'. split; [|done].
      unfold register. simpl. by apply lookup_app_l_Some.
  - intros k h Hk. unfold register in Hk. simpl in Hk.
    rewrite lookup_insert in Hk. destruct (decide (d_id d = k)) as [<-|_].
    + injection Hk as <-. exists d. split; [|done].
      unfold register. simpl. by rewrite lookup_app_r, Nat.sub_diag.
    + destruct (Hi k h Hk) as (d' & Hd' & ->). exists d'. split; [|done].
      unfold register. simpl. by apply lookup_app_l_Some.
Qed.

Lemma reachable_no_orphans options doc :
  reachable uslug options doc → no_orphans doc.
Proof.
  intros Hreach.
  apply (reachable_keeps no_orphans (fun _ => True) options doc);
    [ by intros f doc0
    | intros path r d name doc0 _; apply no_orphans_push
    | intros path def r d f doc0 _; apply no_orphans_push
    | intros d0 doc0 _ _; apply no_orphans_register
    | intros text path position frags; by apply Forall_forall
    | | done ].
  split; [by intros k h Hk | intros k h Hk].
  simpl in Hk. by rewrite lookup_empty in Hk.
Qed.

(** X4: in every instance that calls lead to, calls that threw included,
    the maps and the definitions agree: a definition is found under its
    name, its id and each of its aliases, and every key of [name2def] or
    [id2def] leads to a definition that has it as name or alias, or as
    id.  No call leaves a definition half registered. *)
Theorem registry_exact options doc :
  reachable uslug options doc → registry_ok doc ∧ no_orphans doc.
Proof.
  intros Hreach. split.
  - by apply (reachable_ok options).
  - by apply (reachable_no_orphans options).
Qed.

Lemma assign_id_assigned (gen : DefIdGenerator) d0 :
  gen (d_name d0) ≠ EmptyString → d_id (assign_id gen d0) ≠ EmptyString.
Proof.
  intros Hgen. unfold assign_id.
  destruct (String.length (d_id d0) =? 0)%nat eqn:Hlen; [done|].
  intros Hid. rewrite Hid in Hlen. done.
Qed.

(** X5: when the [defIdGenerator] of the instance never returns the empty
    string, no registered definition has the empty id, in every instance
    that calls lead to. *)
Theorem ids_never_empty options doc :
  reachable uslug options doc →
  (∀ name, defIdGenerator doc name ≠ EmptyString) →
  ids_assigned doc.
Proof.
  intros Hreach.
  apply (reachable_keeps
           (fun doc => (∀ name, defIdGenerator doc name ≠ EmptyString) →
                       ids_assigned doc)
           (fun _ => True) options doc);
    [ by intros f doc0
    | intros path r d name doc0 _ HP Hgen
    | intros path def r d f doc0 _ HP Hgen
    | intros d0 doc0 _ _ HP Hgen
    | intros text path position frags; by apply Forall_forall
    | intros _; constructor
    | done ].
  - unfold ids_assigned. simpl. apply Forall_alter; [by apply HP | done].
  - unfold ids_assigned. simpl. apply Forall_alter; [by apply HP | done].
  - unfold ids_assigned, register. simpl.
    apply Forall_app. split; [by apply HP|].
    constructor; [|done]. apply assign_id_assigned, Hgen.
Qed.

Lemma grows_push doc0 h ref doc :
  grows doc0 doc → grows doc0 (set_heap_defs (alter (push_ref ref) h) doc).
Proof.
  intros [Hsame Hrefs]. split.
  - etransitivity; [exact Hsame | apply (push_same h ref doc)].
  - intros h' d Hd. destruct (Hrefs h' d Hd) as (d' & Hd' & Hpre). simpl.
    rewrite list_lookup_alter. destruct (decide (h = h')) as [->|_].
    + rewrite Hd'. exists (push_ref ref d'). split; [done|].
      by apply prefix_app_r.
    + by exists d'.
Qed.

(** X6: [renderText], whether it returns or throws, leaves [name2def],
    [id2def] and the generators as they are, leaves every definition its
    name, aliases and id, and only appends to the references of a
    definition: no reference is removed, replaced or reordered. *)
Theorem renderText_grows path s position defRenderer refRenderer doc :
  grows doc (renderText path s position defRenderer refRenderer doc).2.
Proof.
  apply (renderText_keeps (grows doc));
    [ by intros f doc0
    | intros path0 r d name doc0 _; apply grows_push
    | intros path0 def r d f doc0 _; apply grows_push
    | ].
  split; [reflexivity|]. intros h d Hd. by exists d.
Qed.


(** ** The index of a reference is an ordinal *)

Lemma linking_app rs1 rs2 : linking (rs1 ++ rs2) = linking rs1 ++ linking rs2.
Proof. apply filter_app. Qed.

Lemma linking_snoc rs ref :
  length (linking (rs ++ [ref]))
  = if decide (r_type ref = escaped)
    then length (linking rs) else S (length (linking rs)).
Proof.
  rewrite linking_app, length_app. unfold linking at 2.
  destruct (decide (r_type ref = escaped)) as [He|Hne].
  - rewrite filter_cons_False by (intros Hn; by apply Hn). simpl. lia.
  - rewrite filter_cons_True by done. simpl. lia.
Qed.

Lemma ordinal_lastIndex rs :
  ordinal rs → lastIndex rs = Z.of_nat (length (linking rs)) - 1.
Proof.
  intros Hord. unfold lastIndex. destruct (last rs) as [ref|] eqn:Hlast.
  - rewrite last_lookup in Hlast. rewrite (Hord _ _ Hlast).
    rewrite take_ge; [done|]. apply lookup_lt_Some in Hlast. lia.
  - apply last_None in Hlast. by subst rs.
Qed.

Lemma ordinal_push rs ref :
  ordinal rs →
  r_index ref = (if decide (r_type ref = escaped)
                 then lastIndex rs else lastIndex rs + 1) →
  ordinal (rs ++ [ref]).
Proof.
  intros Hord Hidx k ref' Hk.
  apply lookup_app_Some in Hk as [Hk | [Hlen Hk]].
  - rewrite take_app_le by (apply lookup_lt_Some in Hk; lia). by apply Hord.
  - apply list_lookup_singleton_Some in Hk as [Hk ->].
    rewrite take_ge by (rewrite length_app; simpl; lia).
    rewrite linking_snoc, Hidx, (ordinal_lastIndex rs Hord).
    destruct (decide (r_type ref' = escaped)); lia.
Qed.

Lemma assign_id_refs (gen : DefIdGenerator) d0 :
  d_refs (assign_id gen d0) = d_refs d0.
Proof. unfold assign_id. by destruct (String.length (d_id d0) =? 0)%nat. Qed.

Lemma reachable_ordinals options doc :
  (∀ text path position frags,
     Forall (fun d => d_refs d = [])
       (defs (parseDefinition text path position frags).1)) →
  reachable uslug options doc → ordinals doc.
Proof.
  intros Hparser Hreach.
  apply (reachable_keeps ordinals (fun d => d_refs d = []) options doc);
    [ by intros f doc0
    | intros path r d name doc0 Hd HP
    | intros path def r d f doc0 Hd HP
    | intros d0 doc0 Hrefs _ HP
    | done
    | constructor
    | done ].
  - unfold ordinals. simpl. apply Forall_alter; [done|].
    intros x Hx Hord. assert (x = d) as -> by congruence.
    by apply ordinal_push.
  - unfold ordinals. simpl. apply Forall_alter; [done|].
    intros x Hx Hord. assert (x = d) as -> by congruence.
    by apply ordinal_push.
  - unfold ordinals, register. simpl. apply Forall_app. split; [done|].
    constructor; [|done]. rewrite assign_id_refs, Hrefs. by intros k ref Hk.
Qed.

(** X7: when the parser returns definitions without references, then in
    every instance that calls lead to the index of a reference is the
    zero-based ordinal, among the references of its definition that are
    not escaped, of the last such reference up to and including it: a
    linking reference has its own ordinal, an escaped one that of the
    linking reference before it, or -1 when there is none. *)
Theorem index_is_ordinal options doc h d k ref :
  (∀ text path position frags,
     Forall (fun d => d_refs d = [])
       (defs (parseDefinition text path position frags).1)) →
  reachable uslug options doc →
  heap_defs doc !! h = Some d →
  d_refs d !! k = Some ref →
  r_index ref = Z.of_nat (length (linking (take (S k) (d_refs d)))) - 1
  ∧ (r_type ref ≠ escaped →
     r_index ref = Z.of_nat (length (linking (take k (d_refs d))))).
Proof.
  intros Hparser Hreach Hd Hk.
  pose proof (reachable_ordinals options doc Hparser Hreach) as Hord.
  assert (Hidx : r_index ref
                 = Z.of_nat (length (linking (take (S k) (d_refs d)))) - 1).
  { apply (proj1 (Forall_forall _ _) Hord d); [|done].
    by apply (list_elem_of_lookup_2 _ h). }
  split; [done|]. intros Hlink.
  rewrite Hidx, (take_S_r _ _ ref Hk), linking_snoc.
  rewrite decide_False by done. lia.
Qed.

Lemma linking_take_le (rs : list Reference) k1 k2 :
  (k1 ≤ k2)%nat →
  (length (linking (take k1 rs)) ≤ length (linking (take k2 rs)))%nat.
Proof.
  intros Hle. rewrite <-(take_drop k1 (take k2 rs)), take_take.
  rewrite Nat.min_l by done. rewrite linking_app, length_app. lia.
Qed.

Lemma append_inj_r (s t1 t2 : string) : s +:+ t1 = s +:+ t2 → t1 = t2.
Proof. induction s as [|c s IH]; simpl; [done|]. intros [= H]. by apply IH. Qed.

(** X8: when the parser returns definitions without references, two
    references of one definition that are not escaped never have the same
    index, so that under the default generator their anchors differ. *)
Theorem linking_anchors_differ options doc h d k1 k2 ref1 ref2 :
  (∀ text path position frags,
     Forall (fun d => d_refs d = [])
       (defs (parseDefinition text path position frags).1)) →
  reachable uslug options doc →
  heap_defs doc !! h = Some d →
  d_refs d !! k1 = Some ref1 → d_refs d !! k2 = Some ref2 →
  k1 ≠ k2 →
  r_type ref1 ≠ escaped → r_type ref2 ≠ escaped →
  r_index ref1 ≠ r_index ref2
  ∧ default_refIdGenerator d ref1 ≠ default_refIdGenerator d ref2.
Proof.
  intros Hparser Hreach Hd H1 H2 Hne Hl1 Hl2.
  pose proof (reachable_ordinals options doc Hparser Hreach) as Hord.
  assert (Hd' : ordinal (d_refs d)).
  { apply (proj1 (Forall_forall _ _) Hord d).
    by apply (list_elem_of_lookup_2 _ h). }
  assert (Hidx : ∀ k ref, d_refs d !! k = Some ref → r_type ref ≠ escaped →
            r_index ref = Z.of_nat (length (linking (take k (d_refs d))))).
  { intros k ref Hk Hl. rewrite (Hd' k ref Hk), (take_S_r _ _ ref Hk).
    rewrite linking_snoc, decide_False by done. lia. }
  assert (Hlt : ∀ ka kb refa refb,
            d_refs d !! ka = Some refa → d_refs d !! kb = Some refb →
            r_type refa ≠ escaped → r_type refb ≠ escaped →
            (ka < kb)%nat → r_index refa < r_index refb).
  { intros ka kb refa refb Ha Hb Hla Hlb Hlt.
    rewrite (Hidx ka refa Ha Hla), (Hidx kb refb Hb Hlb).
    pose proof (linking_take_le (d_refs d) (S ka) kb Hlt) as Hle.
    rewrite (take_S_r _ _ refa Ha), linking_snoc in Hle.
    rewrite decide_False in Hle by done. lia. }
  assert (Hdiff : r_index ref1 ≠ r_index ref2).
  { destruct (decide (k1 < k2)%nat) as [Hlt'|Hge].
    - pose proof (Hlt k1 k2 ref1 ref2 H1 H2 Hl1 Hl2 Hlt'). lia.
    - assert (k2 < k1)%nat as Hlt' by lia.
      pose proof (Hlt k2 k1 ref2 ref1 H2 H1 Hl2 Hl1 Hlt'). lia. }
  split; [done|]. unfold default_refIdGenerator. intros Heq.
  apply append_inj_r, append_inj_r in Heq.
  apply (inj pretty) in Heq. lia.
Qed.

(** ** [getReverseRefs] on every instance the calls lead to *)

Lemma back_pointers_push h ref doc :
  r_def ref = h → back_pointers doc →
  back_pointers (set_heap_defs (alter (push_ref ref) h) doc).
Proof.
  intros Href HP h' d' ref' Hd' Hin. simpl in Hd'.
  rewrite list_lookup_alter in Hd'. destruct (decide (h = h')) as [->|_].
  - destruct (heap_defs doc !! h') as [d|] eqn:Hd; [|done].
    injection Hd' as <-. simpl in Hin.
    apply elem_of_app in Hin as [Hin | Hin%list_elem_of_singleton].
    + by apply (HP h' d).
    + by subst.
  - by apply (HP h' d').
Qed.

Lemma reachable_back_pointers options doc :
  (∀ text path position frags,
     Forall (fun d => d_refs d = [])
       (defs (parseDefinition text path position frags).1)) →
  reachable uslug options doc → back_pointers doc.
Proof.
  intros Hparser Hreach.
  apply (reachable_keeps back_pointers (fun d => d_refs d = []) options doc);
    [ by intros f doc0
    | intros path r d name doc0 _; by apply back_pointers_push
    | intros path def r d f doc0 _; by apply back_pointers_push
    | intros d0 doc0 Hrefs _ HP
    | done
    | | done ].
  - intros h d ref Hd Hin. unfold register in Hd. simpl in Hd.
    apply lookup_app_Some in Hd as [Hd | [_ Hd]].
    + by apply (HP h d).
    + apply list_lookup_singleton_Some in Hd as [_ <-].
      rewrite assign_id_refs, Hrefs in Hin. by apply elem_of_nil in Hin.
  - intros h d ref Hd. simpl in Hd. by rewrite lookup_nil in Hd.
Qed.

Lemma mapM_reverseRef_own (rs : list Reference) doc h d :
  heap_defs doc !! h = Some d →
  (∀ ref, ref ∈ rs → r_def ref = h) →
  mapM reverseRef rs doc
  = (Ok ((fun ref => r_path ref +:+ "#" +:+ refIdGenerator doc d ref) <$> rs),
     doc).
Proof.
  intros Hd. induction rs as [|ref rs IH]; intros Hown; cbn [mapM]; [done|].
  rewrite bind_unfold, reverseRef_eq.
  rewrite (Hown ref) by (by left). rewrite Hd. cbv beta iota.
  rewrite bind_unfold, IH; [done|]. intros ref' Hin. apply Hown. by right.
Qed.

(** X9: when the parser returns definitions without references, then in
    every instance that calls lead to [getReverseRefs] with a key of the
    map it looks in returns, without an error of its own, one address per
    reference of the definition, in the order of [refs]: the path of the
    reference, [#], and [refIdGenerator] of the reference. *)
Theorem getReverseRefs_returns options0 doc options h :
  (∀ text path position frags,
     Forall (fun d => d_refs d = [])
       (defs (parseDefinition text path position frags).1)) →
  reachable uslug options0 doc →
  lookup_options options doc = Some h →
  ∃ d,
    heap_defs doc !! h = Some d
    ∧ getReverseRefs JSON_stringify options doc
      = (Ok ((fun ref => r_path ref +:+ "#" +:+ refIdGenerator doc d ref)
               <$> d_refs d), doc).
Proof.
  intros Hparser Hreach Hl.
  destruct (reachable_no_orphans options0 doc Hreach) as [Hn Hi].
  assert (∃ d, heap_defs doc !! h = Some d) as [d Hd].
  { destruct options as [id|name]; simpl in Hl.
    - destruct (Hi id h Hl) as (d & Hd & _). by exists d.
    - destruct (Hn name h Hl) as (d & Hd & _). by exists d. }
  exists d. split; [done|].
  rewrite (getReverseRefs_found options doc h d Hl Hd).
  apply (mapM_reverseRef_own _ doc h d Hd).
  intros ref Hin.
  by apply (reachable_back_pointers options0 doc Hparser Hreach h d).
Qed.

(** X10: [getReverseRefs] is a query: whether it returns or throws, it
    leaves the instance as it is. *)
Theorem getReverseRefs_reads options doc :
  (getReverseRefs JSON_stringify options doc).2 = doc.
Proof.
  symmetry. revert doc.
  change (lifts eq (getReverseRefs JSON_stringify options)).
  unfold getReverseRefs.
  apply lifts_bind; [tc_solve | apply lifts_gets; tc_solve | intros def].
  destruct def as [h|]; [|apply lifts_throw; tc_solve].
  apply lifts_bind; [tc_solve | apply lifts_deref_def; tc_solve | intros d].
  apply lifts_mapM; [tc_solve | intros ref]. unfold reverseRef.
  apply lifts_bind; [tc_solve | apply lifts_gets; tc_solve | intros gen].
  apply lifts_bind; [tc_solve | apply lifts_deref_def; tc_solve | intros t].
  apply lifts_ret; tc_solve.
Qed.


(** ** What a marker leaves in its fragment *)

Lemma length_append (s t : string) :
  String.length (s +:+ t) = (String.length s + String.length t)%nat.
Proof. induction s as [|c s IH]; simpl; [done | by rewrite IH]. Qed.

Lemma substring_skip (p t : string) n m :
  substring (String.length p + n) m (p +:+ t) = substring n m t.
Proof. induction p as [|c p IH]; simpl; [done | apply IH]. Qed.

Lemma substring_prefix (s q : string) :
  substring 0 (String.length s) (s +:+ q) = s.
Proof.
  induction s as [|c s IH]; simpl; [by destruct q | by rewrite IH].
Qed.

(** The text between a prefix of three characters and a suffix of two. *)
Lemma slice_between (p s q : string) :
  String.length p = 3%nat → String.length q = 2%nat →
  slice 3 (-2) (p +:+ s +:+ q) = s.
Proof.
  intros Hp Hq. unfold slice. rewrite !length_append, Hp, Hq.
  replace (3 <? 0) with false by done.
  replace (-2 <? 0) with true by done.
  rewrite Z.min_l, Z.max_l by lia.
  replace (Z.to_nat 3) with (String.length p + 0)%nat by (rewrite Hp; done).
  rewrite substring_skip.
  replace (Z.to_nat _) with (String.length s) by lia.
  apply substring_prefix.
Qed.

Lemma substring_nothing n (s : string) : substring n 0 s = EmptyString.
Proof.
  revert n. induction s as [|c s IH]; intros [|n]; simpl; auto.
Qed.

(** Nothing is between the delimiters of a text of five characters or
    fewer. *)
Lemma slice_short (s : string) :
  (String.length s ≤ 5)%nat → slice 3 (-2) s = EmptyString.
Proof.
  intros Hlen. unfold slice. cbv zeta.
  replace (3 <? 0) with false by done.
  replace (-2 <? 0) with true by done.
  match goal with
  | |- substring _ ?m _ = _ => replace m with 0%nat by lia
  end.
  apply substring_nothing.
Qed.

(** X11: an escaped marker whose fragment holds three characters, a text
    and two characters ([[[!text]]]) is recorded with that text as name,
    and its fragment is rewritten to that text, whatever the renderer; a
    fragment of five characters or fewer gives the empty name. *)
Theorem escaped_shows_text path renderer r doc d f (p s q : string) :
  heap_defs doc !! pr_def r = Some d →
  heap_frags doc !! pr_fragment r = Some f →
  pr_type r = escaped →
  ∃ ref doc',
    renderExplicitOrEscapedReference_each path renderer r doc = (Ok tt, doc')
    ∧ d_refs <$> heap_defs doc' !! pr_def r = Some (d_refs d ++ [ref])
    ∧ heap_frags doc' !! pr_fragment r = Some (with_content f (r_name ref))
    ∧ (content f = p +:+ s +:+ q → String.length p = 3%nat →
       String.length q = 2%nat → r_name ref = s)
    ∧ ((String.length (content f) ≤ 5)%nat → r_name ref = EmptyString).
Proof.
  intros Hd Hf Ht.
  assert (Hname : marker_name doc r f = Some (slice 3 (-2) (content f))).
  { unfold marker_name. by rewrite decide_True. }
  eexists (marker_reference path r d (slice 3 (-2) (content f))), _.
  split; [by apply marker_step|]. rewrite Ht.
  rewrite decide_False by done. split; [|split; [|split]].
  - rewrite recorded_target with (d := d) by done. done.
  - rewrite recorded_frags. apply list_lookup_insert_eq.
    by apply lookup_lt_Some in Hf.
  - intros -> Hp Hq. by apply slice_between.
  - intros Hlen. by apply slice_short.
Qed.


(** ** [renderDefinition] *)

Lemma assign_id_fragment (gen : DefIdGenerator) d0 :
  d_fragment (assign_id gen d0) = d_fragment d0.
Proof. unfold assign_id. by destruct (String.length (d_id d0) =? 0)%nat. Qed.

Lemma renderDefinition_each_eq renderer d0 doc f :
  heap_frags doc !! d_fragment d0 = Some f →
  renderDefinition_each renderer d0 doc
  = (Ok tt,
     set_heap_frags (fun hp =>
       <[d_fragment d0 :=
           with_content f (renderer (assign_id (defIdGenerator doc) d0))]> hp)
       doc).
Proof.
  intros Hf. unfold renderDefinition_each. mstep.
  rewrite assign_id_fragment. by rewrite (set_content_eq _ _ _ f).
Qed.

Lemma definitions_loop renderer (ds : list Defn) doc :
  NoDup (d_fragment <$> ds) →
  Forall (fun d => is_Some (heap_frags doc !! d_fragment d)) ds →
  ∃ hp,
    forEach (renderDefinition_each renderer) ds doc
    = (Ok tt, set_heap_frags (fun _ => hp) doc)
    ∧ (∀ d f, d ∈ ds → heap_frags doc !! d_fragment d = Some f →
         hp !! d_fragment d
         = Some (with_content f (renderer (assign_id (defIdGenerator doc) d))))
    ∧ (∀ h, h ∉ d_fragment <$> ds → hp !! h = heap_frags doc !! h).
Proof.
  revert doc. induction ds as [|d ds IH]; intros doc Hnd Hall.
  - exists (heap_frags doc). split; [by destruct doc|].
    split; [|done]. intros d f Hin. by apply elem_of_nil in Hin.
  - rewrite fmap_cons in Hnd. apply NoDup_cons in Hnd as [Hfresh Hnd].
    apply Forall_cons in Hall as [[f Hf] Hall].
    cbn [forEach]. rewrite bind_unfold.
    rewrite (renderDefinition_each_eq renderer d doc f Hf). cbv beta iota.
    set (text := renderer (assign_id (defIdGenerator doc) d)).
    set (doc1 := set_heap_frags _ doc).
    destruct (IH doc1 Hnd) as (hp & Hrun & Hdefs & Hframe).
    { eapply Forall_impl; [exact Hall|]. intros d' Hd'. subst doc1. simpl.
      by apply list_lookup_insert_is_Some. }
    exists hp. split; [by rewrite Hrun|]. split.
    + intros d' f' [->|Hin]%elem_of_cons Hf'.
      * rewrite Hframe by done. subst doc1. simpl.
        assert (f' = f) as -> by congruence.
        apply list_lookup_insert_eq. by apply lookup_lt_Some in Hf.
      * apply Hdefs; [done|]. subst doc1. simpl.
        rewrite list_lookup_insert_ne; [done|]. intros Heq. apply Hfresh.
        rewrite Heq. apply list_elem_of_fmap. by exists d'.
    + intros h Hh. rewrite fmap_cons in Hh.
      apply not_elem_of_cons in Hh as [Hne Hh].
      rewrite Hframe by done. subst doc1. simpl.
      by rewrite list_lookup_insert_ne.
Qed.

(** X12: [renderDefinition] rewrites the fragment of every definition the
    parser finds (the fragments being different ones of the store) to what
    the renderer makes of the definition, its id assigned first when it is
    empty; it keeps the flag and the position of the fragment, leaves the
    other fragments as the parser left them, and registers nothing: the
    maps and the registered definitions are as they were. *)
Theorem renderDefinition_rewrites path fragments renderer doc :
  let pr := parseDefinitionFromFragments fragments path (heap_frags doc) in
  NoDup (d_fragment <$> defs pr.1) →
  Forall (fun d => is_Some (pr.2 !! d_fragment d)) (defs pr.1) →
  ∃ hp,
    renderDefinition path fragments renderer doc
    = (Ok (defs_fragments pr.1), set_heap_frags (fun _ => hp) doc)
    ∧ (∀ d f, d ∈ defs pr.1 → pr.2 !! d_fragment d = Some f →
         hp !! d_fragment d
         = Some {| content := renderer (assign_id (defIdGenerator doc) d);
                   skip := skip f; position := position f |})
    ∧ (∀ h, h ∉ d_fragment <$> defs pr.1 → hp !! h = pr.2 !! h).
Proof.
  intros pr Hnd Hall.
  destruct (definitions_loop renderer (defs pr.1)
              (set_heap_frags (fun _ => pr.2) doc) Hnd Hall)
    as (hp & Hrun & Hdefs & Hframe).
  exists hp. split; [|by split].
  unfold renderDefinition. mstep. rewrite call_parser_eq. fold pr. msimpl.
  mstep. by rewrite Hrun.
Qed.

(** ** The fragments after the markers and the occurrences are rendered *)

Lemma occurrence_frame path def renderer r h :
  r ≠ h →
  lifts (same_fragment h) (renderImplicitReference_each path def renderer r).
Proof.
  intros Hne doc.
  destruct (implicit_cases path def renderer r doc)
    as [-> | (d & f & _ & _ & ->)]; [done|].
  unfold same_fragment. simpl. by apply list_lookup_insert_ne.
Qed.

Lemma forEach_frame {A} (f : A → M unit) (key : A → nat) (l : list A) h doc doc' :
  (∀ x, key x ≠ h → lifts (same_fragment h) (f x)) →
  h ∉ key <$> l →
  forEach f l doc = (Ok tt, doc') →
  heap_frags doc' !! h = heap_frags doc !! h.
Proof.
  intros Hf Hh Hrun.
  pose proof (lifts_forEach_in (same_fragment h) f l) as Hl.
  specialize (Hl (fun x Hx => Hf x (fun Heq => Hh
    (proj2 (list_elem_of_fmap _ _ _) (ex_intro _ x (conj (eq_sym Heq) Hx)))))
    doc).
  by rewrite Hrun in Hl.
Qed.

(** A run of either loop only appends references. *)
Lemma markers_appends path renderer (rs : list ParsedRef) doc doc' :
  forEach (renderExplicitOrEscapedReference_each path renderer) rs doc
  = (Ok tt, doc') →
  ∀ h d, heap_defs doc !! h = Some d →
    ∃ news, heap_defs doc' !! h = Some (add_refs d news).
Proof.
  revert doc. induction rs as [|r0 rs IH]; intros doc Hrun h d Hd.
  - cbn [forEach ret] in Hrun. injection Hrun as <-.
    exists []. by rewrite add_refs_nil.
  - cbn [forEach] in Hrun. rewrite bind_unfold in Hrun.
    destruct (marker_cases path renderer r0 doc)
      as [Herr | (d0 & f0 & name0 & Hd0 & Hf0 & Hname0 & Hok)].
    { by rewrite Herr in Hrun. }
    rewrite Hok in Hrun. cbv beta iota in Hrun.
    set (ref0 := marker_reference path r0 d0 name0) in *.
    set (doc1 := recorded _ _ _ _ _ doc) in *.
    destruct (decide (pr_def r0 = h)) as [<-|Hne].
    + assert (d = d0) as -> by congruence.
      destruct (IH doc1 Hrun (pr_def r0) (push_ref ref0 d0)) as [news Hn].
      { subst doc1. by apply recorded_target. }
      exists (ref0 :: news). by rewrite <-add_refs_push.
    + apply (IH doc1 Hrun). subst doc1.
      rewrite recorded_lookup, decide_False by done. by rewrite Hd.
Qed.

Lemma occurrences_appends path def renderer (rs : list nat) doc doc' d :
  heap_defs doc !! def = Some d →
  forEach (renderImplicitReference_each path def renderer) rs doc
  = (Ok tt, doc') →
  ∃ news, heap_defs doc' !! def = Some (add_refs d news).
Proof.
  revert doc d. induction rs as [|r0 rs IH]; intros doc d Hd Hrun.
  - cbn [forEach ret] in Hrun. injection Hrun as <-.
    exists []. by rewrite add_refs_nil.
  - cbn [forEach] in Hrun. rewrite bind_unfold in Hrun.
    destruct (implicit_cases path def renderer r0 doc)
      as [Herr | (d0 & f0 & Hd0 & Hf0 & Hok)].
    { by rewrite Herr in Hrun. }
    rewrite Hok in Hrun. cbv beta iota in Hrun.
    set (ref0 := implicit_reference path def r0 d0 f0) in *.
    set (doc1 := recorded _ _ _ _ _ doc) in *.
    assert (d = d0) as -> by congruence.
    destruct (IH doc1 (push_ref ref0 d0)) as [news Hn]; [|done|].
    { subst doc1. by apply recorded_target. }
    exists (ref0 :: news). by rewrite <-add_refs_push.
Qed.

(** The marker [r], processed after the markers [pre]: its fragment, and
    for an explicit marker the definition the renderer is given, which is
    the target with the references of the markers of [pre] that have the
    same target ([earlier]) and the reference of [r]. *)
Lemma markers_fragments path renderer (rs : list ParsedRef) doc doc' :
  NoDup (pr_fragment <$> rs) →
  forEach (renderExplicitOrEscapedReference_each path renderer) rs doc
  = (Ok tt, doc') →
  ∀ pre r post f, rs = pre ++ r :: post →
    heap_frags doc !! pr_fragment r = Some f →
    ∃ text,
      heap_frags doc' !! pr_fragment r = Some (with_content f text)
      ∧ (pr_type r ≠ explicit → marker_name doc r f = Some text)
      ∧ (pr_type r = explicit →
         ∃ d name earlier later,
           heap_defs doc !! pr_def r = Some d
           ∧ marker_name doc r f = Some name
           ∧ r_fragment <$> earlier = pr_fragment <$> targeting (pr_def r) pre
           ∧ let ref :=
               {| r_def := pr_def r; r_path := path;
                  r_fragment := pr_fragment r; r_type := explicit;
                  r_index := lastIndex (d_refs d ++ earlier) + 1;
                  r_name := name |} in
             heap_defs doc' !! pr_def r
             = Some (add_refs d (earlier ++ ref :: later))
             ∧ text = renderer (add_refs d (earlier ++ [ref])) ref).
Proof.
  revert doc. induction rs as [|r0 rs IH];
    intros doc Hnd Hrun pre r post f Hl Hf.
  - by destruct pre.
  - rewrite fmap_cons in Hnd. apply NoDup_cons in Hnd as [Hfresh Hnd].
    cbn [forEach] in Hrun. rewrite bind_unfold in Hrun.
    destruct (marker_cases path renderer r0 doc)
      as [Herr | (d0 & f0 & name0 & Hd0 & Hf0 & Hname0 & Hok)].
    { by rewrite Herr in Hrun. }
    rewrite Hok in Hrun. cbv beta iota in Hrun.
    set (ref0 := marker_reference path r0 d0 name0) in *.
    set (doc1 := recorded _ _ _ _ _ doc) in *.
    destruct pre as [|r1 pre]; cbn [app] in Hl; injection Hl as <- Hl.
    + subst rs. assert (f = f0) as -> by congruence.
      rewrite (forEach_frame (renderExplicitOrEscapedReference_each path renderer)
                 pr_fragment post (pr_fragment r0) doc1 doc');
        [| intros x Hx; by apply each_frame | done | done].
      destruct (markers_appends path renderer post doc1 doc' Hrun
                  (pr_def r0) (push_ref ref0 d0)) as [later Hlater].
      { subst doc1. by apply recorded_target. }
      subst doc1. rewrite recorded_frags.
      rewrite list_lookup_insert_eq by (by apply lookup_lt_Some in Hf0).
      eexists. split; [done|]. split.
      * intros Hne. by rewrite decide_False.
      * intros He. rewrite decide_True by done.
        exists d0, name0, [], later. do 3 (split; [done|]).
        cbv zeta. rewrite app_nil_r.
        assert (Href : ref0
          = {| r_def := pr_def r0; r_path := path;
               r_fragment := pr_fragment r0; r_type := explicit;
               r_index := lastIndex (d_refs d0) + 1; r_name := name0 |}).
        { subst ref0. unfold marker_reference. rewrite He.
          by rewrite decide_False. }
        rewrite <-Href. split; [|done].
        by rewrite add_refs_push in Hlater.
    + assert (Hne : pr_fragment r ≠ pr_fragment r0).
      { intros Heq. apply Hfresh. rewrite <-Heq, Hl.
        apply list_elem_of_fmap. exists r. split; [done|].
        apply elem_of_app. right. by left. }
      destruct (IH doc1 Hnd Hrun pre r post f Hl) as (text & Hfr & Hesc & Hexp).
      { subst doc1. rewrite recorded_frags. by rewrite list_lookup_insert_ne. }
      subst doc1. rewrite recorded_marker_name in Hesc, Hexp.
      exists text. do 2 (split; [done|]). intros He.
      destruct (Hexp He)
        as (d1 & name & earlier & later & Hd1 & Hname & Hearlier & Hstore & Htext).
      rewrite recorded_lookup in Hd1. unfold targeting.
      destruct (decide (pr_def r0 = pr_def r)) as [Heq|Hneq].
      * rewrite filter_cons_True by done.
        rewrite <-Heq, Hd0 in Hd1. injection Hd1 as <-.
        exists d0, name, (ref0 :: earlier), later.
        split; [by rewrite <-Heq|]. split; [done|].
        split; [rewrite !fmap_cons; by f_equal|].
        cbv zeta. rewrite !add_refs_push in Hstore, Htext.
        change (d_refs (push_ref ref0 d0)) with (d_refs d0 ++ [ref0])
          in Hstore, Htext.
        rewrite <-!app_assoc in Hstore, Htext. by split.
      * rewrite filter_cons_False by done.
        destruct (heap_defs doc !! pr_def r) as [d|] eqn:Hd; [|done].
        injection Hd1 as <-. by exists d, name, earlier, later.
Qed.

(** X13: after [renderExplicitOrEscapedReference] has processed markers
    that resolve and sit in different fragments, the fragment of a marker
    that is not explicit holds the name of the marker (for an escaped one
    the text between its delimiters).  The fragment of an explicit marker
    holds what the renderer makes of the reference recorded for it and of
    its target as the store has it at that moment: the registered
    definition with the references it had, those of the earlier markers
    of the call with the same target, and this reference as the last one;
    the reference has the index after the last of these and the name of
    the definition that the marker identifies, and the store ends with
    that definition and, after this reference, those of the later
    markers.  Flag and position of these fragments are kept, and no other
    fragment is touched. *)
Theorem markers_rewritten path fragments renderer doc :
  let pr := parseExplicitOrEscapedReference fragments path (name2def doc)
              (id2def doc) (heap_defs doc) (heap_frags doc) in
  let doc0 := set_heap_frags (fun _ => pr.2) doc in
  NoDup (pr_fragment <$> refs pr.1) →
  Forall (resolves doc0) (refs pr.1) →
  ∃ doc',
    renderExplicitOrEscapedReference path fragments renderer doc
    = (Ok (refs_fragments pr.1), doc')
    ∧ (∀ pre r post f, refs pr.1 = pre ++ r :: post →
         pr.2 !! pr_fragment r = Some f →
         ∃ text,
           heap_frags doc' !! pr_fragment r
           = Some {| content := text; skip := skip f; position := position f |}
           ∧ (pr_type r ≠ explicit → marker_name doc0 r f = Some text)
           ∧ (pr_type r = explicit →
              ∃ d name earlier later,
                heap_defs doc !! pr_def r = Some d
                ∧ marker_name doc0 r f = Some name
                ∧ r_fragment <$> earlier
                  = pr_fragment <$> targeting (pr_def r) pre
                ∧ let ref :=
                    {| r_def := pr_def r; r_path := path;
                       r_fragment := pr_fragment r; r_type := explicit;
                       r_index := lastIndex (d_refs d ++ earlier) + 1;
                       r_name := name |} in
                  heap_defs doc' !! pr_def r
                  = Some (add_refs d (earlier ++ ref :: later))
                  ∧ text = renderer (add_refs d (earlier ++ [ref])) ref))
    ∧ (∀ h, h ∉ pr_fragment <$> refs pr.1 → heap_frags doc' !! h = pr.2 !! h).
Proof.
  intros pr doc0 Hnd Hall.
  destruct (markers_loop path renderer (refs pr.1) doc0 Hnd Hall)
    as (doc' & Hrun & _).
  exists doc'. split; [|split].
  - unfold renderExplicitOrEscapedReference. do 4 mstep.
    rewrite call_parser_eq. fold pr doc0. msimpl. mstep. by rewrite Hrun.
  - intros pre r post f Hl Hf.
    by apply (markers_fragments path renderer (refs pr.1) doc0 doc' Hnd Hrun
                pre r post f).
  - intros h Hh.
    rewrite (forEach_frame (renderExplicitOrEscapedReference_each path renderer)
               pr_fragment (refs pr.1) h doc0 doc');
      [done | intros x Hx; by apply each_frame | done | done].
Qed.

(** The match [r], found after the matches [pre]: its fragment, and the
    definition the renderer is given. *)
Lemma occurrences_fragments path def renderer (rs : list nat) doc doc' d :
  NoDup rs →
  heap_defs doc !! def = Some d →
  forEach (renderImplicitReference_each path def renderer) rs doc = (Ok tt, doc') →
  ∀ pre r post f, rs = pre ++ r :: post → heap_frags doc !! r = Some f →
    ∃ earlier later,
      r_fragment <$> earlier = pre
      ∧ let ref :=
          {| r_def := def; r_path := path; r_fragment := r;
             r_type := implicit;
             r_index := lastIndex (d_refs d ++ earlier) + 1;
             r_name := content f |} in
        heap_defs doc' !! def = Some (add_refs d (earlier ++ ref :: later))
        ∧ heap_frags doc' !! r
          = Some (with_content f
                    (renderer (add_refs d (earlier ++ [ref])) ref)).
Proof.
  revert doc d. induction rs as [|r0 rs IH];
    intros doc d Hnd Hd Hrun pre r post f Hl Hf.
  - by destruct pre.
  - apply NoDup_cons in Hnd as [Hfresh Hnd].
    cbn [forEach] in Hrun. rewrite bind_unfold in Hrun.
    destruct (implicit_cases path def renderer r0 doc)
      as [Herr | (d0 & f0 & Hd0 & Hf0 & Hok)].
    { by rewrite Herr in Hrun. }
    rewrite Hok in Hrun. cbv beta iota in Hrun.
    assert (d0 = d) as -> by congruence.
    set (ref0 := implicit_reference path def r0 d f0) in *.
    set (doc1 := recorded _ _ _ _ _ doc) in *.
    assert (Hd1 : heap_defs doc1 !! def = Some (push_ref ref0 d)).
    { subst doc1. by apply recorded_target. }
    destruct pre as [|r1 pre]; cbn [app] in Hl; injection Hl as <- Hl.
    + subst rs. assert (f = f0) as -> by congruence.
      rewrite (forEach_frame (renderImplicitReference_each path def renderer)
                 id post r0 doc1 doc');
        [| intros x Hx; by apply occurrence_frame
         | by rewrite list_fmap_id | done].
      destruct (occurrences_appends path def renderer post doc1 doc'
                  (push_ref ref0 d) Hd1 Hrun) as [later Hlater].
      subst doc1. rewrite recorded_frags.
      rewrite list_lookup_insert_eq by (by apply lookup_lt_Some in Hf0).
      exists [], later. split; [done|]. cbv zeta. rewrite app_nil_r.
      fold (implicit_reference path def r0 d f0). fold ref0.
      split; [|done]. by rewrite add_refs_push in Hlater.
    + assert (Hne : r ≠ r0).
      { intros ->. apply Hfresh. rewrite Hl. apply elem_of_app. right. by left. }
      destruct (IH doc1 (push_ref ref0 d) Hnd Hd1 Hrun pre r post f Hl)
        as (earlier & later & Hearlier & Hstore & Htext).
      { subst doc1. rewrite recorded_frags. by rewrite list_lookup_insert_ne. }
      exists (ref0 :: earlier), later.
      split; [rewrite fmap_cons; by f_equal|].
      cbv zeta. rewrite !add_refs_push in Hstore, Htext.
      change (d_refs (push_ref ref0 d)) with (d_refs d ++ [ref0])
        in Hstore, Htext.
      rewrite <-!app_assoc in Hstore, Htext. by split.
Qed.

(** X14: after [renderImplicitReference] has processed the matches the
    parser found (different fragments of the store), the fragment of every
    match holds what the renderer makes of the reference recorded for it
    and of the definition as the store has it at that moment: the given
    definition with the references it had, those of the earlier matches
    and this reference as the last one.  The reference is implicit,
    points to the definition, carries the path, has the index after the
    last of these and as name the text the fragment held before; the
    store ends with the definition carrying, after this reference, those
    of the later matches.  Flag and position of the fragment are kept,
    and no other fragment is touched. *)
Theorem occurrences_rewritten path fragments def name renderer doc d :
  let pr := parseImplicitReference fragments name (heap_frags doc) in
  heap_defs doc !! def = Some d →
  NoDup (irefs pr.1) →
  Forall (fun r => is_Some (pr.2 !! r)) (irefs pr.1) →
  ∃ doc',
    renderImplicitReference path fragments def name renderer doc
    = (Ok (irefs_fragments pr.1), doc')
    ∧ (∀ pre r post f, irefs pr.1 = pre ++ r :: post → pr.2 !! r = Some f →
         ∃ earlier later,
           r_fragment <$> earlier = pre
           ∧ let ref :=
               {| r_def := def; r_path := path; r_fragment := r;
                  r_type := implicit;
                  r_index := lastIndex (d_refs d ++ earlier) + 1;
                  r_name := content f |} in
             heap_defs doc' !! def
             = Some (add_refs d (earlier ++ ref :: later))
             ∧ heap_frags doc' !! r
               = Some {| content :=
                           renderer (add_refs d (earlier ++ [ref])) ref;
                         skip := skip f; position := position f |})
    ∧ (∀ h, h ∉ irefs pr.1 → heap_frags doc' !! h = pr.2 !! h).
Proof.
  intros pr Hd Hnd Hall.
  set (doc0 := set_heap_frags (fun _ => pr.2) doc).
  destruct (implicit_loop path def renderer (irefs pr.1) doc0 d Hd Hall)
    as (doc' & news & Hrun & _).
  exists doc'. split; [|split].
  - unfold renderImplicitReference. mstep. rewrite call_parser_eq. fold pr.
    msimpl. mstep. fold doc0. by rewrite Hrun.
  - intros pre r post f Hl Hf.
    by apply (occurrences_fragments path def renderer (irefs pr.1) doc0 doc' d
                Hnd Hd Hrun pre r post f).
  - intros h Hh.
    rewrite (forEach_frame (renderImplicitReference_each path def renderer)
               id (irefs pr.1) h doc0 doc');
      [done | intros x Hx; by apply occurrence_frame
       | by rewrite list_fmap_id | done].
Qed.


(** ** What a call that throws leaves *)

Lemma forEach_err {A} (f : A → M unit) (l : list A) doc e doc' :
  forEach f l doc = (Err e, doc') →
  ∃ pre x post doc1,
    l = pre ++ x :: post
    ∧ forEach f pre doc = (Ok tt, doc1)
    ∧ f x doc1 = (Err e, doc').
Proof.
  revert doc. induction l as [|x l IH]; intros doc; cbn [forEach]; [done|].
  rewrite bind_unfold. destruct (f x doc) as [[[]|e0] doc0] eqn:Hx.
  - intros Hrun. destruct (IH doc0 Hrun) as (pre & y & post & doc1 & -> & Hpre & Hy).
    exists (x :: pre), y, post, doc1. split; [done|]. split; [|done].
    cbn [forEach]. by rewrite bind_unfold, Hx.
  - intros [= <- <-]. by exists [], x, l, doc.
Qed.

Lemma mapM_err {A B} (f : A → M B) (l : list A) doc e doc' :
  mapM f l doc = (Err e, doc') →
  ∃ pre x post ys doc1,
    l = pre ++ x :: post
    ∧ mapM f pre doc = (Ok ys, doc1)
    ∧ f x doc1 = (Err e, doc').
Proof.
  revert doc. induction l as [|x l IH]; intros doc; cbn [mapM]; [done|].
  rewrite bind_unfold. destruct (f x doc) as [[y|e0] doc0] eqn:Hx.
  - rewrite bind_unfold.
    destruct (mapM f l doc0) as [[ys|e1] doc2] eqn:Hl; [done|].
    intros [= <- <-].
    destruct (IH doc0 Hl) as (pre & z & post & zs & doc1 & -> & Hpre & Hz).
    exists (x :: pre), z, post, (y :: zs), doc1. split; [done|].
    split; [|done]. cbn [mapM]. by rewrite bind_unfold, Hx, bind_unfold, Hpre.
  - intros [= <- <-]. by exists [], x, l, [], doc.
Qed.

(** ** Callbacks that throw *)

Lemma forEach_ext {A} (f g : A → M unit) (l : list A) doc :
  (∀ x doc, f x doc = g x doc) → forEach f l doc = forEach g l doc.
Proof.
  intros Hfg. revert doc. induction l as [|x l IH]; intros doc; [done|].
  cbn [forEach]. rewrite !bind_unfold, Hfg.
  destruct (g x doc) as [[[]|e] doc1]; [apply IH | done].
Qed.

Lemma throwing_assign_id generator d0 doc :
  Throwing.assign_id generator d0 doc
  = if (String.length (d_id d0) =? 0)%nat
    then match generator (d_name d0) with
         | Ok id => (Ok (with_id d0 id), doc)
         | Err e => (Err e, doc)
         end
    else (Ok d0, doc).
Proof.
  unfold Throwing.assign_id. destruct (_ =? _)%nat; [|done].
  rewrite bind_unfold. unfold Throwing.call. by destruct (generator _).
Qed.

(** The callback of [collectDefinition] throws what the generator throws,
    or throws a duplicate error, the instance untouched in both cases, or
    registers the definition. *)
Lemma throwing_collectDefinition_each_eq generator path d0 doc :
  Throwing.collectDefinition_each generator path d0 doc
  = match (Throwing.assign_id generator d0 doc).1 with
    | Err e => (Err e, doc)
    | Ok d =>
        if Map.has (d_name d) (name2def doc)
        then (Err (duplicate_name (d_name d) path), doc)
        else if bool_decide (is_Some (id2def doc !! d_id d))
        then (Err (duplicate_id (d_id d) path), doc)
        else match taken_alias doc d with
             | Some a => (Err (duplicate_name a path), doc)
             | None => (Ok (length (heap_defs doc)), register d doc)
             end
    end.
Proof.
  unfold Throwing.collectDefinition_each, taken_alias.
  rewrite bind_unfold.
  assert (Hst : Throwing.assign_id generator d0 doc
                = ((Throwing.assign_id generator d0 doc).1, doc)).
  { rewrite throwing_assign_id. by repeat case_match. }
  rewrite Hst. cbn [fst].
  destruct (Throwing.assign_id generator d0 doc).1 as [d|e]; [|done].
  mstep. mstep.
  destruct (Map.has (d_name d) (name2def doc)); msimpl; [done|].
  mstep. mstep.
  destruct (bool_decide (is_Some (id2def doc !! d_id d))); msimpl; [done|].
  mstep. rewrite check_aliases.
  destruct (find _ (d_alias d)); [done|].
  do 4 mstep. rewrite set_aliases. unfold register.
  by destruct doc.
Qed.

Lemma returning_collectDefinition_each generator path d0 doc :
  (∀ name, generator name = Ok (defIdGenerator doc name)) →
  Throwing.collectDefinition_each generator path d0 doc
  = collectDefinition_each path d0 doc.
Proof.
  intros Hgen.
  rewrite throwing_collectDefinition_each_eq, collectDefinition_each_eq.
  rewrite throwing_assign_id, Hgen. unfold assign_id.
  by destruct (_ =? _)%nat.
Qed.

(** With a generator that returns, [Throwing.collectDefinition] is
    [collectDefinition]. *)
Lemma returning_collectDefinition generator text path position doc :
  (∀ name, generator name = Ok (defIdGenerator doc name)) →
  Throwing.collectDefinition generator text path position doc
  = collectDefinition text path position doc.
Proof.
  intros Hgen. unfold Throwing.collectDefinition, collectDefinition.
  rewrite !bind_unfold, call_parser_eq. cbv beta iota.
  set (doc0 := set_heap_frags _ doc).
  assert (Hgen0 : ∀ name, generator name = Ok (defIdGenerator doc0 name))
    by done.
  clearbody doc0. rewrite !bind_unfold.
  assert (Hmap : ∀ l doc1,
    (∀ name, generator name = Ok (defIdGenerator doc1 name)) →
    mapM (Throwing.collectDefinition_each generator path) l doc1
    = mapM (collectDefinition_each path) l doc1).
  { clear. induction l as [|x l IH]; intros doc1 Hgen1; [done|].
    cbn [mapM]. rewrite !bind_unfold.
    rewrite (returning_collectDefinition_each generator path x doc1 Hgen1).
    pose proof (collectDefinition_each_eq path x doc1) as Heq.
    destruct (collectDefinition_each path x doc1) as [[y|e] doc2]; [|done].
    cbv beta iota. rewrite !bind_unfold. rewrite IH; [done|].
    intros name. rewrite Hgen1. f_equal. cbv zeta in Heq.
    repeat case_match; by simplify_eq. }
  by rewrite Hmap.
Qed.

(** One marker with a renderer that may throw: a marker that does not
    resolve throws a [TypeError] and leaves the instance as it is; one
    that resolves is recorded, and if it is explicit the renderer is
    called after that: its text goes into the fragment, its exception
    leaves the reference recorded and the fragment as it was. *)
Lemma throwing_marker_cases path renderer r doc :
  (¬ resolves doc r
   ∧ Throwing.renderExplicitOrEscapedReference_each path renderer r doc
     = (Err TypeError, doc))
  ∨ ∃ d f name,
      heap_defs doc !! pr_def r = Some d
      ∧ heap_frags doc !! pr_fragment r = Some f
      ∧ marker_name doc r f = Some name
      ∧ let ref := marker_reference path r d name in
        Throwing.renderExplicitOrEscapedReference_each path renderer r doc
        = if decide (pr_type r = explicit)
          then match renderer (push_ref ref d) ref with
               | Ok text =>
                   (Ok tt, recorded (pr_def r) ref (pr_fragment r) f text doc)
               | Err e =>
                   (Err e, set_heap_defs (alter (push_ref ref) (pr_def r)) doc)
               end
          else (Ok tt, recorded (pr_def r) ref (pr_fragment r) f name doc).
Proof.
  destruct (heap_defs doc !! pr_def r) as [d|] eqn:Hd.
  2: { left. split; [intros ([d' Hd'] & _); congruence|].
       unfold Throwing.renderExplicitOrEscapedReference_each. mstep.
       unfold deref_def at 1. by rewrite Hd. }
  destruct (heap_frags doc !! pr_fragment r) as [f|] eqn:Hf.
  2: { left. split; [intros (_ & f' & Hf' & _); congruence|].
       unfold Throwing.renderExplicitOrEscapedReference_each. mstep.
       unfold deref_def at 1. rewrite Hd. msimpl. mstep.
       unfold deref_frag at 1. by rewrite Hf. }
  destruct (marker_name doc r f) as [name|] eqn:Hname.
  - right. exists d, f, name. do 3 (split; [done|]). intros ref.
    unfold Throwing.renderExplicitOrEscapedReference_each.
    mstep. unfold deref_def at 1. rewrite Hd. msimpl.
    mstep. unfold deref_frag at 1. rewrite Hf. msimpl.
    assert (Hn : (if decide (pr_type r = escaped)
                  then ret (slice 3 (-2) (content f))
                  else id2def_name (slice 3 (-2) (content f))) doc
                 = (Ok name, doc)).
    { unfold marker_name in Hname. destruct (decide (pr_type r = escaped)).
      - by injection Hname as ->.
      - rewrite id2def_name_eq.
        destruct (id2def doc !! slice 3 (-2) (content f)) as [h|]; [|done].
        simpl in *. destruct (heap_defs doc !! h) as [d'|]; [|done].
        simpl in *. by injection Hname as ->. }
    mstep. rewrite Hn. msimpl. mstep. unfold push. msimpl.
    fold (marker_reference path r d name). fold ref.
    destruct (decide (pr_type r = explicit)) as [He|Hne].
    + mstep. unfold deref_def. simpl. rewrite list_lookup_alter_eq, Hd. simpl.
      rewrite bind_unfold. unfold Throwing.call.
      destruct (renderer (push_ref ref d) ref) as [text|e1]; [|done].
      by rewrite (set_content_eq _ _ _ f).
    + by rewrite (set_content_eq _ _ _ f).
  - left. split.
    { intros (_ & f' & Hf' & [name Hn]). congruence. }
    unfold Throwing.renderExplicitOrEscapedReference_each. mstep.
    unfold deref_def at 1. rewrite Hd. msimpl. mstep.
    unfold deref_frag at 1. rewrite Hf. msimpl. mstep.
    unfold marker_name in Hname.
    destruct (decide (pr_type r = escaped)); [done|].
    rewrite id2def_name_eq.
    destruct (id2def doc !! slice 3 (-2) (content f)) as [h|]; [|done].
    simpl in *. by destruct (heap_defs doc !! h).
Qed.

Lemma throwing_implicit_cases path def renderer r doc :
  ((heap_defs doc !! def = None ∨ heap_frags doc !! r = None)
   ∧ Throwing.renderImplicitReference_each path def renderer r doc
     = (Err TypeError, doc))
  ∨ ∃ d f,
      heap_defs doc !! def = Some d
      ∧ heap_frags doc !! r = Some f
      ∧ let ref := implicit_reference path def r d f in
        Throwing.renderImplicitReference_each path def renderer r doc
        = match renderer (push_ref ref d) ref with
          | Ok text => (Ok tt, recorded def ref r f text doc)
          | Err e => (Err e, set_heap_defs (alter (push_ref ref) def) doc)
          end.
Proof.
  destruct (heap_defs doc !! def) as [d|] eqn:Hd.
  2: { left. split; [by left|].
       unfold Throwing.renderImplicitReference_each. mstep.
       unfold deref_def at 1. by rewrite Hd. }
  destruct (heap_frags doc !! r) as [f|] eqn:Hf.
  2: { left. split; [by right|].
       unfold Throwing.renderImplicitReference_each. mstep.
       unfold deref_def at 1. rewrite Hd. msimpl. mstep.
       unfold deref_frag at 1. by rewrite Hf. }
  right. exists d, f. do 2 (split; [done|]). intros ref.
  unfold Throwing.renderImplicitReference_each.
  mstep. unfold deref_def at 1. rewrite Hd. msimpl.
  mstep. unfold deref_frag at 1. rewrite Hf. msimpl.
  fold (implicit_reference path def r d f). fold ref.
  mstep. unfold push. msimpl.
  mstep. unfold deref_def. simpl. rewrite list_lookup_alter_eq, Hd. simpl.
  rewrite bind_unfold. unfold Throwing.call.
  destruct (renderer (push_ref ref d) ref) as [text|e]; [|done].
  by rewrite (set_content_eq _ _ _ f).
Qed.

(** With a renderer that returns, the methods of [Throwing] are the
    methods above. *)
Lemma returning_renderExplicitOrEscapedReference path fragments renderer doc :
  Throwing.renderExplicitOrEscapedReference path fragments
    (fun d ref => Ok (renderer d ref)) doc
  = renderExplicitOrEscapedReference path fragments renderer doc.
Proof.
  unfold Throwing.renderExplicitOrEscapedReference,
    renderExplicitOrEscapedReference.
  do 4 (rewrite !bind_unfold; msimpl). rewrite call_parser_eq. cbv beta iota.
  rewrite !bind_unfold.
  rewrite (forEach_ext _ (renderExplicitOrEscapedReference_each path renderer));
    [done|].
  intros r doc1.
  destruct (throwing_marker_cases path (fun d ref => Ok (renderer d ref)) r doc1)
    as [[Hno ->] | (d & f & name & Hd & Hf & Hname & ->)].
  - destruct (marker_cases path renderer r doc1)
      as [-> | (d & f & name & Hd & Hf & Hname & _)]; [done|].
    exfalso. apply Hno. split; [by eexists|]. exists f. split; [done|].
    by eexists.
  - rewrite (marker_step path renderer r doc1 d f name Hd Hf Hname).
    cbv zeta. by destruct (decide (pr_type r = explicit)).
Qed.

Lemma returning_renderImplicitReference path fragments def name renderer doc :
  Throwing.renderImplicitReference path fragments def name
    (fun d ref => Ok (renderer d ref)) doc
  = renderImplicitReference path fragments def name renderer doc.
Proof.
  unfold Throwing.renderImplicitReference, renderImplicitReference.
  rewrite !bind_unfold, call_parser_eq. cbv beta iota. rewrite !bind_unfold.
  rewrite (forEach_ext _ (renderImplicitReference_each path def renderer));
    [done|].
  intros r doc1.
  destruct (throwing_implicit_cases path def (fun d ref => Ok (renderer d ref))
              r doc1)
    as [[Hno ->] | (d & f & Hd & Hf & ->)].
  - destruct (implicit_cases path def renderer r doc1)
      as [-> | (d & f & Hd & Hf & _)]; [done|].
    destruct Hno; congruence.
  - by rewrite (implicit_step path def renderer r doc1 d f Hd Hf).
Qed.

(** X15: [collectDefinition] throws for two reasons only.  Either
    [defIdGenerator], called for a parsed definition whose id is empty,
    throws: the error is the generator's.  Or a parsed definition, its id
    assigned, collides with the registry: the message of the error spells
    the name or alias that is a key of [name2def], or the id that is a
    key of [id2def], and the path.  In both cases the definitions before
    that one are registered and that one is not: the instance is as the
    definitions before left it. *)
Theorem collectDefinition_throws generator text path position doc e doc' :
  let pr := parseDefinition text path position (heap_frags doc) in
  let doc0 := set_heap_frags (fun _ => pr.2) doc in
  Throwing.collectDefinition generator text path position doc = (Err e, doc') →
  ∃ pre d0 post hs,
    defs pr.1 = pre ++ d0 :: post
    ∧ mapM (Throwing.collectDefinition_each generator path) pre doc0
      = (Ok hs, doc')
    ∧ ((d_id d0 = EmptyString ∧ generator (d_name d0) = Err e)
       ∨ ∃ id key,
           (if decide (d_id d0 = EmptyString)
            then generator (d_name d0) = Ok id else id = d_id d0)
           ∧ ((key ∈ d_name d0 :: d_alias d0
               ∧ Map.has key (name2def doc') = true
               ∧ e = Error ("Duplicate definition name: " +:+ key
                            +:+ " in file " +:+ path))
              ∨ (key = id
                 ∧ is_Some (id2def doc' !! id)
                 ∧ e = Error ("Duplicate definition id: " +:+ id
                              +:+ " in file " +:+ path)))).
Proof.
  intros pr doc0. unfold Throwing.collectDefinition.
  rewrite bind_unfold, call_parser_eq. fold pr doc0. cbv beta iota.
  rewrite bind_unfold.
  destruct (mapM _ (defs pr.1) doc0) as [[hs|e0] doc1] eqn:Hrun; [done|].
  intros [= <- <-].
  destruct (mapM_err _ _ _ _ _ Hrun)
    as (pre & d0 & post & hs & doc2 & Hl & Hpre & Hd0).
  rewrite throwing_collectDefinition_each_eq, throwing_assign_id in Hd0.
  exists pre, d0, post, hs.
  assert (Hid : ∀ d id, d = with_id d0 id →
    (if Map.has (d_name d) (name2def doc2)
     then (Err (duplicate_name (d_name d) path), doc2)
     else if bool_decide (is_Some (id2def doc2 !! d_id d))
     then (Err (duplicate_id (d_id d) path), doc2)
     else match taken_alias doc2 d with
          | Some a => (Err (duplicate_name a path), doc2)
          | None => (Ok (length (heap_defs doc2)), register d doc2)
          end) = (Err e0, doc1) →
    doc1 = doc2
    ∧ ∃ key,
        (key ∈ d_name d0 :: d_alias d0
         ∧ Map.has key (name2def doc2) = true
         ∧ e0 = duplicate_name key path)
        ∨ (key = id ∧ is_Some (id2def doc2 !! id)
           ∧ e0 = duplicate_id id path)).
  { intros d id -> Hres. cbn [with_id d_name d_id] in Hres.
    destruct (Map.has (d_name d0) (name2def doc2)) eqn:Hn.
    { injection Hres as <- <-. split; [done|]. exists (d_name d0). left.
      split; [by left | done]. }
    destruct (bool_decide (is_Some (id2def doc2 !! id))) eqn:Hi.
    { injection Hres as <- <-. split; [done|]. exists id. right.
      split; [done|]. split; [by apply bool_decide_eq_true in Hi | done]. }
    destruct (taken_alias doc2 (with_id d0 id)) as [a|] eqn:Ha; [|done].
    injection Hres as <- <-. split; [done|]. exists a. left.
    unfold taken_alias in Ha. apply find_some in Ha as [Hin Hhas].
    split; [|done]. right. by apply list_elem_of_In. }
  destruct (String.length (d_id d0) =? 0)%nat eqn:Hlen.
  - assert (Hempty : d_id d0 = EmptyString).
    { apply Nat.eqb_eq in Hlen. by destruct (d_id d0). }
    destruct (generator (d_name d0)) as [id|e1] eqn:Hg; cbn [fst] in Hd0.
    + destruct (Hid _ id eq_refl Hd0) as [-> [key Hkey]].
      do 2 (split; [done|]). right. exists id, key.
      split; [by rewrite decide_True|]. exact Hkey.
    + injection Hd0 as <- <-. do 2 (split; [done|]). by left.
  - assert (Hfull : d_id d0 ≠ EmptyString).
    { intros Hempty. by rewrite Hempty in Hlen. }
    cbn [fst] in Hd0.
    destruct (Hid d0 (d_id d0)) as [-> [key Hkey]]; [by destruct d0 | done|].
    do 2 (split; [done|]). right. exists (d_id d0), key.
    split; [by rewrite decide_False|]. exact Hkey.
Qed.

(** X16: [renderExplicitOrEscapedReference] throws for two reasons only,
    at the first marker concerned, the markers before it processed.
    Either the marker does not resolve (its target, its fragment or the
    definition it names is missing): the error is a [TypeError] and the
    instance is as the markers before left it.  Or the marker is
    explicit, resolves, and the renderer throws: the error is the
    renderer's, the reference of the marker is recorded in the target,
    which is what the renderer was called with, and no fragment is
    rewritten for it. *)
Theorem renderExplicitOrEscapedReference_throws path fragments renderer doc e doc' :
  let pr := parseExplicitOrEscapedReference fragments path (name2def doc)
              (id2def doc) (heap_defs doc) (heap_frags doc) in
  let doc0 := set_heap_frags (fun _ => pr.2) doc in
  Throwing.renderExplicitOrEscapedReference path fragments renderer doc
  = (Err e, doc') →
  ∃ pre r post doc1,
    refs pr.1 = pre ++ r :: post
    ∧ forEach (Throwing.renderExplicitOrEscapedReference_each path renderer)
        pre doc0 = (Ok tt, doc1)
    ∧ ((¬ resolves doc1 r ∧ e = TypeError ∧ doc' = doc1)
       ∨ ∃ d f name,
           pr_type r = explicit
           ∧ heap_defs doc1 !! pr_def r = Some d
           ∧ heap_frags doc1 !! pr_fragment r = Some f
           ∧ marker_name doc1 r f = Some name
           ∧ let ref :=
               {| r_def := pr_def r; r_path := path;
                  r_fragment := pr_fragment r; r_type := explicit;
                  r_index := lastIndex (d_refs d) + 1; r_name := name |} in
             renderer (push_ref ref d) ref = Err e
             ∧ heap_defs doc' = alter (push_ref ref) (pr_def r) (heap_defs doc1)
             ∧ heap_defs doc' !! pr_def r = Some (push_ref ref d)
             ∧ heap_frags doc' = heap_frags doc1
             ∧ name2def doc' = name2def doc1
             ∧ id2def doc' = id2def doc1).
Proof.
  intros pr doc0. unfold Throwing.renderExplicitOrEscapedReference.
  do 4 mstep. rewrite call_parser_eq. fold pr doc0. msimpl.
  rewrite bind_unfold.
  destruct (forEach _ (refs pr.1) doc0) as [[[]|e0] doc1] eqn:Hrun; [done|].
  intros [= <- <-].
  destruct (forEach_err _ _ _ _ _ Hrun) as (pre & r & post & doc2 & Hl & Hpre & Hr).
  exists pre, r, post, doc2. do 2 (split; [done|]).
  destruct (throwing_marker_cases path renderer r doc2)
    as [[Hno Herr] | (d & f & name & Hd & Hf & Hname & Hok)].
  - rewrite Herr in Hr. injection Hr as <- <-. by left.
  - cbv zeta in Hok. rewrite Hok in Hr.
    destruct (decide (pr_type r = explicit)) as [He|]; [|done].
    right. exists d, f, name. do 4 (split; [done|]). cbv zeta.
    assert (Href : marker_reference path r d name
      = {| r_def := pr_def r; r_path := path;
           r_fragment := pr_fragment r; r_type := explicit;
           r_index := lastIndex (d_refs d) + 1; r_name := name |}).
    { unfold marker_reference. rewrite He. by rewrite decide_False. }
    rewrite Href in Hr.
    destruct (renderer _ _) as [text|e1]; [done|].
    injection Hr as <- <-. split; [done|]. split; [done|].
    split; [|done]. simpl. by rewrite list_lookup_alter_eq, Hd.
Qed.

(** X17: [renderImplicitReference] throws for two reasons only, at the
    first match concerned, the matches before it processed.  Either the
    definition or the fragment of the match is missing: the error is a
    [TypeError] and the instance is as the matches before left it.  Or
    the renderer throws: the error is the renderer's, the reference of
    the match is recorded in the definition, which is what the renderer
    was called with, and no fragment is rewritten for it. *)
Theorem renderImplicitReference_throws path fragments def name renderer doc e doc' :
  let pr := parseImplicitReference fragments name (heap_frags doc) in
  let doc0 := set_heap_frags (fun _ => pr.2) doc in
  Throwing.renderImplicitReference path fragments def name renderer doc
  = (Err e, doc') →
  ∃ pre r post doc1,
    irefs pr.1 = pre ++ r :: post
    ∧ forEach (Throwing.renderImplicitReference_each path def renderer)
        pre doc0 = (Ok tt, doc1)
    ∧ (((heap_defs doc1 !! def = None ∨ heap_frags doc1 !! r = None)
        ∧ e = TypeError ∧ doc' = doc1)
       ∨ ∃ d f,
           heap_defs doc1 !! def = Some d
           ∧ heap_frags doc1 !! r = Some f
           ∧ let ref :=
               {| r_def := def; r_path := path; r_fragment := r;
                  r_type := implicit;
                  r_index := lastIndex (d_refs d) + 1;
                  r_name := content f |} in
             renderer (push_ref ref d) ref = Err e
             ∧ heap_defs doc' = alter (push_ref ref) def (heap_defs doc1)
             ∧ heap_defs doc' !! def = Some (push_ref ref d)
             ∧ heap_frags doc' = heap_frags doc1
             ∧ name2def doc' = name2def doc1
             ∧ id2def doc' = id2def doc1).
Proof.
  intros pr doc0. unfold Throwing.renderImplicitReference. mstep.
  rewrite call_parser_eq. fold pr doc0. msimpl. rewrite bind_unfold.
  destruct (forEach _ (irefs pr.1) doc0) as [[[]|e0] doc1] eqn:Hrun; [done|].
  intros [= <- <-].
  destruct (forEach_err _ _ _ _ _ Hrun) as (pre & r & post & doc2 & Hl & Hpre & Hr).
  exists pre, r, post, doc2. do 2 (split; [done|]).
  destruct (throwing_implicit_cases path def renderer r doc2)
    as [[Hno Herr] | (d & f & Hd & Hf & Hok)].
  - rewrite Herr in Hr. injection Hr as <- <-. by left.
  - cbv zeta in Hok. rewrite Hok in Hr. unfold implicit_reference in Hr.
    right. exists d, f. do 2 (split; [done|]). cbv zeta.
    destruct (renderer _ _) as [text|e1]; [done|].
    injection Hr as <- <-. split; [done|]. split; [done|].
    split; [|done]. simpl. by rewrite list_lookup_alter_eq, Hd.
Qed.

(** X18: the generators are fixed by the constructor: in every instance
    that calls lead to, each generator is the override given in the
    options, or the default when the options give none for it. *)
Theorem generators_fixed options doc :
  reachable uslug options doc →
  refIdGenerator doc
  = default default_refIdGenerator (options ≫= opt_refIdGenerator)
  ∧ defIdGenerator doc
    = default (default_defIdGenerator uslug) (options ≫= opt_defIdGenerator).
Proof.
  intros [Hdef Href]%reachable_generators. by rewrite <-Hdef, <-Href.
Qed.


End Properties.

(** * The corpus of [Scripted], run *)


Lemma explicit_escaped_step_run :
  ∃ ref doc',
    renderExplicitOrEscapedReference_each "doc2" Scripted.refRenderer
      Scripted.escaped2 Scripted.marked1 = (Ok tt, doc')
    ∧ r_type ref = escaped
    ∧ r_index ref = 0
    ∧ ∃ ref3 doc'',
        renderExplicitOrEscapedReference_each "doc2" Scripted.refRenderer
          Scripted.explicit3 doc' = (Ok tt, doc'')
        ∧ r_index ref3 = 1.
Proof.
  edestruct (explicit_escaped_step (Position := Scripted.Position) "doc2"
               Scripted.refRenderer Scripted.escaped2 Scripted.marked1)
    as (ref & doc' & H1 & H2 & _ & _ & H5 & _ & H7 & H8);
    [reflexivity | reflexivity | reflexivity |].
  exists ref, doc'. split; [exact H1|]. split; [exact H5|].
  split; [rewrite (H7 eq_refl); reflexivity|].
  edestruct (H8 eq_refl "doc2" Scripted.refRenderer Scripted.explicit3)
    as (ref3 & doc'' & H9 & _ & H10);
    [reflexivity | reflexivity | | |].
  - apply (f_equal snd) in H1. simpl in H1. rewrite <-H1. reflexivity.
  - apply (f_equal snd) in H1. simpl in H1. rewrite <-H1. reflexivity.
  - exists ref3, doc''. split; [exact H9|]. rewrite H10. reflexivity.
Defined.

Lemma collectDefinition_duplicates_witness :
  (collectDefinition (parser := Scripted.parser Scripted.widget)
     "[[Widget]]" "doc2" 0%nat Scripted.collected1).1
  = Err (Error "Duplicate definition name: Widget in file doc2")
  ∧ (collectDefinition (parser := Scripted.parser Scripted.shout)
       "[[WIDGET]]" "doc2" 0%nat Scripted.collected1).1
    = Err (Error "Duplicate definition id: widget in file doc2")
  ∧ (collectDefinition (parser := Scripted.parser Scripted.nickname)
       "[[Gadget|Widget]]" "doc3" 0%nat Scripted.collected1).1
    = Err (Error "Duplicate definition name: Widget in file doc3").
Proof.
  split; [|split].
  - pose proof (collectDefinition_duplicates
                  (parser := Scripted.parser Scripted.widget)
                  "[[Widget]]" "doc2" 0%nat Scripted.collected1) as [_ H].
    edestruct (H [] (Scripted.defn "Widget" [] EmptyString 1) []) as (H1 & _);
      [reflexivity | reflexivity |].
    rewrite (H1 eq_refl). reflexivity.
  - pose proof (collectDefinition_duplicates
                  (parser := Scripted.parser Scripted.shout)
                  "[[WIDGET]]" "doc2" 0%nat Scripted.collected1) as [_ H].
    edestruct (H [] (Scripted.defn "WIDGET" [] EmptyString 1) [])
      as (_ & H2 & _); [reflexivity | reflexivity |].
    rewrite (H2 eq_refl); [reflexivity | by eexists].
  - pose proof (collectDefinition_duplicates
                  (parser := Scripted.parser Scripted.nickname)
                  "[[Gadget|Widget]]" "doc3" 0%nat Scripted.collected1)
      as [_ H].
    edestruct (H [] (Scripted.defn "Gadget" ["Widget"] EmptyString 1) [])
      as (_ & _ & H3 & _); [reflexivity | reflexivity |].
    destruct (H3 "Widget" eq_refl eq_refl eq_refl) as (_ & _ & ->).
    reflexivity.
Defined.

Lemma collected_distinct_witness :
  heap_defs Scripted.collected2
  = [Scripted.defn "Widget" [] "widget" 0;
     Scripted.defn "Gadget" ["Gizmo"] "g1" 1]
  ∧ NoDup (registered_ids Scripted.collected2)
  ∧ (∀ k, k ∈ names (Scripted.defn "Gadget" ["Gizmo"] "g1" 1) →
          k ∉ names (Scripted.defn "Widget" [] "widget" 0)).
Proof.
  destruct (collected_distinct (parser := Scripted.parser Scripted.corpus)
              Scripted.uslug Scripted.collected2) as [Hids Hnames].
  - refine (collected_call _ _ "[[Gadget|Gizmo:g1]]" "doc2" 0%nat _ _
              (collected_call _ _ "[[Widget]]" "doc1" 0%nat _ _
                 (collected_new _ None) (run_ok _ _ _ _))
              (run_ok _ _ _ _)); reflexivity.
  - split; [reflexivity|]. split; [exact Hids|].
    intros k. by apply (Hnames 1%nat 0%nat).
Defined.

(** C3, as stated, fails: a definition whose alias repeats its name is
    collected without an error, and the names and aliases registered then
    contain that name twice. *)
Lemma collected_names_counterexample :
  collected (parser := Scripted.parser Scripted.selfalias) Scripted.uslug
    Scripted.selfaliased
  ∧ ¬ NoDup (registered_names Scripted.selfaliased).
Proof.
  split.
  - refine (collected_call _ _ "[[Gadget|Gadget]]" "doc1" 0%nat _ _
              (collected_new _ None) (run_ok _ _ _ _)).
    reflexivity.
  - change (registered_names Scripted.selfaliased) with ["Gadget"; "Gadget"].
    intros [Hnin _]%NoDup_cons. apply Hnin. by left.
Qed.


Lemma implicit_step_run :
  ∃ ref doc',
    renderImplicitReference_each "doc2" 0%nat Scripted.refRenderer 2%nat
      Scripted.marked = (Ok tt, doc')
    ∧ r_type ref = implicit
    ∧ r_index ref = 0
    ∧ ∃ ref2 doc'',
        renderImplicitReference_each "doc3" 0%nat Scripted.refRenderer 3%nat
          doc' = (Ok tt, doc'')
        ∧ r_index ref2 = 1.
Proof.
  edestruct (implicit_step_index (Position := Scripted.Position) "doc2" 0%nat
               Scripted.refRenderer 2%nat Scripted.marked)
    as (ref & doc' & H1 & _ & _ & _ & H5 & _ & H7);
    [reflexivity | reflexivity |].
  destruct (H7 eq_refl) as [H8 H9].
  exists ref, doc'. split; [exact H1|]. split; [exact H5|]. split; [exact H8|].
  edestruct (H9 "doc3" Scripted.refRenderer 3%nat) as (ref2 & doc'' & H10 & _ & _ & H11).
  - apply (f_equal snd) in H1. simpl in H1. rewrite <-H1. reflexivity.
  - exists ref2, doc''. split; [exact H10 | exact H11].
Defined.

Lemma renderText_pipeline_witness :
  renderText_spec (parser := Scripted.parser Scripted.widget) "doc1"
    "[[Widget]] see [[#widget]] or Widget" 0%nat Scripted.defRenderer
    Scripted.refRenderer Scripted.collected1
    "<def widget> see <ref widget 0> or <ref widget 1>" Scripted.rendered1.
Proof.
  apply renderText_pipeline. apply run_ok. reflexivity.
Defined.


Lemma getReverseRefs_id_name_witness :
  getReverseRefs Scripted.JSON_stringify (ById "widget") Scripted.rendered1
  = getReverseRefs Scripted.JSON_stringify (ByName "Widget") Scripted.rendered1.
Proof.
  edestruct (getReverseRefs_id_name (parser := Scripted.parser Scripted.widget)
               Scripted.uslug Scripted.JSON_stringify None Scripted.rendered1
               0%nat)
    as (H & _).
  - apply reachable_renderText, reachable_collectDefinition, reachable_new.
  - reflexivity.
  - exact H.
Defined.

Lemma dangling_explicit_throws_witness :
  ∃ e doc',
    renderExplicitOrEscapedReference (parser := Scripted.parser Scripted.dangling)
      "doc2" [1%nat] Scripted.refRenderer Scripted.dangled = (Err e, doc')
    ∧ heap_frags doc' !! 2%nat = Some (Scripted.frag "[[#gadget]]" true).
Proof.
  apply (dangling_explicit_throws (parser := Scripted.parser Scripted.dangling)
           "doc2" [1%nat] Scripted.refRenderer Scripted.dangled []
           {| pr_def := 0; pr_fragment := 2; pr_type := explicit |} []).
  - reflexivity.
  - reflexivity.
  - apply not_elem_of_nil.
  - reflexivity.
  - reflexivity.
Defined.

Lemma escaped_first_index_witness :
  ∃ ref doc',
    renderExplicitOrEscapedReference_each "doc2" Scripted.refRenderer
      Scripted.escaped2 Scripted.marked = (Ok tt, doc')
    ∧ r_index ref = -1
    ∧ default_refIdGenerator
        (push_ref ref (Scripted.defn "Widget" [] "widget" 0)) ref
      = "widget-ref-0"
    ∧ ∃ ref2 doc'',
        renderImplicitReference_each "doc2" 0%nat Scripted.refRenderer 4%nat
          doc' = (Ok tt, doc'')
        ∧ r_index ref2 = 0.
Proof.
  edestruct (escaped_first_index (Position := Scripted.Position) "doc2"
               Scripted.refRenderer Scripted.escaped2 Scripted.marked
               (Scripted.defn "Widget" [] "widget" 0))
    as (ref & doc' & H1 & _ & _ & _ & H5 & H6 & H7 & _);
    [reflexivity | reflexivity | reflexivity | reflexivity |].
  exists ref, doc'. split; [exact H1|]. split; [exact H5|]. split; [exact H6|].
  edestruct (H7 "doc2" Scripted.refRenderer 4%nat) as (ref2 & doc'' & H8 & _ & H9).
  - apply (f_equal snd) in H1. simpl in H1. rewrite <-H1. reflexivity.
  - exists ref2, doc''. split; [exact H8 | exact H9].
Defined.

Lemma default_generators_witness :
  refIdGenerator Scripted.rendered1 (Scripted.defn "Widget" [] "widget" 0)
    (mkReference 0 "doc1" 5 explicit 0 "Widget")
  = "widget-ref-1"
  ∧ defIdGenerator Scripted.rendered1 "Widget" = "widget".
Proof.
  edestruct (default_generators (parser := Scripted.parser Scripted.widget)
               Scripted.uslug None Scripted.rendered1
               (Scripted.defn "Widget" [] "widget" 0)
               (mkReference 0 "doc1" 5 explicit 0 "Widget") "Widget")
    as (_ & H0 & _ & Hslug).
  - apply reachable_renderText, reachable_collectDefinition, reachable_new.
  - reflexivity.
  - reflexivity.
  - split; [exact (H0 eq_refl) | exact Hslug].
Defined.

(** * The further properties on the corpus of [Scripted] *)

Lemma run_err {Position : Type} {A} (m : M Position A) doc e :
  (m doc).1 = Err e → m doc = (Err e, (m doc).2).
Proof. destruct (m doc) as [r doc']. simpl. by intros ->. Qed.

(** The scripted parser returns definitions without references. *)
Lemma scripted_widget_defs text path position frags :
  Forall (fun d => d_refs d = [])
    (defs (@parseDefinition _ (Scripted.parser Scripted.widget)
             text path position frags).1).
Proof. by repeat constructor. Qed.

Lemma reachable_rendered1 :
  reachable (parser := Scripted.parser Scripted.widget) Scripted.uslug None
    Scripted.rendered1.
Proof.
  apply reachable_renderText, reachable_collectDefinition, reachable_new.
Qed.

(** Two explicit lists of names have no name in common. *)
Ltac names_apart :=
  let k := fresh "k" in
  let Hk := fresh "Hk" in
  let Hk' := fresh "Hk'" in
  intros k Hk Hk';
  repeat (apply elem_of_cons in Hk as [Hk|Hk];
          [ subst k;
            repeat (apply elem_of_cons in Hk' as [Hk'|Hk']; [discriminate|]);
            by apply elem_of_nil in Hk' |]);
  by apply elem_of_nil in Hk.

Lemma collectDefinition_succeeds_witness :
  collectDefinition (parser := Scripted.parser Scripted.pair)
    "[[Widget]] [[Gadget|Gizmo:g1]]" "doc1" 0%nat
    (new_BiDoc Scripted.uslug None)
  = (Ok ([0; 1]%nat, [0; 1; 2]%nat),
     (collectDefinition (parser := Scripted.parser Scripted.pair)
        "[[Widget]] [[Gadget|Gizmo:g1]]" "doc1" 0%nat
        (new_BiDoc Scripted.uslug None)).2).
Proof.
  edestruct (collectDefinition_succeeds (parser := Scripted.parser Scripted.pair)
               "[[Widget]] [[Gadget|Gizmo:g1]]" "doc1" 0%nat
               (new_BiDoc Scripted.uslug None)) as [Hrun _].
  - by repeat constructor.
  - split; [|by repeat split].
    constructor; [|constructor]. split; [done | names_apart].
  - rewrite Hrun. reflexivity.
Defined.

Lemma collectDefinition_order_witness :
  name2def
    (collectDefinition (parser := Scripted.parser Scripted.pair)
       "[[Widget]] [[Gadget|Gizmo:g1]]" "doc1" 0%nat
       (new_BiDoc Scripted.uslug None)).2
  = [("Widget", 0%nat); ("Gadget", 1%nat); ("Gizmo", 1%nat)].
Proof.
  rewrite (collectDefinition_order (parser := Scripted.parser Scripted.pair)
             "[[Widget]] [[Gadget|Gizmo:g1]]" "doc1" 0%nat
             (new_BiDoc Scripted.uslug None)).
  - reflexivity.
  - by repeat constructor.
  - split; [|by repeat split].
    constructor; [|constructor]. split; [done | names_apart].
  - repeat constructor; apply (bool_decide_unpack _); by vm_compute.
Defined.

Lemma registry_exact_witness :
  registry_ok Scripted.rendered1 ∧ no_orphans Scripted.rendered1.
Proof.
  apply (registry_exact (parser := Scripted.parser Scripted.widget)
           Scripted.uslug None Scripted.rendered1).
  exact reachable_rendered1.
Defined.

Lemma ids_never_empty_witness : ids_assigned Scripted.collected_prefixed.
Proof.
  apply (ids_never_empty (parser := Scripted.parser Scripted.widget)
           Scripted.uslug Scripted.prefixing Scripted.collected_prefixed).
  - apply reachable_collectDefinition, reachable_new.
  - intros name. discriminate.
Defined.

Lemma index_is_ordinal_witness :
  ∃ ref,
    heap_defs Scripted.rendered1 !! 0%nat ≫= (fun d => d_refs d !! 1%nat)
    = Some ref
    ∧ r_type ref = implicit
    ∧ r_index ref = 1.
Proof.
  edestruct (fun d => index_is_ordinal
               (parser := Scripted.parser Scripted.widget)
               Scripted.uslug None Scripted.rendered1 0%nat d 1%nat)
    as [H _].
  - exact scripted_widget_defs.
  - exact reachable_rendered1.
  - reflexivity.
  - reflexivity.
  - eexists. split; [reflexivity|]. split; [reflexivity|].
    rewrite H. reflexivity.
Defined.

Lemma linking_anchors_differ_witness :
  ∃ d ref1 ref2,
    heap_defs Scripted.rendered1 !! 0%nat = Some d
    ∧ d_refs d = [ref1; ref2]
    ∧ r_type ref1 = explicit ∧ r_type ref2 = implicit
    ∧ default_refIdGenerator d ref1 ≠ default_refIdGenerator d ref2.
Proof.
  edestruct (fun d => linking_anchors_differ
               (parser := Scripted.parser Scripted.widget)
               Scripted.uslug None Scripted.rendered1 0%nat d 0%nat 1%nat)
    as [_ H].
  - exact scripted_widget_defs.
  - exact reachable_rendered1.
  - reflexivity.
  - reflexivity.
  - reflexivity.
  - done.
  - done.
  - done.
  - eexists _, _, _. split; [reflexivity|]. split; [reflexivity|].
    split; [reflexivity|]. split; [reflexivity|]. exact H.
Defined.

Lemma getReverseRefs_returns_witness :
  getReverseRefs Scripted.JSON_stringify (ById "widget") Scripted.rendered1
  = (Ok ["doc1#widget-ref-1"; "doc1#widget-ref-2"], Scripted.rendered1).
Proof.
  edestruct (getReverseRefs_returns (parser := Scripted.parser Scripted.widget)
               Scripted.uslug Scripted.JSON_stringify None Scripted.rendered1
               (ById "widget") 0%nat)
    as (d & Hd & Hrun).
  - exact scripted_widget_defs.
  - exact reachable_rendered1.
  - reflexivity.
  - rewrite Hrun. vm_compute in Hd. injection Hd as <-. reflexivity.
Defined.

Lemma escaped_shows_text_witness :
  ∃ ref doc',
    renderExplicitOrEscapedReference_each "doc2" Scripted.refRenderer
      Scripted.escaped2 Scripted.marked = (Ok tt, doc')
    ∧ r_name ref = "Widget"
    ∧ heap_frags doc' !! 3%nat = Some (Scripted.frag "Widget" true).
Proof.
  edestruct (fun d f => escaped_shows_text (Position := Scripted.Position)
               "doc2" Scripted.refRenderer Scripted.escaped2 Scripted.marked
               d f "[[!" "Widget" "]]")
    as (ref & doc' & H1 & _ & H3 & H4 & _);
    [reflexivity | reflexivity | reflexivity |].
  exists ref, doc'. split; [exact H1|].
  specialize (H4 eq_refl eq_refl eq_refl).
  split; [exact H4|]. rewrite H4 in H3. exact H3.
Defined.

Lemma renderDefinition_rewrites_witness :
  ∃ hp,
    renderDefinition (parser := Scripted.parser Scripted.widget) "doc1"
      [1%nat] Scripted.defRenderer Scripted.opened
    = (Ok [2%nat; 3%nat], set_heap_frags (fun _ => hp) Scripted.opened)
    ∧ hp !! 2%nat = Some (Scripted.frag "<def widget>" true)
    ∧ hp !! 3%nat = Some (Scripted.frag " see [[#widget]] or Widget" false).
Proof.
  edestruct (renderDefinition_rewrites (parser := Scripted.parser Scripted.widget)
               "doc1" [1%nat] Scripted.defRenderer Scripted.opened)
    as (hp & Hrun & Hdef & Hother).
  - apply (bool_decide_unpack _). by vm_compute.
  - repeat constructor; by eexists.
  - exists hp. split; [exact Hrun|]. split.
    + apply (Hdef (Scripted.defn "Widget" [] EmptyString 2)
               (Scripted.frag "[[Widget]]" true)); [by left | reflexivity].
    + rewrite Hother; [reflexivity|].
      apply (bool_decide_unpack _). by vm_compute.
Defined.

Lemma markers_rewritten_witness :
  ∃ doc',
    renderExplicitOrEscapedReference (parser := Scripted.parser Scripted.markers)
      "doc2" [1%nat] Scripted.refRenderer Scripted.unmarked
    = (Ok [2%nat; 3%nat; 4%nat], doc')
    ∧ heap_frags doc' !! 2%nat = Some (Scripted.frag "<ref widget 0>" true)
    ∧ heap_frags doc' !! 3%nat = Some (Scripted.frag "Widget" true)
    ∧ heap_frags doc' !! 4%nat = Some (Scripted.frag "<ref widget 1>" true)
    ∧ heap_frags doc' !! 1%nat
      = Some (Scripted.frag "[[#widget]][[!Widget]][[#widget]]" false).
Proof.
  edestruct (markers_rewritten (parser := Scripted.parser Scripted.markers)
               "doc2" [1%nat] Scripted.refRenderer Scripted.unmarked)
    as (doc' & Hrun & Hmark & Hother).
  - apply (bool_decide_unpack _). by vm_compute.
  - repeat constructor; try (by eexists); eexists; (split; [reflexivity|]);
      by eexists.
  - exists doc'. split; [exact Hrun|].
    assert (Hstore : heap_defs doc' !! 0%nat
      = Some (add_refs (Scripted.defn "Widget" [] "widget" 0)
                [mkReference 0 "doc2" 2 explicit 0 "Widget";
                 mkReference 0 "doc2" 3 escaped 0 "Widget";
                 mkReference 0 "doc2" 4 explicit 1 "Widget"])).
    { apply (f_equal snd) in Hrun. simpl in Hrun. rewrite <-Hrun.
      reflexivity. }
    split; [|split; [|split]].
    + destruct (Hmark [] Scripted.explicit1
                  [Scripted.escaped2; Scripted.explicit3]
                  (Scripted.frag "[[#widget]]" true))
        as (text & Hf & _ & Hexp); [reflexivity | reflexivity |].
      specialize (Hexp eq_refl). cbv zeta in Hexp.
      destruct Hexp as (d & name & earlier & later & Hd & Hname & Hearlier
                        & _ & Htext).
      vm_compute in Hd. injection Hd as <-.
      vm_compute in Hname. injection Hname as <-.
      destruct earlier as [|e earlier]; [|discriminate Hearlier].
      etrans; [exact Hf|]. rewrite Htext. reflexivity.
    + destruct (Hmark [Scripted.explicit1] Scripted.escaped2
                  [Scripted.explicit3] (Scripted.frag "[[!Widget]]" true))
        as (text & Hf & Hname & _); [reflexivity | reflexivity |].
      etrans; [exact Hf|]. specialize (Hname ltac:(discriminate)).
      injection Hname as <-. reflexivity.
    + destruct (Hmark [Scripted.explicit1; Scripted.escaped2]
                  Scripted.explicit3 [] (Scripted.frag "[[#widget]]" true))
        as (text & Hf & _ & Hexp); [reflexivity | reflexivity |].
      specialize (Hexp eq_refl). cbv zeta in Hexp.
      destruct Hexp as (d & name & earlier & later & Hd & Hname & Hearlier
                        & Hlast & Htext).
      vm_compute in Hd. injection Hd as <-.
      vm_compute in Hname. injection Hname as <-.
      pose proof (eq_trans (eq_sym Hstore) Hlast) as Heq.
      destruct earlier as [|e1 [|e2 [|e3 earlier]]]; try discriminate Hearlier.
      unfold add_refs in Heq. cbn [d_refs app Scripted.defn] in Heq.
      injection Heq as <- <- _.
      etrans; [exact Hf|]. rewrite Htext. reflexivity.
    + rewrite Hother; [reflexivity|].
      apply (bool_decide_unpack _). by vm_compute.
Defined.

Lemma occurrences_rewritten_witness :
  ∃ doc',
    renderImplicitReference (parser := Scripted.parser Scripted.twice)
      "doc3" [1%nat] 0%nat "Widget" Scripted.refRenderer Scripted.twiced
    = (Ok [2%nat; 3%nat; 4%nat], doc')
    ∧ heap_frags doc' !! 2%nat = Some (Scripted.frag "<ref widget 0>" true)
    ∧ heap_frags doc' !! 4%nat = Some (Scripted.frag "<ref widget 1>" true)
    ∧ heap_frags doc' !! 3%nat = Some (Scripted.frag " and " false).
Proof.
  edestruct (occurrences_rewritten (parser := Scripted.parser Scripted.twice)
               "doc3" [1%nat] 0%nat "Widget" Scripted.refRenderer
               Scripted.twiced (Scripted.defn "Widget" [] "widget" 0))
    as (doc' & Hrun & Hocc & Hother).
  - reflexivity.
  - apply (bool_decide_unpack _). by vm_compute.
  - repeat constructor; by eexists.
  - exists doc'. split; [exact Hrun|].
    assert (Hstore : heap_defs doc' !! 0%nat
      = Some (add_refs (Scripted.defn "Widget" [] "widget" 0)
                [mkReference 0 "doc3" 2 implicit 0 "Widget";
                 mkReference 0 "doc3" 4 implicit 1 "Widget"])).
    { apply (f_equal snd) in Hrun. simpl in Hrun. rewrite <-Hrun.
      reflexivity. }
    split; [|split].
    + destruct (Hocc [] 2%nat [4%nat] (Scripted.frag "Widget" true))
        as (earlier & later & Hearlier & _ & Hf); [reflexivity | reflexivity |].
      destruct earlier as [|e earlier]; [|discriminate Hearlier].
      etrans; [exact Hf|]. reflexivity.
    + destruct (Hocc [2%nat] 4%nat [] (Scripted.frag "Widget" true))
        as (earlier & later & Hearlier & Hlast & Hf);
        [reflexivity | reflexivity |].
      pose proof (eq_trans (eq_sym Hstore) Hlast) as Heq.
      destruct earlier as [|e1 [|e2 earlier]]; try discriminate Hearlier.
      unfold add_refs in Heq. cbn [d_refs app Scripted.defn] in Heq.
      injection Heq as <- _.
      etrans; [exact Hf|]. reflexivity.
    + rewrite Hother; [reflexivity|].
      apply (bool_decide_unpack _). by vm_compute.
Defined.

Lemma collectDefinition_throws_witness :
  (∃ doc',
     Throwing.collectDefinition (parser := Scripted.parser Scripted.widget)
       Scripted.refusing "[[Widget]]" "doc1" 0%nat
       (new_BiDoc Scripted.uslug None)
     = (Err (Error "no id for Widget"), doc')
     ∧ name2def doc' = [] ∧ id2def doc' = ∅ ∧ heap_defs doc' = [])
  ∧ (∃ doc' key,
       Throwing.collectDefinition (parser := Scripted.parser Scripted.shout)
         Scripted.slugging "[[WIDGET]]" "doc2" 0%nat Scripted.collected1
       = (Err (Error "Duplicate definition id: widget in file doc2"), doc')
       ∧ key = "widget"
       ∧ is_Some (id2def doc' !! key)).
Proof.
  split.
  - edestruct (collectDefinition_throws
                 (parser := Scripted.parser Scripted.widget)
                 Scripted.refusing "[[Widget]]" "doc1" 0%nat
                 (new_BiDoc Scripted.uslug None))
      as (pre & d0 & post & hs & Hdefs & Hpre & _).
    + apply run_err. reflexivity.
    + eexists. split; [apply run_err; reflexivity|].
      destruct pre as [|d1 [|d2 pre]]; [|destruct post|]; simplify_eq/=.
      done.
  - edestruct (collectDefinition_throws
                 (parser := Scripted.parser Scripted.shout)
                 Scripted.slugging "[[WIDGET]]" "doc2" 0%nat
                 Scripted.collected1)
      as (pre & d0 & post & hs & Hdefs & Hpre & Hcause).
    + apply run_err. reflexivity.
    + destruct pre as [|d1 [|d2 pre]]; [|destruct post|]; simplify_eq/=.
      destruct Hcause as [[_ Hgen] | (id & key & Hid & Hkey)];
        [discriminate Hgen|].
      injection Hid as <-.
      destruct Hkey as [(_ & _ & He) | (-> & Hsome & _)];
        [discriminate He|].
      eexists _, _. split; [reflexivity|]. split; [reflexivity|].
      exact Hsome.
Defined.

Lemma renderExplicitOrEscapedReference_throws_witness :
  ∃ doc' r d ref,
    Throwing.renderExplicitOrEscapedReference
      (parser := Scripted.parser Scripted.markers)
      "doc2" [1%nat] Scripted.once Scripted.unmarked
    = (Err (Error "rendered once"), doc')
    ∧ pr_fragment r = 4%nat
    ∧ r_index ref = 1
    ∧ heap_defs doc' !! 0%nat = Some (push_ref ref d)
    ∧ length (d_refs d) = 2%nat
    ∧ heap_frags doc' !! 2%nat = Some (Scripted.frag "<ref widget 0>" true)
    ∧ heap_frags doc' !! 3%nat = Some (Scripted.frag "Widget" true)
    ∧ heap_frags doc' !! 4%nat = Some (Scripted.frag "[[#widget]]" true).
Proof.
  edestruct (renderExplicitOrEscapedReference_throws
               (parser := Scripted.parser Scripted.markers)
               "doc2" [1%nat] Scripted.once Scripted.unmarked)
    as (pre & r & post & doc1 & Hrefs & Hpre & Hcause).
  - apply run_err. reflexivity.
  - destruct Hcause
      as [(_ & He & _) | (d & f & name & Hty & Hd & _ & _ & Hcause)];
      [discriminate He|].
    cbv zeta in Hcause. destruct Hcause as (Hthrown & _ & Hstore & _).
    destruct pre as [|r1 [|r2 [|r3 pre]]].
    + injection Hrefs as <- _. injection Hpre as <-.
      vm_compute in Hd. injection Hd as <-. discriminate Hthrown.
    + injection Hrefs as _ <- _. discriminate Hty.
    + injection Hrefs as <- <- <- _.
      vm_compute in Hpre. injection Hpre as <-.
      vm_compute in Hd. injection Hd as <-.
      eexists _, Scripted.explicit3, _, _.
      split; [apply run_err; reflexivity|]. split; [reflexivity|].
      split; [|split; [exact Hstore|]]; [reflexivity|].
      repeat split; reflexivity.
    + destruct pre; discriminate Hrefs.
Defined.

Lemma renderImplicitReference_throws_witness :
  ∃ doc' d ref,
    Throwing.renderImplicitReference (parser := Scripted.parser Scripted.twice)
      "doc3" [1%nat] 0%nat "Widget" Scripted.once Scripted.twiced
    = (Err (Error "rendered once"), doc')
    ∧ heap_defs doc' !! 0%nat = Some (push_ref ref d)
    ∧ Scripted.once (push_ref ref d) ref = Err (Error "rendered once")
    ∧ heap_frags doc' !! 2%nat = Some (Scripted.frag "<ref widget 0>" true)
    ∧ heap_frags doc' !! 4%nat = Some (Scripted.frag "Widget" true).
Proof.
  edestruct (renderImplicitReference_throws
               (parser := Scripted.parser Scripted.twice)
               "doc3" [1%nat] 0%nat "Widget" Scripted.once Scripted.twiced)
    as (pre & r & post & doc1 & Hrefs & Hpre & Hcause).
  - apply run_err. reflexivity.
  - destruct Hcause as [(_ & He & _) | (d & f & _ & _ & Hcause)];
      [discriminate He|].
    cbv zeta in Hcause. destruct Hcause as (Hthrown & _ & Hstore & _).
    eexists _, d, _. split; [apply run_err; reflexivity|].
    split; [exact Hstore|]. split; [exact Hthrown|].
    split; reflexivity.
Defined.

Lemma generators_fixed_witness :
  refIdGenerator Scripted.collected_prefixed = default_refIdGenerator
  ∧ defIdGenerator Scripted.collected_prefixed = Scripted.prefixed.
Proof.
  apply (generators_fixed (parser := Scripted.parser Scripted.widget)
           Scripted.uslug Scripted.prefixing Scripted.collected_prefixed).
  apply reachable_collectDefinition, reachable_new.
Defined.
